(** * The fomod installer of Wrye Bash ([Mopy/bash/boop.py])

    A shallow embedding of the installer engine: the ElementTree values it
    reads, the [LooseVersion] comparison it imports, its two chain maps, the
    dependency check, the file and flag collectors and the generator that
    drives the install steps.  Python values that may be [None] are options,
    Python dictionaries are finite maps, raised exceptions are values of
    [exn] carried by [result]. *)

From stdpp Require Import gmap strings list fin_maps sorting.
From Stdlib Require Import ZArith NArith Lia Ascii.
From Stdlib Require String.

(** ** Exceptions and fallible computations *)

(** The exceptions the module can raise.  [MissingDependency] keeps the three
    constructor arguments (dependency type, expected, actual) from which its
    message is built. *)
Inductive exn :=
  | MissingDependency (type_ expected actual : string)
  | ValueError (msg : string)
  | TypeError
  | AttributeError
  | UnboundLocalError
  | KeyError
  | StopIteration.

Inductive result (A : Type) :=
  | Ok (a : A)
  | Raise (e : exn).
Arguments Ok {A} a.
Arguments Raise {A} e.

(** Sequencing: an exception raised by the first computation propagates. *)
#[global] Instance result_bind : MBind result := λ A B k r,
  match r with
  | Ok a => k a
  | Raise e => Raise e
  end.
#[global] Instance result_ret : MRet result := λ A a, Ok a.

Definition is_ok {A} (r : result A) : bool :=
  match r with Ok _ => true | Raise _ => false end.

(** ** ElementTree elements *)

(** An element: its tag, its attribute dictionary, its text and its child
    elements in document order. *)
#[warnings="-register-all"]
Inductive Element :=
  mkElement (tag : string) (attrib : list (string * string))
            (text : option string) (children : list Element).

Definition tag (e : Element) : string :=
  let 'mkElement t _ _ _ := e in t.
Definition attrib (e : Element) : list (string * string) :=
  let 'mkElement _ a _ _ := e in a.
Definition text (e : Element) : option string :=
  let 'mkElement _ _ x _ := e in x.
Definition children (e : Element) : list Element :=
  let 'mkElement _ _ _ c := e in c.

(** [elem.get(key)]: the attribute, or [None]. *)
Fixpoint assoc (key : string) (l : list (string * string)) : option string :=
  match l with
  | [] => None
  | (k, v) :: l' => if decide (k = key) then Some v else assoc key l'
  end.

Definition get (e : Element) (key : string) : option string :=
  assoc key (attrib e).

(** [elem.get(key, default)]. *)
Definition get_default (e : Element) (key dflt : string) : string :=
  default dflt (get e key).

(** [elem.findall('*')]: every child element. *)
Definition findall_star (e : Element) : list Element := children e.

(** [elem.findall(t)] for a plain tag. *)
Definition findall (e : Element) (t : string) : list Element :=
  filter (λ c, tag c = t) (children e).

(** [elem.find(t)]: the first child with that tag, or [None]. *)
Definition find (e : Element) (t : string) : option Element :=
  head (findall e t).

(** [elem.find('a/b')]: the first [b] child of an [a] child. *)
Definition find2 (e : Element) (a b : string) : option Element :=
  head (mjoin (map (λ c, findall c b) (findall e a))).

(** [x or '']. *)
Definition or_empty (o : option string) : string := default "" o.

(** [elem.findtext(t, default)]. *)
Definition findtext (e : Element) (t dflt : string) : string :=
  match find e t with
  | None => dflt
  | Some c => or_empty (text c)
  end.

(** [str.strip()]. *)
Definition is_space (c : ascii) : bool :=
  let n := N_of_ascii c in ((9 <=? n) && (n <=? 13) || (n =? 32))%N.

Fixpoint lstrip (s : string) : string :=
  match s with
  | String c s' => if is_space c then lstrip s' else s
  | EmptyString => EmptyString
  end.

Fixpoint rstrip (s : string) : string :=
  match s with
  | String c s' =>
      match rstrip s' with
      | EmptyString => if is_space c then EmptyString else String c EmptyString
      | r => String c r
      end
  | EmptyString => EmptyString
  end.

Definition strip (s : string) : string := rstrip (lstrip s).

(** ** [distutils.version.LooseVersion]

    The comparison imported by the module, as Python 2 defines it: the version
    string is cut by [re.split] on the pattern [(\d+ | [a-z]+ | \.)], empty
    pieces and dots are dropped, pieces that [int] accepts become integers,
    and two versions compare as their lists of pieces do under [cmp]. *)

Inductive cclass := Digit | Lower | Dot | Other.

Definition classify (c : ascii) : cclass :=
  let n := N_of_ascii c in
  if ((48 <=? n) && (n <=? 57))%N then Digit
  else if ((97 <=? n) && (n <=? 122))%N then Lower
  else if (n =? 46)%N then Dot
  else Other.

Definition snoc (s : string) (c : ascii) : string :=
  s +:+ String c EmptyString.

(** [component_re.split(vstring)]: the text between the matches (possibly
    empty) alternating with the matches themselves.  [txt] is the unmatched
    text read so far; [run] is the match being extended, a run of digits
    ([true]) or of lower-case letters ([false]). *)
Fixpoint re_split (s : string) (txt : string) (run : option (bool * string))
  : list string :=
  match s with
  | EmptyString =>
      match run with
      | Some (_, r) => [r; ""]
      | None => [txt]
      end
  | String c s' =>
      match run, classify c with
      | Some (true, r), Digit => re_split s' txt (Some (true, snoc r c))
      | Some (false, r), Lower => re_split s' txt (Some (false, snoc r c))
      | Some (_, r), Digit => r :: "" :: re_split s' "" (Some (true, String c ""))
      | Some (_, r), Lower => r :: "" :: re_split s' "" (Some (false, String c ""))
      | Some (_, r), Dot => r :: "" :: "." :: re_split s' "" None
      | Some (_, r), Other => r :: re_split s' (String c "") None
      | None, Digit => txt :: re_split s' "" (Some (true, String c ""))
      | None, Lower => txt :: re_split s' "" (Some (false, String c ""))
      | None, Dot => txt :: "." :: re_split s' "" None
      | None, Other => re_split s' (snoc txt c) None
      end
  end.

(** Strings made of characters of one kind. *)
Fixpoint all_chars (p : ascii → bool) (s : string) : bool :=
  match s with
  | EmptyString => true
  | String c s' => p c && all_chars p s'
  end.

Definition is_digit (c : ascii) : bool :=
  match classify c with Digit => true | _ => false end.

(** Neither a digit nor a dot. *)
Definition is_wordy (c : ascii) : bool :=
  match classify c with Digit | Dot => false | _ => true end.

(** A parsed piece: an integer or a string. *)
Inductive component :=
  | CInt (n : N)
  | CStr (s : string).

Fixpoint digits_value (s : string) (acc : N) : option N :=
  match s with
  | EmptyString => Some acc
  | String c s' =>
      match classify c with
      | Digit => digits_value s' (10 * acc + (N_of_ascii c - 48))%N
      | _ => None
      end
  end.

(** A decimal numeral: a non-empty run of digits. *)
Definition is_numeral (s : string) : Prop :=
  s ≠ "" ∧ all_chars is_digit s = true.

(** The value of a run of digits. *)
Definition digits (s : string) : N := default 0%N (digits_value s 0%N).

(** The state of the scanner is well formed: the pending text holds no
    digit and no dot, and a run is a non-empty string of digits or of
    characters that are neither digits nor dots. *)
Definition run_ok (run : option (bool * string)) : Prop :=
  match run with
  | None => True
  | Some (true, r) => r ≠ "" ∧ all_chars is_digit r = true
  | Some (false, r) => r ≠ "" ∧ all_chars is_wordy r = true
  end.

Definition piece_ok (piece : string) : Prop :=
  piece = "" ∨ piece = "."
  ∨ all_chars is_digit piece = true ∨ all_chars is_wordy piece = true.

(** [int(piece)] on a piece of the split: a run of digits converts, every
    other piece holds no digit and raises [ValueError] ([None] here). *)
Definition py_int (piece : string) : option N :=
  match piece with
  | EmptyString => None
  | _ => digits_value piece 0%N
  end.

Definition to_component (piece : string) : component :=
  match py_int piece with
  | Some n => CInt n
  | None => CStr piece
  end.

(** [LooseVersion.parse]. *)
Definition parse (vstring : string) : list component :=
  let components :=
    filter (λ x, x ≠ "" ∧ x ≠ ".") (re_split vstring "" None) in
  map to_component components.

(** Python 2 [cmp] on pieces: integers by value, strings by bytes, and an
    integer below every string. *)
Definition cmp_component (a b : component) : comparison :=
  match a, b with
  | CInt x, CInt y => (x ?= y)%N
  | CInt _, CStr _ => Lt
  | CStr _, CInt _ => Gt
  | CStr x, CStr y => String.compare x y
  end.

(** Python 2 [cmp] on lists: the first differing position decides, a proper
    prefix is smaller. *)
Fixpoint cmp_list (a b : list component) : comparison :=
  match a, b with
  | [], [] => Eq
  | [], _ :: _ => Lt
  | _ :: _, [] => Gt
  | x :: a', y :: b' =>
      match cmp_component x y with
      | Eq => cmp_list a' b'
      | c => c
      end
  end.

(** [LooseVersion(vstring)]: the [version] attribute, which [__init__] sets
    only when [vstring] is truthy. *)
Definition LooseVersion (vstring : option string) : option (list component) :=
  match vstring with
  | None => None
  | Some EmptyString => None
  | Some s => Some (parse s)
  end.

(** [LooseVersion.__cmp__]: reading a missing [version] attribute raises. *)
Definition LooseVersion_cmp (a b : option (list component)) : result comparison :=
  match a, b with
  | Some x, Some y => Ok (cmp_list x y)
  | _, _ => Raise AttributeError
  end.

(** [a < b] on two [LooseVersion] objects. *)
Definition LooseVersion_lt (a b : option (list component)) : result bool :=
  c ← LooseVersion_cmp a b;
  Ok (match c with Lt => true | _ => false end).

(** ** Python's [sorted]

    A stable insertion sort: [before a b] says that [a] must come before [b].
    Elements that neither relation orders keep their original order, which is
    what [sorted] guarantees with and without [reverse=True]. *)

Section sorted.
Context {A : Type} (before : A → A → bool).

Fixpoint insert_sorted (x : A) (l : list A) : list A :=
  match l with
  | [] => [x]
  | y :: l' => if before y x then y :: insert_sorted x l' else x :: l
  end.

Definition sorted (l : list A) : list A := foldr insert_sorted [] l.

(** [a] may stand before [b] in a sorted list: nothing orders [b] before
    [a]. *)
Definition may_precede (a b : A) : Prop := before b a = false.
End sorted.

(** Byte order on strings, as [cmp] on two [str] values. *)
Definition str_lt (a b : string) : bool :=
  match String.compare a b with Lt => true | _ => false end.

(** Python 2 order on [None] and strings: [None] is below every string. *)
Definition ostr_lt (a b : option string) : bool :=
  match a, b with
  | None, Some _ => true
  | Some x, Some y => str_lt x y
  | _, None => false
  end.

(** ** [ChainMap] and [_NestedChainMap]

    A chain map is its list [maps]; the front map is the most recent. *)

Section chainmap.
Context `{Countable K} {V : Type}.

(** [ChainMap.__getitem__]: the first map that has the key; [None] stands
    for [KeyError]. *)
Fixpoint ChainMap_getitem (maps : list (gmap K V)) (key : K) : option V :=
  match maps with
  | [] => None
  | mapping :: maps' =>
      match mapping !! key with
      | Some v => Some v
      | None => ChainMap_getitem maps' key
      end
  end.

(** [ChainMap.get]: [self[key] if key in self else default]. *)
Definition ChainMap_get (maps : list (gmap K V)) (key : K) (dflt : V) : V :=
  default dflt (ChainMap_getitem maps key).

(** The dictionary [d] built by [ChainMap.__iter__]: the maps are visited
    back to front and each one updates [d]. *)
Definition ChainMap_iter (maps : list (gmap K V)) : gmap K V :=
  foldl (λ d mapping, mapping ∪ d) ∅ (reverse maps).

(** [keys()]: the keys of that dictionary. *)
Definition ChainMap_keys (maps : list (gmap K V)) : list K :=
  (map_to_list (ChainMap_iter maps)).*1.

(** [dict(mapping)]: one entry per key, read through [__getitem__]. *)
Definition dict_of {W} (keys : list K) (getitem : K → option W) : gmap K W :=
  list_to_map (omap (λ k, pair k <$> getitem k) keys).
End chainmap.

Section nested.
Context `{Countable K} `{Countable K2} {V : Type}.

(** [_NestedChainMap.__getitem__]: the values found for the key in all the
    maps, front to back; here every value is a dictionary, so the result
    is their merge, the back ones updated by the front ones. *)
Definition NestedChainMap_getitem
    (maps : list (gmap K (gmap K2 V))) (key : K) : option (gmap K2 V) :=
  let values := omap (λ mapping, mapping !! key) maps in
  match values with
  | [] => None
  | _ => Some (foldl (λ result value, value ∪ result) ∅ (reverse values))
  end.
End nested.

(** The flag tables and the file tables of the installer. *)
Abbreviation flag_dict := (gmap (option string) string).
Abbreviation prio_dict := (gmap (option string) string).
Abbreviation file_dict := (gmap string (gmap (option string) string)).

(** ** [MissingDependency] *)

(** The value of the local variable [missed_dep]: the empty tuple, or the
    triple (type, expected, actual), whose last two components come from
    attribute reads and may be [None]. *)
Inductive pytuple :=
  | Empty
  | Triple (type_ : string) (expected actual : option string).

(** Truth value of a tuple. *)
Definition truthy_tuple (t : pytuple) : bool :=
  match t with Empty => false | Triple _ _ _ => true end.

(** The message built by [MissingDependency.__init__]. *)
Definition MissingDependency_msg (type_ expected actual : string) : string :=
  let msg := type_ +:+ " dependency not met. " in
  if decide (type_ = "Version") then
    (msg +:+ "Game version is " +:+ actual) +:+ ", " +:+ expected +:+ " or newer is required."
  else if decide (type_ = "File") then
    msg +:+ actual +:+ " should be " +:+ expected +:+ "."
  else
    (msg +:+ "Expected value of " +:+ expected) +:+ " instead of " +:+ actual.

(** What [raise MissingDependency( *missed_dep )] raises: the exception itself
    when the constructor succeeds; [TypeError] when the tuple is empty (three
    arguments are missing) or when a component is [None] (it cannot be
    concatenated to the message); [ValueError] for an unknown type. *)
Definition raise_MissingDependency (missed_dep : pytuple) : exn :=
  match missed_dep with
  | Empty => TypeError
  | Triple type_ (Some expected) (Some actual) =>
      if decide (type_ = "Version" ∨ type_ = "File" ∨ type_ = "Flag")
      then MissingDependency type_ expected actual
      else ValueError "Unexpected dependency type."
  | Triple _ _ _ => TypeError
  end.

(** ** [_assert_dependencies] *)

(** How the body of the [for check in checks] loop ends for one check, before
    the short-circuit test: by [continue], or by falling through with the
    value of [missed_dep] (which was reset to [()] at the top of the body). *)
Inductive checked :=
  | Continue
  | Fallthrough (missed_dep : pytuple).

Section dependencies.
(** The file system: [path_exists dest file] is
    [os.path.exists(os.path.join(dest, file))]. *)
Variable path_exists : string → string → bool.

(** [flag_states.get]: the only use the function makes of its second
    argument, which is a dictionary or a [ChainMap]. *)
Variable flag_states_get : option string → string → string.
Variable dest : option string.
Variable game_version : option string.

(** The branch taken for one check.  [recurse] is [_assert_dependencies]
    itself, called on a nested [dependencies] element. *)
Definition check_dependency (recurse : Element → result ()) (check : Element)
  : result checked :=
  if bool_decide (tag check = "gameDependency") then
    match game_version with
    | None => Ok Continue
    | Some gv =>
        older ← LooseVersion_lt (LooseVersion (Some gv))
                                (LooseVersion (get check "version"));
        if older : bool
        then Ok (Fallthrough (Triple "Version" (get check "version") (Some gv)))
        else Ok (Fallthrough Empty)
    end
  else if bool_decide (tag check = "fileDependency") then
    match dest with
    | None => Ok Continue
    | Some d =>
        match get check "file" with
        | None => Raise TypeError (* [os.path.join(dest, None)] on Windows *)
        | Some file =>
            let file_state := path_exists d file in
            if bool_decide (get check "state" = Some "Missing") && file_state then
              Ok (Fallthrough (Triple "File" (Some "missing") (Some file)))
            else if bool_decide (get check "state" = Some "Active") && negb file_state then
              Ok (Fallthrough (Triple "File" (Some "active") (Some file)))
            else if bool_decide (get check "state" = Some "Inactive") && negb file_state then
              Ok (Fallthrough (Triple "File" (Some "inactive") (Some file)))
            else Ok (Fallthrough Empty)
        end
    end
  else if bool_decide (tag check = "flagDependency") then
    let actual := flag_states_get (get check "flag") "" in
    if bool_decide (get check "value" ≠ Some actual)
    then Ok (Fallthrough (Triple "Flag" (get check "value") (Some actual)))
    else Ok (Fallthrough Empty)
  else if bool_decide (tag check = "dependencies") then
    _ ← recurse check;
    Ok (Fallthrough Empty)
  else Ok (Fallthrough Empty).

(** The [for] loop and the statement after it.  [missed_dep] is [None]
    while the local variable is unbound, which it is until the first
    iteration; [missed_dep_num] counts the checks that set it to a triple;
    [len_checks] is [len(checks)]. *)
Fixpoint check_loop (check1 : Element → result checked) (operator : string)
    (len_checks : nat) (checks : list Element)
    (missed_dep : option pytuple) (missed_dep_num : nat) : result () :=
  match checks with
  | check :: checks' =>
      c ← check1 check;
      match c with
      | Continue => check_loop check1 operator len_checks checks' (Some Empty) missed_dep_num
      | Fallthrough t =>
          let missed_dep_num' :=
            if truthy_tuple t then S missed_dep_num else missed_dep_num in
          if bool_decide (operator = "And") && truthy_tuple t
          then Raise (raise_MissingDependency t)
          else check_loop check1 operator len_checks checks' (Some t) missed_dep_num'
      end
  | [] =>
      if bool_decide (operator = "Or") && bool_decide (missed_dep_num = len_checks) then
        match missed_dep with
        | None => Raise UnboundLocalError
        | Some t => Raise (raise_MissingDependency t)
        end
      else Ok ()
  end.

(** [_assert_dependencies] on an element. *)
Fixpoint assert_element (depend : Element) : result () :=
  let operator := get_default depend "operator" "And" in
  let 'mkElement _ _ _ checks := depend in
  check_loop (check_dependency assert_element) operator (length checks)
             checks None 0.

(** [_assert_dependencies(depend, flag_states, dest, game_version)]. *)
Definition _assert_dependencies (depend : option Element) : result () :=
  match depend with
  | None => Ok ()
  | Some d => assert_element d
  end.

(** The outcome of one child of a composite: it is satisfied when the loop
    body ends without a triple in [missed_dep], and it fails with the
    information (type, expected, actual) when the body leaves that triple
    (a leaf) or the nested call raises it (a nested composite). *)
Definition satisfied (check : Element) : Prop :=
  check_dependency assert_element check = Ok Continue
  ∨ check_dependency assert_element check = Ok (Fallthrough Empty).

Definition fails_with (check : Element) (type_ expected actual : string) : Prop :=
  check_dependency assert_element check
    = Ok (Fallthrough (Triple type_ (Some expected) (Some actual)))
  ∨ check_dependency assert_element check
    = Raise (MissingDependency type_ expected actual).
End dependencies.

(** ** Collectors and ordered lists *)

(** The dictionary [file_dict] that [_collect_files] builds from a file list:
    priority, then source, then destination. *)
Definition collect_file_dict (file_list : option Element) : file_dict :=
  match file_list with
  | None => ∅
  | Some fl =>
      foldl (λ (file_dict : file_dict) item,
               let source := get item "source" in
               let dest := get_default item "destination" "" in
               let prio := get_default item "priority" "0" in
               let prio_dict := default ∅ (file_dict !! prio) in
               <[prio := <[source := dest]> prio_dict]> file_dict)
            ∅ (findall_star fl)
  end.

(** [_collect_files(file_list, collected_files)]: the dictionary goes to the
    front of the chain, also when it is empty. *)
Definition _collect_files (file_list : option Element)
    (collected_files : list file_dict) : list file_dict :=
  collect_file_dict file_list :: collected_files.

Definition collect_flag_dict (flag_list : option Element) : flag_dict :=
  match flag_list with
  | None => ∅
  | Some fl =>
      foldl (λ (flag_dict : flag_dict) flag,
               <[get flag "name" := or_empty (text flag)]> flag_dict)
            ∅ (findall_star fl)
  end.

(** [_collect_flags(flag_list, flag_states)]. *)
Definition _collect_flags (flag_list : option Element)
    (flag_states : list flag_dict) : list flag_dict :=
  collect_flag_dict flag_list :: flag_states.

(** [_explicit_list(root)]. *)
Definition _explicit_list (root : option Element) : list Element :=
  match root with
  | None => []
  | Some r => findall_star r
  end.

(** [_ordered_list(root)]: document order, or sorted by the [name]
    attribute, ascending or (for any other value of [order]) descending. *)
Definition _ordered_list (root : option Element) : list Element :=
  match root with
  | None => []
  | Some r =>
      let order := get_default r "order" "Ascending" in
      if bool_decide (order = "Explicit") then _explicit_list root
      else if bool_decide (order = "Ascending") then
        sorted (λ x y, ostr_lt (get x "name") (get y "name")) (findall_star r)
      else
        sorted (λ x y, ostr_lt (get y "name") (get x "name")) (findall_star r)
  end.

(** String order of the priorities, as [sorted(keys, reverse=True)] uses it. *)
Definition sorted_reverse (keys : list string) : list string :=
  sorted (λ x y, str_lt y x) keys.

(** The body of the [collected_files] property on the chain of file
    dictionaries: the priorities in descending order, one merged bucket per
    priority appended to a fresh [ChainMap], and [dict] of that chain. *)
Definition flatten_files (maps : list file_dict) : prio_dict :=
  let sorted_keys := sorted_reverse (ChainMap_keys maps) in
  let final := [∅] ++ omap (NestedChainMap_getitem maps) sorted_keys in
  dict_of (ChainMap_keys final) (ChainMap_getitem final).

(** The body of the [flag_states] property. *)
Definition flatten_flags (maps : list flag_dict) : flag_dict :=
  dict_of (ChainMap_keys maps) (ChainMap_getitem maps).

(** ** The installer: data *)

(** Values found in an answer dictionary. *)
Inductive pyval :=
  | VNone
  | VBool (b : bool)
  | VList (l : list string).

Definition truthy (v : pyval) : bool :=
  match v with
  | VNone => false
  | VBool b => b
  | VList l => bool_decide (l ≠ [])
  end.

(** [len(v)]. *)
Definition py_len (v : pyval) : result nat :=
  match v with
  | VList l => Ok (length l)
  | _ => Raise TypeError
  end.

(** The elements of [v] when it is iterated over. *)
Definition py_iter (v : pyval) : result (list string) :=
  match v with
  | VList l => Ok l
  | _ => Raise TypeError
  end.

(** An answer: group identifiers to lists of plugin identifiers, and
    possibly the key [previous_step]. *)
Abbreviation answer_dict := (gmap string pyval).

(** The dictionaries of a step handed to the caller. *)
Record plugin_dict := {
  plugin_id : string;
  plugin_name : option string;
  plugin_description : string;
  plugin_image : option string;
  plugin_type : option string
}.

Record group_dict := {
  group_name : option string;
  group_type : option string;
  group_id : string;
  group_plugins : list plugin_dict
}.

Record step_dict := {
  step_name : option string;
  step_groups : list group_dict
}.

#[global] Instance plugin_dict_eq_dec : EqDecision plugin_dict.
Proof. solve_decision. Defined.
#[global] Instance group_dict_eq_dec : EqDecision group_dict.
Proof. solve_decision. Defined.

(** The local variables of [_installer] that live across its [yield]s.
    [previous_index] is a Python list used as a stack: its last element is
    the top. *)
Record locals := {
  step_list : list Element;
  previous_index : list Z;
  index : Z
}.

(** Where the generator [_installer] is suspended. *)
Inductive frame :=
  | NotStarted
  | Primed
  | AtStep (l : locals) (id_dict : gmap string Element) (sd : step_dict)
  | AtAnswer (l : locals) (id_dict : gmap string Element) (sd : step_dict)
             (answer : option answer_dict)
  | Finished.

(** The installer object: its generator, its two chain maps, and the number
    of identifiers drawn so far from [uuid.uuid4]. *)
Record Installer := {
  gen : frame;
  _flag_states : list flag_dict;
  _collected_files : list file_dict;
  uuids : nat
}.

Definition set_gen (f : frame) (self : Installer) : Installer :=
  {| gen := f; _flag_states := _flag_states self;
     _collected_files := _collected_files self; uuids := uuids self |}.

Definition set_flag_states (m : list flag_dict) (self : Installer) : Installer :=
  {| gen := gen self; _flag_states := m;
     _collected_files := _collected_files self; uuids := uuids self |}.

Definition set_collected_files (m : list file_dict) (self : Installer) : Installer :=
  {| gen := gen self; _flag_states := _flag_states self;
     _collected_files := m; uuids := uuids self |}.

Definition set_uuids (n : nat) (self : Installer) : Installer :=
  {| gen := gen self; _flag_states := _flag_states self;
     _collected_files := _collected_files self; uuids := n |}.

(** The chain maps set up by [Installer.__init__]. *)
Definition Installer_init : Installer :=
  {| gen := NotStarted; _flag_states := [∅]; _collected_files := [∅]; uuids := 0 |}.

(** The property [flag_states]; reading it returns the installer as it was. *)
Definition flag_states (self : Installer) : flag_dict * Installer :=
  (flatten_flags (_flag_states self), self).

(** The property [collected_files]. *)
Definition collected_files (self : Installer) : prio_dict * Installer :=
  (flatten_files (_collected_files self), self).

(** Loops whose body may raise. *)
Fixpoint foldlM {A B} (f : B → A → result B) (b : B) (l : list A) : result B :=
  match l with
  | [] => Ok b
  | a :: l' => b' ← f b a; foldlM f b' l'
  end.

Fixpoint mapM' {A B} (f : A → result B) (l : list A) : result (list B) :=
  match l with
  | [] => Ok []
  | a :: l' => b ← f a; bs ← mapM' f l'; Ok (b :: bs)
  end.

(** [l.pop()]: the last element and the rest, [None] for [IndexError]. *)
Definition list_pop {A} (l : list A) : option (A * list A) :=
  match reverse l with
  | [] => None
  | x :: r => Some (x, reverse r)
  end.

Definition dquote : string := String (ascii_of_nat 34) EmptyString.

(** [prefix + '"' + name + '" ' + suffix], which raises when [name] is
    [None]. *)
Definition quoted (prefix : string) (name : option string) (suffix : string)
  : result string :=
  match name with
  | Some n => Ok (prefix +:+ dquote +:+ n +:+ dquote +:+ " " +:+ suffix)
  | None => Raise TypeError
  end.

(** ** The installer: building a step *)

Section installer.
Variable path_exists : string → string → bool.
(** The identifiers [str(uuid.uuid4())] returns, in the order drawn. *)
Variable uuid4 : nat → string.
(** The arguments of [_installer]: the configuration tree, the target
    directory and the game version. *)
Variable root : Element.
Variable dest : option string.
Variable game_version : option string.

(** [_assert_dependencies(depend, self._flag_states, dest, game_version)]. *)
Definition assert_on_chain (flags : list flag_dict) (depend : option Element)
  : result () :=
  _assert_dependencies path_exists (ChainMap_get flags) dest game_version depend.

(** The inner [while True] loop: [rest] holds the steps from position
    [index] on.  The result is the first visible step and its index, or
    [None] when indexing raises [IndexError]. *)
Fixpoint next_visible (flags : list flag_dict) (rest : list Element) (index : Z)
  : result (option (Z * Element)) :=
  match rest with
  | [] => Ok None
  | step :: rest' =>
      match assert_on_chain flags (find step "visible") with
      | Ok _ => Ok (Some (index, step))
      | Raise (MissingDependency _ _ _) => next_visible flags rest' (index + 1)
      | Raise e => Raise e
      end
  end.

(** The [for pattern in pattern_list] loop with its [else] branch. *)
Fixpoint type_from_patterns (flags : list flag_dict) (pattern_list : list Element)
    (default_type : option string) : result (option string) :=
  match pattern_list with
  | [] => Ok default_type
  | pattern :: pattern_list' =>
      match assert_on_chain flags (find pattern "dependencies") with
      | Ok _ =>
          match find pattern "type" with
          | Some t => Ok (get t "name")
          | None => Raise AttributeError
          end
      | Raise (MissingDependency _ _ _) =>
          type_from_patterns flags pattern_list' default_type
      | Raise e => Raise e
      end
  end.

(** The type of a plugin. *)
Definition resolve_type (flags : list flag_dict) (plugin : Element)
  : result (option string) :=
  match find plugin "typeDescriptor" with
  | None => Raise AttributeError
  | Some type_elem =>
      match find type_elem "type" with
      | Some plugin_type => Ok (get plugin_type "name")
      | None =>
          match find2 type_elem "dependencyType" "defaultType" with
          | None => Raise AttributeError
          | Some default_elem =>
              let default_type := get default_elem "name" in
              let patterns := find2 type_elem "dependencyType" "patterns" in
              let pattern_list := _explicit_list patterns in
              type_from_patterns flags pattern_list default_type
          end
      end
  end.

(** Plugin processing; [n] is the number of identifiers drawn so far. *)
Definition build_plugin (flags : list flag_dict) (n : nat) (plugin : Element)
  : result plugin_dict :=
  let id := uuid4 n in
  let name := get plugin "name" in
  let description := strip (findtext plugin "description" "") in
  let image :=
    match find plugin "image" with
    | Some image => get image "path"
    | None => Some ""
    end in
  type ← resolve_type flags plugin;
  Ok {| plugin_id := id; plugin_name := name; plugin_description := description;
        plugin_image := image; plugin_type := type |}.

(** Group processing. *)
Definition build_group (flags : list flag_dict)
    (acc : list group_dict * gmap string Element * nat) (group : Element)
  : result (list group_dict * gmap string Element * nat) :=
  let '(groups, id_dict, n) := acc in
  let id := uuid4 n in
  let plugins := _ordered_list (find group "plugins") in
  '(plugin_dicts, id_dict', n') ←
    foldlM (λ '(pds, idd, k) plugin,
              pd ← build_plugin flags k plugin;
              Ok (pds ++ [pd], <[plugin_id pd := plugin]> idd, S k))
           ([], id_dict, S n) plugins;
  Ok (groups ++ [{| group_name := get group "name";
                    group_type := get group "type";
                    group_id := id;
                    group_plugins := plugin_dicts |}],
      id_dict', n').

(** Step processing: the step dictionary, the identifier dictionary and
    the new count of identifiers. *)
Definition build_step (flags : list flag_dict) (n : nat) (step : Element)
  : result (step_dict * gmap string Element * nat) :=
  let groups := _ordered_list (find step "optionalFileGroups") in
  '(group_dicts, id_dict, n') ← foldlM (build_group flags) ([], ∅, n) groups;
  Ok ({| step_name := get step "name"; step_groups := group_dicts |},
      id_dict, n').

(** ** The installer: validating and sorting an answer *)

(** [from_id(dict_, type_, id_)]: the first entry with that identifier;
    [next] on the exhausted generator raises [StopIteration]. *)
Definition from_id {A} (id_of : A → string) (entries : list A) (id_ : string)
  : result A :=
  match list_find (λ a, id_of a = id_) entries with
  | Some (_, a) => Ok a
  | None => Raise StopIteration
  end.

(** [entries.index(elem)]. *)
Definition list_index `{EqDecision A} (entries : list A) (elem : A) : result nat :=
  match list_find (λ a, a = elem) entries with
  | Some (i, _) => Ok i
  | None => Raise (ValueError "not in list")
  end.

(** [id_sort(dict_, type_, id_)]. *)
Definition id_sort `{EqDecision A} (id_of : A → string) (entries : list A)
    (id_ : string) : result nat :=
  elem ← from_id id_of entries id_;
  list_index entries elem.

Definition count_error (group : group_dict) (suffix : string) : result () :=
  msg ← quoted "Group " (group_name group) suffix;
  Raise (ValueError msg).

(** The three count tests; [len] is evaluated only for the matching type. *)
Definition check_count (answer : answer_dict) (group : group_dict) : result () :=
  let selected := default (VList []) (answer !! group_id group) in
  if bool_decide (group_type group = Some "SelectExactlyOne") then
    n ← py_len selected;
    if bool_decide (n ≠ 1) then count_error group "requires exactly one choice."
    else Ok ()
  else if bool_decide (group_type group = Some "SelectAtMostOne") then
    n ← py_len selected;
    if bool_decide (1 < n) then count_error group "allows at most one choice."
    else Ok ()
  else if bool_decide (group_type group = Some "SelectAtLeastOne") then
    n ← py_len selected;
    if bool_decide (n < 1) then count_error group "requires at least one choice."
    else Ok ()
  else Ok ().

(** The test on the selected plugins of a group. *)
Definition check_usable (answer : answer_dict) (group : group_dict) : result () :=
  match answer !! group_id group with
  | None => Ok ()
  | Some v =>
      ids ← py_iter v;
      foldlM (λ _ id_,
                plugin ← from_id plugin_id (group_plugins group) id_;
                if bool_decide (plugin_type plugin = Some "NotUsable") then
                  msg ← quoted "" (plugin_name plugin) "cannot be selected.";
                  Raise (ValueError msg)
                else Ok ())
             () ids
  end.

(** [answer.setdefault(group_id, []).append(id)]. *)
Definition setdefault_append (answer : answer_dict) (key id_ : string)
  : result answer_dict :=
  match answer !! key with
  | None => Ok (<[key := VList [id_]]> answer)
  | Some (VList l) => Ok (<[key := VList (l ++ [id_])]> answer)
  | Some _ => Raise AttributeError
  end.

(** One iteration of [for group in step_dict['groups']]. *)
Definition validate_group (answer : answer_dict) (group : group_dict)
  : result answer_dict :=
  _ ← check_count answer group;
  _ ← check_usable answer group;
  let answer :=
    if bool_decide (group_type group = Some "SelectAll")
    then <[group_id group := VList (map plugin_id (group_plugins group))]> answer
    else answer in
  foldlM (λ answer plugin,
            if bool_decide (plugin_type plugin = Some "Required")
            then setdefault_append answer (group_id group) (plugin_id plugin)
            else Ok answer)
         answer (group_plugins group).

Definition validate (sd : step_dict) (answer : answer_dict) : result answer_dict :=
  foldlM validate_group answer (step_groups sd).

(** [sorted(entries, key=...)] once the keys are computed. *)
Definition sorted_by_key {A} (keyed : list (nat * A)) : list A :=
  (sorted (λ x y, bool_decide (x.1 < y.1)) keyed).*2.

(** One iteration of [for group_id in answer]: the identifiers without
    duplicates, in the order of the plugins in the group. *)
Definition sort_selection (sd : step_dict) (gid : string) (v : pyval)
  : result (list string) :=
  group ← from_id group_id (step_groups sd) gid;
  ids ← py_iter v;
  keyed ← mapM' (λ x, k ← id_sort plugin_id (group_plugins group) x; Ok (k, x))
                (remove_dups ids);
  Ok (sorted_by_key keyed).

(** The second loop and the [OrderedDict]: the groups of the answer in the
    order of the step. *)
Definition normalize (sd : step_dict) (answer : answer_dict)
  : result (list (string * list string)) :=
  items ← mapM' (λ '(gid, v), ids ← sort_selection sd gid v; Ok (gid, ids))
                (map_to_list answer);
  keyed ← mapM' (λ item, k ← id_sort group_id (step_groups sd) item.1; Ok (k, item))
                items;
  Ok (sorted_by_key keyed).

(** The files and flags of the selected plugins, collected in two local
    chains. *)
Definition collect_step (id_dict : gmap string Element)
    (answer : list (string * list string))
  : result (list file_dict * list flag_dict) :=
  foldlM (λ chains plugin_ids,
            foldlM (λ '(step_file_chain, step_flag_chain) id_,
                      match id_dict !! id_ with
                      | None => Raise KeyError
                      | Some plugin =>
                          Ok (_collect_files (find plugin "files") step_file_chain,
                              _collect_flags (find plugin "conditionFlags") step_flag_chain)
                      end)
                   chains plugin_ids)
         ([∅], [∅]) answer.*2.

(** Everything between [previous_index.append(index)] and the two
    [insert]s: the new file layer and the new flag layer. *)
Definition answer_layers (sd : step_dict) (id_dict : gmap string Element)
    (answer : answer_dict) : result (file_dict * flag_dict) :=
  answer ← validate sd answer;
  answer ← normalize sd answer;
  '(step_file_chain, step_flag_chain) ← collect_step id_dict answer;
  Ok (dict_of (ChainMap_keys step_file_chain) (NestedChainMap_getitem step_file_chain),
      dict_of (ChainMap_keys step_flag_chain) (ChainMap_getitem step_flag_chain)).

(** ** The installer: the generator *)

(** What a call of [send] or [next] gives back together with the installer
    it leaves: the yielded value ([None] for a bare [yield]) or the
    exception raised.  A generator that returns raises [StopIteration]; a
    generator that raised is finished. *)
Definition outcome : Type := result (option step_dict) * Installer.

(** The [conditionalFileInstalls] loop, from the end of the step loop to
    the end of the generator.  The layers pushed before an exception stay
    in the chain. *)
Fixpoint conditional_installs (self : Installer) (pattern_list : list Element)
  : outcome :=
  match pattern_list with
  | [] => (Raise StopIteration, set_gen Finished self)
  | pattern :: pattern_list' =>
      match assert_on_chain (_flag_states self) (find pattern "dependencies") with
      | Ok _ =>
          conditional_installs
            (set_collected_files
               (_collect_files (find pattern "files") (_collected_files self)) self)
            pattern_list'
      | Raise (MissingDependency _ _ _) => conditional_installs self pattern_list'
      | Raise e => (Raise e, set_gen Finished self)
      end
  end.

(** From the top of the outer [while True] loop to the next suspension:
    the next visible step is built and yielded, or the steps are over and
    the generator runs to its end. *)
Definition advance (self : Installer) (l : locals) : outcome :=
  match next_visible (_flag_states self)
                     (drop (Z.to_nat (index l + 1)) (step_list l))
                     (index l + 1) with
  | Raise e => (Raise e, set_gen Finished self)
  | Ok None =>
      conditional_installs self
        (_explicit_list (find2 root "conditionalFileInstalls" "patterns"))
  | Ok (Some (index', step)) =>
      match build_step (_flag_states self) (uuids self) step with
      | Raise e => (Raise e, set_gen Finished self)
      | Ok (sd, id_dict, n) =>
          let l' := {| step_list := step_list l;
                       previous_index := previous_index l;
                       index := index' |} in
          (Ok (Some sd), set_gen (AtStep l' id_dict sd) (set_uuids n self))
      end
  end.

(** The two guarded [pop(0)] of a request for the previous step. *)
Definition pop_layers (self : Installer) : Installer :=
  let self :=
    if bool_decide (1 < length (_flag_states self))
    then set_flag_states (tail (_flag_states self)) self
    else self in
  if bool_decide (2 < length (_collected_files self))
  then set_collected_files (tail (_collected_files self)) self
  else self.

(** The branch taken for a request for the previous step: the index goes
    back to the one on top of [previous_index], less one, or to [-1] when
    the stack is empty; the latest layers are popped; the loop continues. *)
Definition go_back (self : Installer) (l : locals) : outcome :=
  let '(index', previous_index') :=
    match list_pop (previous_index l) with
    | Some (i, rest) => ((i - 1)%Z, rest)
    | None => ((-1)%Z, previous_index l)
    end in
  advance (pop_layers self)
          {| step_list := step_list l;
             previous_index := previous_index';
             index := index' |}.

(** The rest of the loop body for an answer: the index is recorded, the
    answer is validated and sorted, and the layers of the selected plugins
    are pushed on the two chains. *)
Definition go_forward (self : Installer) (l : locals)
    (id_dict : gmap string Element) (sd : step_dict) (answer : answer_dict)
  : outcome :=
  let l' := {| step_list := step_list l;
               previous_index := previous_index l ++ [index l];
               index := index l |} in
  match answer_layers sd id_dict answer with
  | Raise e => (Raise e, set_gen Finished self)
  | Ok (file_layer, flag_layer) =>
      advance (set_flag_states (flag_layer :: _flag_states self)
                 (set_collected_files (file_layer :: _collected_files self)
                    self))
              l'
  end.

(** From the second [yield] of an iteration to the next suspension.
    [answer.pop('previous_step', False)] removes the key and its value
    decides between the two branches. *)
Definition process_answer (self : Installer) (l : locals)
    (id_dict : gmap string Element) (sd : step_dict)
    (answer : option answer_dict) : outcome :=
  match answer with
  | None => (Raise AttributeError, set_gen Finished self)
  | Some answer =>
      let previous_step := default (VBool false) (answer !! "previous_step") in
      let answer := delete "previous_step" answer in
      if truthy previous_step then go_back self l
      else go_forward self l id_dict sd answer
  end.

(** [self.gen.send(value)]; [next(self.gen)] is [send None]. *)
Definition send (self : Installer) (value : option answer_dict) : outcome :=
  match gen self with
  | NotStarted =>
      match value with
      | Some _ => (Raise TypeError, self)
      | None =>
          let flag_states := (flag_states self).1 in
          match _assert_dependencies path_exists
                  (λ key dflt, default dflt (flag_states !! key))
                  dest game_version (find root "moduleDependencies") with
          | Raise e => (Raise e, set_gen Finished self)
          | Ok _ =>
              (Ok None,
               set_gen Primed
                 (set_collected_files
                    (_collect_files (find root "requiredInstallFiles")
                                    (_collected_files self)) self))
          end
      end
  | Primed =>
      advance self {| step_list := _ordered_list (find root "installSteps");
                      previous_index := [0%Z];
                      index := (-1)%Z |}
  | AtStep l id_dict sd => (Ok None, set_gen (AtAnswer l id_dict sd value) self)
  | AtAnswer l id_dict sd answer => process_answer self l id_dict sd answer
  | Finished => (Raise StopIteration, self)
  end.

Definition next (self : Installer) : outcome := send self None.

(** The installers a caller can obtain: a fresh one, and whatever [send]
    leaves, whatever is sent. *)
Inductive reachable : Installer → Prop :=
  | reachable_init : reachable Installer_init
  | reachable_send self value :
      reachable self → reachable (send self value).2.
End installer.

(** ** Sample configurations *)

Module Samples.
Definition elem (t : string) (attrs : list (string * string))
    (cs : list Element) : Element :=
  mkElement t attrs None cs.

Definition flagDependency (flag value : string) : Element :=
  elem "flagDependency" [("flag", flag); ("value", value)] [].

Definition gameDependency (version : string) : Element :=
  elem "gameDependency" [("version", version)] [].

(** A check that raises when it is evaluated with a game version: its
    [version] attribute is missing. *)
Definition broken_check : Element := elem "gameDependency" [] [].

(** No flag is set. *)
Definition no_flags : option string → string → string := λ _ dflt, dflt.

Definition no_files : string → string → bool := λ _ _, false.

(** An [And] composite: a met flag, an unmet flag, a broken check. *)
Definition and_sample : Element :=
  elem "dependencies" [("operator", "And")]
    [flagDependency "b" ""; flagDependency "a" "on"; broken_check].


(** An [Or] composite without children. *)
Definition or_empty : Element := elem "dependencies" [("operator", "Or")] [].
End Samples.

Module FileSamples.
(** One layer per bucket: two sources for one destination under the
    priorities 5 and 1, and one source under the priorities 10 and 5. *)
Definition five_a : file_dict := {[ "5" := {[ Some "a.txt" := "data/x" ]} ]}.
Definition one_b : file_dict := {[ "1" := {[ Some "b.txt" := "data/x" ]} ]}.
Definition ten : file_dict := {[ "10" := {[ Some "a.txt" := "data/ten" ]} ]}.
Definition five : file_dict := {[ "5" := {[ Some "a.txt" := "data/five" ]} ]}.
Definition one : file_dict := {[ "1" := {[ Some "a.txt" := "data/one" ]} ]}.
End FileSamples.

(** ** Invariants of the installer *)

(** Every entry of a file layer is the source, the destination and the
    priority of one item of a file list. *)
Definition entries_from_items (layer : file_dict) : Prop :=
  ∀ p bucket s d,
    layer !! p = Some bucket → bucket !! s = Some d →
    ∃ item, get item "source" = s
            ∧ get_default item "destination" "" = d
            ∧ get_default item "priority" "0" = p.

(** The layer of the required files. *)
Definition required_layer (root : Element) : file_dict :=
  collect_file_dict (find root "requiredInstallFiles").

(** The shape of the two chains: the flag chain ends with the initial
    dictionary; once the generator is primed the file chain ends with the
    required-files layer and the initial dictionary, under as many layers
    as the flag chain has over its base.  A generator that finished has
    kept these base layers, or never had the required-files layer because
    priming failed. *)
Definition stores_ok (root : Element) (self : Installer) : Prop :=
  match gen self with
  | NotStarted => _flag_states self = [∅] ∧ _collected_files self = [∅]
  | Finished =>
      ∃ fl fi, _flag_states self = fl ++ [∅]
               ∧ (_collected_files self = fi ++ [required_layer root; ∅]
                  ∨ _collected_files self = [∅])
  | _ =>
      ∃ fl fi, _flag_states self = fl ++ [∅]
               ∧ _collected_files self = fi ++ [required_layer root; ∅]
               ∧ length fl = length fi
  end.

(** The shape of the chains of a primed generator. *)
Definition primed_shape (root : Element)
    (flags : list flag_dict) (files : list file_dict) : Prop :=
  ∃ fl fi, flags = fl ++ [∅]
           ∧ files = fi ++ [required_layer root; ∅]
           ∧ length fl = length fi.

(** What holds of every installer a caller can obtain. *)
Definition installer_ok (root : Element) (self : Installer) : Prop :=
  stores_ok root self ∧ Forall entries_from_items (_collected_files self).

(** ** The end-to-end sample *)

Module Scenario.
Import Samples.

(** A plugin with one file. *)
Definition plugin (name source destination : string) : Element :=
  elem "plugin" [("name", name)]
    [ elem "description" [] [];
      elem "files" [] [elem "file" [("source", source); ("destination", destination)] []];
      elem "typeDescriptor" [] [elem "type" [("name", "Optional")] []] ].

(** One step with one [SelectExactlyOne] group of two plugins. *)
Definition config : Element :=
  elem "config" []
    [ elem "moduleName" [] [];
      elem "installSteps" [("order", "Explicit")]
        [ elem "installStep" [("name", "Step")]
            [ elem "optionalFileGroups" [("order", "Explicit")]
                [ elem "group" [("name", "G"); ("type", "SelectExactlyOne")]
                    [ elem "plugins" [("order", "Explicit")]
                        [ plugin "A" "a.txt" "data/a.txt";
                          plugin "B" "b.txt" "data/b.txt" ] ] ] ] ] ].

(** Identifiers that differ from one draw to the next. *)
Definition numbered (n : nat) : string :=
  "id" +:+ String (ascii_of_nat (48 + n)) EmptyString.

Definition send' := send no_files numbered config None None.

(** The installer after priming and after the step was yielded. *)
Definition primed : Installer := (send' Installer_init None).2.
Definition at_step : Installer := (send' primed None).2.

(** The caller selects plugin B, then asks for the next step. *)
Definition select_b : answer_dict := {[ numbered 0 := VList [numbered 2] ]}.
Definition answered : Installer := (send' at_step (Some select_b)).2.
Definition final : Installer := (send' answered None).2.

(** The caller asks for the previous step instead. *)
Definition back : answer_dict := {[ "previous_step" := VBool true ]}.
Definition asked_back : Installer := (send' at_step (Some back)).2.

(** The caller selects plugin B and binds [previous_step] to [False]. *)
Definition select_b_false : answer_dict :=
  <[ "previous_step" := VBool false ]> select_b.
Definition answered_false : Installer := (send' at_step (Some select_b_false)).2.
End Scenario.

(** ** Answers and what validation checks *)

(** The identifiers the caller selected for a group:
    [answer.get(group_id, [])]. *)
Definition selection (answer : answer_dict) (group : group_dict) : pyval :=
  default (VList []) (answer !! group_id group).

(** The count of selected identifiers breaks the kind of the group. *)
Definition count_violated (answer : answer_dict) (group : group_dict) : Prop :=
  ∃ l, selection answer group = VList l
       ∧ (group_type group = Some "SelectExactlyOne" ∧ length l ≠ 1
          ∨ group_type group = Some "SelectAtMostOne" ∧ 1 < length l
          ∨ group_type group = Some "SelectAtLeastOne" ∧ length l < 1).

(** The caller selected a plugin of the group whose type is [NotUsable]. *)
Definition selects_not_usable (answer : answer_dict) (group : group_dict) : Prop :=
  ∃ l id_ plugin,
    answer !! group_id group = Some (VList l) ∧ id_ ∈ l
    ∧ from_id plugin_id (group_plugins group) id_ = Ok plugin
    ∧ plugin_type plugin = Some "NotUsable".

(** The entry of a group in an answer, when there is one, is a list of
    identifiers of plugins of that group. *)
Definition entry_known (answer : answer_dict) (group : group_dict) : Prop :=
  ∀ v, answer !! group_id group = Some v →
       ∃ l, v = VList l
            ∧ ∀ id_, id_ ∈ l → ∃ p, p ∈ group_plugins group ∧ plugin_id p = id_.

(** The groups and plugins of a step have names. *)
Definition named (group : group_dict) : Prop :=
  group_name group ≠ None
  ∧ ∀ p, p ∈ group_plugins group → plugin_name p ≠ None.

(** An answer a caller builds from the step it was handed: the groups have
    distinct identifiers and names, and the answer maps identifiers of
    groups of the step to lists of identifiers of their plugins. *)
Definition answer_well_formed (sd : step_dict) (answer : answer_dict) : Prop :=
  NoDup (map group_id (step_groups sd))
  ∧ (∀ group, group ∈ step_groups sd → named group ∧ entry_known answer group)
  ∧ (∀ key, is_Some (answer !! key) → key ∈ map group_id (step_groups sd)).

Module ValidationSamples.
Definition option_a : plugin_dict :=
  {| plugin_id := "a"; plugin_name := Some "A"; plugin_description := "";
     plugin_image := Some ""; plugin_type := Some "Optional" |}.
Definition required_b : plugin_dict :=
  {| plugin_id := "b"; plugin_name := Some "B"; plugin_description := "";
     plugin_image := Some ""; plugin_type := Some "Required" |}.

(** An exactly-one group that holds a required plugin. *)
Definition one_of : group_dict :=
  {| group_name := Some "G"; group_type := Some "SelectExactlyOne";
     group_id := "g"; group_plugins := [option_a; required_b] |}.
Definition one_step : step_dict :=
  {| step_name := Some "Step"; step_groups := [one_of] |}.

(** The caller selects the optional plugin only. *)
Definition only_a : answer_dict := {[ "g" := VList ["a"] ]}.
End ValidationSamples.

(** ** Further notions for the collectors *)

(** [flag.text or '']. *)
Definition text_or_empty (flag : Element) : string := or_empty (text flag).

(** ** Further notions for the dependency check *)

Section quiet_checks.
Variable path_exists : string → string → bool.
Variable flag_states_get : option string → string → string.
Variable dest : option string.
Variable game_version : option string.

(** A check is quiet when its evaluation raises nothing: it ends by
    [continue] or falls through, with or without a triple. *)
Definition quiet (check : Element) : Prop :=
  is_ok (check_dependency path_exists flag_states_get dest game_version
           (assert_element path_exists flag_states_get dest game_version) check)
  = true.

(** A quiet check that leaves a triple in [missed_dep]. *)
Definition misses (check : Element) (t : pytuple) : Prop :=
  truthy_tuple t = true
  ∧ check_dependency path_exists flag_states_get dest game_version
      (assert_element path_exists flag_states_get dest game_version) check
    = Ok (Fallthrough t).
End quiet_checks.

(** The game version [game] meets the required version [required]:
    [LooseVersion(game) < LooseVersion(required)] is false. *)
Definition meets (game required : string) : Prop :=
  LooseVersion_lt (LooseVersion (Some game)) (LooseVersion (Some required))
  = Ok false.

Module MoreSamples.
Import Samples.

(** An [Or] of two flag checks, the first unmet, the second met. *)
Definition or_leaves : Element :=
  elem "dependencies" [("operator", "Or")]
    [flagDependency "a" "1"; flagDependency "b" ""].

(** An [Or] of two unmet flag checks. *)
Definition or_failing : Element :=
  elem "dependencies" [("operator", "Or")]
    [flagDependency "a" "1"; flagDependency "c" "2"].

(** A misspelt operator over an unmet flag check. *)
Definition xor_failing : Element :=
  elem "dependencies" [("operator", "Xor")] [flagDependency "a" "1"].

Definition fileDependency (file state : string) : Element :=
  elem "fileDependency" [("file", file); ("state", state)] [].

(** A met flag check followed by a game check without [version]. *)
Definition and_sample_broken : Element :=
  elem "dependencies" [] [flagDependency "b" ""; broken_check].

(** Game and file checks only. *)
Definition game_and_file : Element :=
  elem "dependencies" []
    [gameDependency "9.9"; fileDependency "Some.esp" "Active"].
End MoreSamples.

(** ** Further notions for ordered lists *)

(** The names of two elements are in ascending order, [None] first. *)
Definition name_le (a b : Element) : Prop :=
  ostr_lt (get b "name") (get a "name") = false.

Module OrderSamples.
Import Samples.

Definition named_elem (name mark : string) : Element :=
  elem "plugin" [("name", name); ("mark", mark)] [].

(** Three plugins to be listed in descending order; two share a name. *)
Definition descending_plugins : Element :=
  elem "plugins" [("order", "Descending")]
    [named_elem "A" "first"; named_elem "B" "x"; named_elem "A" "second"].
End OrderSamples.

(** ** Further notions for the installer *)

Section frames.
Variable path_exists : string → string → bool.
Variable uuid4 : nat → string.
Variable dest : option string.
Variable game_version : option string.

(** The step can be built on the flag chain: step processing raises
    nothing, for some count of identifiers drawn. *)
Definition buildable (flags : list flag_dict) (step : Element) : Prop :=
  ∃ n r, build_step path_exists uuid4 dest game_version flags n step = Ok r.

(** What holds of the local variables of a generator suspended at a step:
    the index and the recorded indices are not negative, and the index
    points in the step list at a step that is visible and buildable on the
    current flag chain and whose name is the one handed to the caller. *)
Definition frame_ok (self : Installer) : Prop :=
  match gen self with
  | AtStep l _ sd | AtAnswer l _ sd _ =>
      (0 ≤ index l)%Z
      ∧ Forall (λ i, (0 ≤ i)%Z) (previous_index l)
      ∧ ∃ step, step_list l !! Z.to_nat (index l) = Some step
                ∧ assert_on_chain path_exists dest game_version
                    (_flag_states self) (find step "visible") = Ok ()
                ∧ step_name sd = get step "name"
                ∧ buildable (_flag_states self) step
  | _ => True
  end.
End frames.

(** The identifiers of a group and of a step, in the order in which step
    processing draws them: the one of a group, then those of its plugins. *)
Definition group_ids (group : group_dict) : list string :=
  group_id group :: (plugin_id <$> group_plugins group).

Definition step_ids (sd : step_dict) : list string :=
  concat (group_ids <$> step_groups sd).

(** The selection of a group in the order of its plugins, each selected
    plugin once. *)
Definition selected_plugins (group : group_dict) (l : list string) : list string :=
  plugin_id <$> filter (λ p, plugin_id p ∈ l) (group_plugins group).

(** An answer in the order of the step: the groups that have an entry, in
    the order of the step, each with its selection in the order of its
    plugins. *)
Definition selected_in_order (sd : step_dict) (answer : answer_dict)
  : list (string * list string) :=
  omap (λ group,
          match answer !! group_id group with
          | Some (VList l) => Some (group_id group, selected_plugins group l)
          | _ => None
          end)
       (step_groups sd).

(** The entries [f] keeps, each with its position in the list, counted
    from [a]. *)
Fixpoint indexed_omap {A B} (f : A → option B) (a : nat) (l : list A)
  : list (nat * B) :=
  match l with
  | [] => []
  | x :: l' =>
      match f x with
      | Some y => (a, y) :: indexed_omap f (S a) l'
      | None => indexed_omap f (S a) l'
      end
  end.

(** The file dictionary and the flag dictionary of a plugin element. *)
Definition plugin_files (plugin : Element) : file_dict :=
  collect_file_dict (find plugin "files").

Definition plugin_flags (plugin : Element) : flag_dict :=
  collect_flag_dict (find plugin "conditionFlags").

Section met_patterns.
Variable path_exists : string → string → bool.
Variable dest : option string.
Variable game_version : option string.

(** The dependencies of a pattern are met on the flag chain. *)
Definition met (flags : list flag_dict) (pattern : Element) : bool :=
  is_ok (assert_on_chain path_exists dest game_version flags
           (find pattern "dependencies")).

(** The file dictionaries of the patterns whose dependencies are met, in
    the order of the patterns. *)
Definition met_layers (flags : list flag_dict) (pattern_list : list Element)
  : list file_dict :=
  (λ pattern, collect_file_dict (find pattern "files"))
    <$> filter (λ pattern, met flags pattern = true) pattern_list.
End met_patterns.

(** The step a suspended generator has handed out. *)
Definition current_step (self : Installer) : option step_dict :=
  match gen self with
  | AtStep _ _ sd | AtAnswer _ _ sd _ => Some sd
  | _ => None
  end.

Section calls.
Variable path_exists : string → string → bool.
Variable uuid4 : nat → string.
Variable root : Element.
Variable dest : option string.
Variable game_version : option string.

(** The installer left by a sequence of calls of [send]. *)
Definition sends (self : Installer) (values : list (option answer_dict))
  : Installer :=
  foldl (λ self value,
           (send path_exists uuid4 root dest game_version self value).2)
        self values.

(** The identifiers of the step were drawn before the count reached
    [n]. *)
Definition drawn_below (n : nat) (sd : step_dict) : Prop :=
  ∃ m, m + length (step_ids sd) ≤ n
       ∧ step_ids sd = uuid4 <$> seq m (length (step_ids sd)).
End calls.

Module SortSamples.
(** The caller names the required plugin twice and before the optional
    one. *)
Definition b_a_b : answer_dict := {[ "g" := VList ["b"; "a"; "b"] ]}.

(** A plugin element that sets the flag F. *)
Definition sets_f (name value : string) : Element :=
  mkElement "plugin" [("name", name)] None
    [ mkElement "conditionFlags" [] None
        [ mkElement "flag" [("name", "F")] (Some value) [] ] ].

(** The elements behind the two plugins of the sample step. *)
Definition sample_elements : gmap string Element :=
  {[ "a" := sets_f "A" "1"; "b" := sets_f "B" "2" ]}.
End SortSamples.

Module EngineSamples.
Import Samples.

(** A configuration that requires the game version 1.5. *)
Definition needs_version : Element :=
  elem "config" []
    [ elem "moduleDependencies" [] [gameDependency "1.5"];
      elem "installSteps" [("order", "Explicit")]
        [ elem "installStep" [("name", "Step")] [] ] ].

(** Two steps; the first is visible only when the flag UseX is yes. *)
Definition guarded_steps : list Element :=
  [ elem "installStep" [("name", "X")]
      [ elem "visible" [] [flagDependency "UseX" "yes"] ];
    elem "installStep" [("name", "Always")] [] ].

(** A step that offers one plugin. *)
Definition choice_step : Element :=
  elem "installStep" [("name", "First")]
    [ elem "optionalFileGroups" [("order", "Explicit")]
        [ elem "group" [("name", "G"); ("type", "SelectAny")]
            [ elem "plugins" [("order", "Explicit")]
                [ Scenario.plugin "A" "a.txt" "data/a.txt" ] ] ] ].

(** Two steps; the first offers one plugin, the second nothing. *)
Definition two_steps : Element :=
  elem "config" []
    [ elem "installSteps" [("order", "Explicit")]
        [ choice_step; elem "installStep" [("name", "Second")] [] ] ].

(** Identifiers that never repeat: the count of draws in unary. *)
Fixpoint unary (n : nat) : string :=
  match n with
  | 0 => "0"
  | S n => String "1" (unary n)
  end.

(** Two patterns of conditional installs; the flag UseX is not set. *)
Definition install_patterns : list Element :=
  [ elem "pattern" []
      [ elem "dependencies" [] [flagDependency "UseX" "yes"];
        elem "files" []
          [ elem "file" [("source", "x.esp"); ("destination", "data/x.esp")] [] ] ];
    elem "pattern" []
      [ elem "dependencies" [] [flagDependency "UseX" ""];
        elem "files" []
          [ elem "file" [("source", "y.esp"); ("destination", "data/y.esp")] [] ] ] ].

Definition send2 := send no_files Scenario.numbered two_steps None None.

(** The first step is yielded, plugin A is selected, the second step is
    yielded. *)
Definition first_step : Installer :=
  (send2 (send2 Installer_init None).2 None).2.
Definition select_a : answer_dict :=
  {[ Scenario.numbered 0 := VList [Scenario.numbered 1] ]}.
Definition first_answered : Installer := (send2 first_step (Some select_a)).2.
Definition second_step : Installer := (send2 first_answered None).2.

(** A plugin whose type depends on the flag UseX. *)
Definition typed_patterns : list Element :=
  [ elem "pattern" []
      [ elem "dependencies" [] [flagDependency "UseX" "yes"];
        elem "type" [("name", "Required")] [] ];
    elem "pattern" []
      [ elem "dependencies" [] [flagDependency "UseX" ""];
        elem "type" [("name", "Recommended")] [] ] ].

(** The first of the two steps is handed out, under identifiers that never
    repeat. *)
Definition first_step_unary : Installer :=
  (send no_files unary two_steps None None
     (send no_files unary two_steps None None Installer_init None).2 None).2.
End EngineSamples.

(** ** Further samples for the dependency check *)

Module OrSamples.
Import Samples.


End OrSamples.

(** ** The steps behind the recorded indices *)

Section trails.
Variable path_exists : string → string → bool.
Variable uuid4 : nat → string.
Variable dest : option string.
Variable game_version : option string.

(** The step at index [i] can be handed out on the flag chain: it is
    there, its visibility check raises nothing and step processing raises
    nothing. *)
Definition shown (steps : list Element) (flags : list flag_dict) (i : Z) : Prop :=
  (0 ≤ i)%Z
  ∧ ∃ step, steps !! Z.to_nat i = Some step
            ∧ assert_on_chain path_exists dest game_version flags
                (find step "visible") = Ok ()
            ∧ buildable path_exists uuid4 dest game_version flags step.

(** The steps from position [start] up to position [start + k], that one
    left out, are skipped on the flag chain: their visibility check raises
    [MissingDependency]. *)
Definition skipped (steps : list Element) (flags : list flag_dict)
    (start k : nat) : Prop :=
  ∀ j s, j < k → steps !! (start + j) = Some s →
    ∃ ty ex ac, assert_on_chain path_exists dest game_version flags
                  (find s "visible")
                = Raise (MissingDependency ty ex ac).

(** The trail of a suspended generator: the index of the step handed out
    and, under it, the indices recorded by the answers whose layers are on
    the flag chain, latest first.  Each index was found on the chain as
    it stood then, which is the chain without the layers pushed since; the
    indices go down; the oldest one is that of the first step that can be
    shown on the base layer alone. *)
Inductive trail (steps : list Element) : list flag_dict → list Z → Prop :=
  | trail_first base i :
      shown steps [base] i →
      skipped steps [base] 0 (Z.to_nat i) →
      trail steps [base] [i]
  | trail_next layer flags i i2 rest :
      shown steps (layer :: flags) i →
      (i2 < i)%Z →
      trail steps flags (i2 :: rest) →
      trail steps (layer :: flags) (i :: i2 :: rest).

(** What holds of the recorded indices of every installer a caller can
    obtain: under the indices recorded by the answers there is at most the
    initial [0], and the recorded indices with the current one form a
    trail on the flag chain. *)
Definition trail_ok (self : Installer) : Prop :=
  match gen self with
  | Primed => _flag_states self = [∅]
  | AtStep l _ _ | AtAnswer l _ _ _ =>
      ∃ bottom idxs,
        previous_index l = bottom ++ idxs
        ∧ (bottom = [0%Z] ∨ bottom = [])
        ∧ trail (step_list l) (_flag_states self) (index l :: reverse idxs)
  | _ => True
  end.
End trails.

(** ** Further samples for the request for the previous step *)

Module BackSamples.
Import Samples EngineSamples.

(** The second of the two steps was handed out and the caller asks for the
    previous step. *)
Definition asked_back_second : Installer :=
  (send2 second_step (Some Scenario.back)).2.

(** A request for the previous step that also selects plugin B. *)
Definition back_with_b : answer_dict :=
  <[ "previous_step" := VBool true ]> Scenario.select_b.
End BackSamples.

(** ** The file items of a configuration *)

(** The plugin elements of a configuration: the plugins of the groups of
    its install steps. *)
Definition config_plugin (root plugin : Element) : Prop :=
  ∃ step group,
    step ∈ _ordered_list (find root "installSteps")
    ∧ group ∈ _ordered_list (find step "optionalFileGroups")
    ∧ plugin ∈ _ordered_list (find group "plugins").

(** The items of a file list: its child elements. *)
Definition listed (file_list : option Element) (item : Element) : Prop :=
  ∃ fl, file_list = Some fl ∧ item ∈ children fl.

(** The file items of a configuration: those of its required files, of
    its plugins and of the patterns of its conditional installs. *)
Definition config_item (root item : Element) : Prop :=
  listed (find root "requiredInstallFiles") item
  ∨ (∃ plugin, config_plugin root plugin ∧ listed (find plugin "files") item)
  ∨ (∃ pattern,
       pattern ∈ _explicit_list (find2 root "conditionalFileInstalls" "patterns")
       ∧ listed (find pattern "files") item).

(** The plugins behind the identifiers of a step. *)
Definition plugin_files_of (id_dict : gmap string Element) (item : Element)
  : Prop :=
  ∃ id_ plugin, id_dict !! id_ = Some plugin ∧ listed (find plugin "files") item.

(** Every entry of a file layer is the source, the destination and the
    priority of one of the given items. *)
Definition entries_from (items : Element → Prop) (layer : file_dict) : Prop :=
  ∀ p bucket s d,
    layer !! p = Some bucket → bucket !! s = Some d →
    ∃ item, items item
            ∧ get item "source" = s
            ∧ get_default item "destination" "" = d
            ∧ get_default item "priority" "0" = p.

(** What holds of the files of every installer a caller can obtain: the
    layers hold entries of file items of the configuration only, the steps
    are those of the configuration and the identifier dictionary holds
    plugins of the configuration. *)
Definition files_ok (root : Element) (self : Installer) : Prop :=
  Forall (entries_from (config_item root)) (_collected_files self)
  ∧ match gen self with
    | AtStep l id_dict _ | AtAnswer l id_dict _ _ =>
        step_list l = _ordered_list (find root "installSteps")
        ∧ ∀ id_ plugin, id_dict !! id_ = Some plugin → config_plugin root plugin
    | _ => True
    end.

(** ** The [collected_files] property on a store of objects

    In Python the dictionaries and lists of the installer are objects:
    [update], item assignment and [append] write in place, and a
    dictionary that is a value of another one is shared, not copied.  Here
    the property is run on a store of such objects, so that what it writes
    can be told from what it reads. *)

(** A value held by a dictionary or a list: a string, or a reference to an
    object of the store. *)
Inductive value :=
  | VStr (s : string)
  | VRef (a : nat).

(** An object of the store.  Keys are strings or [None], as for the file
    dictionaries of the installer. *)
Inductive obj :=
  | ODict (d : gmap (option string) value)
  | OList (l : list value).

(** The store: the objects in the order of their creation; the address of
    an object is its position. *)
Abbreviation heap := (list obj).

(** A new object. *)
Definition alloc (o : obj) (h : heap) : nat * heap := (length h, h ++ [o]).

(** Reading a value as a dictionary; a value of another kind raises. *)
Definition read_dict (v : value) (h : heap)
  : result (gmap (option string) value) :=
  match v with
  | VRef a =>
      match h !! a with
      | Some (ODict d) => Ok d
      | _ => Raise TypeError
      end
  | VStr _ => Raise TypeError
  end.

Definition read_list (a : nat) (h : heap) : result (list value) :=
  match h !! a with
  | Some (OList l) => Ok l
  | _ => Raise TypeError
  end.

(** [isinstance(v, dict)]. *)
Definition is_dict (v : value) (h : heap) : bool :=
  match v with
  | VRef a => match h !! a with Some (ODict _) => true | _ => false end
  | VStr _ => false
  end.

(** [target.update(source)]: the entries of [source] are written into the
    object [target]. *)
Definition dict_update (target : nat) (source : value) (h : heap) : result heap :=
  s ← read_dict source h;
  t ← read_dict (VRef target) h;
  Ok (<[target := ODict (s ∪ t)]> h).

(** [target[key] = v]. *)
Definition dict_setitem (target : nat) (key : option string) (v : value)
    (h : heap) : result heap :=
  t ← read_dict (VRef target) h;
  Ok (<[target := ODict (<[key := v]> t)]> h).

(** [l.append(v)]. *)
Definition list_append (a : nat) (v : value) (h : heap) : result heap :=
  l ← read_list a h;
  Ok (<[a := OList (l ++ [v])]> h).

(** [ChainMap.__iter__] on the chain map whose [maps] list is at [maps]:
    a new dictionary [d], updated with the maps back to front.  The result
    is the address of [d]. *)
Definition h_iter (maps : nat) (h : heap) : result (nat * heap) :=
  ms ← read_list maps h;
  let '(d, h) := alloc (ODict ∅) h in
  h ← foldlM (λ h mapping, dict_update d mapping h) h (reverse ms);
  Ok (d, h).

(** [keys()], which is [list(self)]. *)
Definition h_keys (maps : nat) (h : heap)
  : result (list (option string) * heap) :=
  '(d, h) ← h_iter maps h;
  dd ← read_dict (VRef d) h;
  Ok ((map_to_list dd).*1, h).

(** [ChainMap.__getitem__]: the value of the first map that has the key. *)
Fixpoint h_first (ms : list value) (key : option string) (h : heap)
  : result value :=
  match ms with
  | [] => Raise KeyError
  | mapping :: ms' =>
      d ← read_dict mapping h;
      match d !! key with
      | Some v => Ok v
      | None => h_first ms' key h
      end
  end.

Definition h_getitem (maps : nat) (key : option string) (h : heap)
  : result value :=
  ms ← read_list maps h;
  h_first ms key h.

(** The list [values] of [_NestedChainMap.__getitem__]. *)
Fixpoint h_values (ms : list value) (key : option string) (h : heap)
  : result (list value) :=
  match ms with
  | [] => Ok []
  | mapping :: ms' =>
      d ← read_dict mapping h;
      vs ← h_values ms' key h;
      Ok (match d !! key with Some v => v :: vs | None => vs end)
  end.

(** [_NestedChainMap.__getitem__]: the first value itself when it is not a
    dictionary; otherwise a new dictionary [result], updated with the
    values that are dictionaries, back to front. *)
Definition h_nested_getitem (maps : nat) (key : option string) (h : heap)
  : result (value * heap) :=
  ms ← read_list maps h;
  values ← h_values ms key h;
  match values with
  | [] => Raise KeyError
  | v0 :: _ =>
      if is_dict v0 h then
        let '(r, h) := alloc (ODict ∅) h in
        h ← foldlM (λ h value,
                      if is_dict value h then dict_update r value h else Ok h)
                   h (reverse values);
        Ok (VRef r, h)
      else Ok (v0, h)
  end.

(** The [collected_files] property, for the [_NestedChainMap] whose [maps]
    list is at [self_maps]: the keys in descending order, a new
    [ChainMap], one [append] for each key, and [dict] of the new chain map,
    which reads [keys()] and then every key.  The result is the address of
    the dictionary returned. *)
Definition h_collected_files (self_maps : nat) (h : heap) : result (nat * heap) :=
  '(keys, h) ← h_keys self_maps h;
  let sorted_keys := sorted (λ x y, ostr_lt y x) keys in
  let '(e, h) := alloc (ODict ∅) h in
  let '(final, h) := alloc (OList [VRef e]) h in
  h ← foldlM (λ h key,
                '(v, h) ← h_nested_getitem self_maps key h;
                list_append final v h)
             h sorted_keys;
  let '(r, h) := alloc (ODict ∅) h in
  '(ks, h) ← h_keys final h;
  h ← foldlM (λ h k, v ← h_getitem final k h; dict_setitem r k v h) h ks;
  Ok (r, h).

(** The store holds the bucket [b] at [v]: a dictionary from sources to
    destinations. *)
Definition bucket_at (h : heap) (v : value) (b : prio_dict) : Prop :=
  ∃ a, v = VRef a ∧ h !! a = Some (ODict (VStr <$> b)).

(** The store holds the file dictionary [layer] at [v]: a dictionary from
    priorities to buckets. *)
Definition layer_at (h : heap) (v : value) (layer : file_dict) : Prop :=
  ∃ a d, v = VRef a
         ∧ h !! a = Some (ODict d)
         ∧ d !! None = None
         ∧ ∀ p, option_Forall2 (bucket_at h) (d !! Some p) (layer !! p).

(** The store holds the layer sequence [layers] in the list at [maps]. *)
Definition chain_at (h : heap) (maps : nat) (layers : list file_dict) : Prop :=
  ∃ ms, h !! maps = Some (OList ms) ∧ Forall2 (layer_at h) ms layers.

(** The values [ms] are read as the dictionaries [ds]. *)
Definition reads (h : heap) (ms : list value)
    (ds : list (gmap (option string) value)) : Prop :=
  Forall2 (λ v d, read_dict v h = Ok d) ms ds.

(** The dictionary [d] of the store stands for the file dictionary
    [layer]. *)
Definition dict_layer (h : heap) (d : gmap (option string) value)
    (layer : file_dict) : Prop :=
  d !! None = None
  ∧ ∀ p, option_Forall2 (bucket_at h) (d !! Some p) (layer !! p).

Module StoreSamples.
(** A store with one layer that files a.txt under priority 5 and one that
    files it under priority 10; the list of the two layers is at 0. *)
Definition two_layers : heap :=
  [ OList [VRef 1; VRef 3];
    ODict {[ Some "5" := VRef 2 ]};
    ODict {[ Some "a.txt" := VStr "data/five" ]};
    ODict {[ Some "10" := VRef 4 ]};
    ODict {[ Some "a.txt" := VStr "data/ten" ]} ].

(** The two layers it holds. *)
Definition two_layer_files : list file_dict :=
  [ {[ "5" := {[ Some "a.txt" := "data/five" ]} ]};
    {[ "10" := {[ Some "a.txt" := "data/ten" ]} ]} ].
End StoreSamples.

(** * Properties *)

(** ** Version comparison *)

Lemma ascii_compare_refl (c : ascii) : Ascii.compare c c = Eq.
Proof. apply N.compare_refl. Qed.

Lemma string_compare_refl (s : string) : String.compare s s = Eq.
Proof. induction s as [|c s IH]; simpl; [done|]. by rewrite ascii_compare_refl. Qed.

Lemma cmp_component_refl (x : component) : cmp_component x x = Eq.
Proof. destruct x; simpl; [apply N.compare_refl | apply string_compare_refl]. Qed.

(** A version whose pieces are a proper prefix of another's is smaller. *)
Lemma cmp_list_prefix (l : list component) x r : cmp_list l (l ++ x :: r) = Lt.
Proof. induction l as [|y l IH]; simpl; [done|]. by rewrite cmp_component_refl. Qed.

Lemma all_chars_snoc p s c : all_chars p (snoc s c) = all_chars p s && p c.
Proof.
  induction s as [|d s IH]; simpl.
  - by rewrite andb_true_r.
  - unfold snoc in IH. by rewrite IH, andb_assoc.
Qed.

Lemma snoc_not_empty s c : snoc s c ≠ "".
Proof. by destruct s. Qed.

Lemma digits_value_total s acc :
  all_chars is_digit s = true → is_Some (digits_value s acc).
Proof.
  revert acc. induction s as [|c s IH]; intros acc; simpl; [eauto|].
  unfold is_digit. destruct (classify c); simpl; try done. apply IH.
Qed.

Lemma py_int_digits s :
  s ≠ "" → all_chars is_digit s = true → py_int s = Some (digits s).
Proof.
  intros Hne Hd. unfold py_int, digits.
  destruct (digits_value_total s 0%N Hd) as [n Hn].
  destruct s; [done|]. by rewrite Hn.
Qed.

Lemma py_int_wordy s : s ≠ "" → all_chars is_wordy s = true → py_int s = None.
Proof.
  destruct s as [|c s]; [done|]. intros _. simpl.
  unfold is_wordy. by destruct (classify c).
Qed.

Lemma re_split_pieces s : ∀ txt run,
  all_chars is_wordy txt = true → run_ok run →
  Forall piece_ok (re_split s txt run).
Proof.
  induction s as [|c s IH]; intros txt run Htxt Hrun; simpl.
  - destruct run as [[[] r]|]; simpl in Hrun;
      repeat apply List.Forall_cons; try apply List.Forall_nil;
      unfold piece_ok; tauto.
  - assert (Hc : is_digit c = true ∧ is_wordy c = false
                 ∨ is_digit c = false ∧ is_wordy c = true
                 ∨ classify c = Dot)
      by (unfold is_digit, is_wordy; destruct (classify c); tauto).
    assert (Hone : ∀ p, p c = true → all_chars p (String c "") = true)
      by (intros p Hp; simpl; by rewrite Hp).
    destruct run as [[[] r]|]; simpl in Hrun;
      destruct (classify c) eqn:Hcl;
      repeat apply List.Forall_cons;
      lazymatch goal with
      | |- Forall _ _ =>
          apply IH; simpl;
          rewrite ?all_chars_snoc, ?andb_true_iff;
          unfold is_digit, is_wordy; rewrite ?Hcl;
          repeat split; try apply snoc_not_empty; try done; tauto
      | |- _ => unfold piece_ok; tauto
      end.
Qed.

(** Every string piece of a parsed version is non-empty and holds neither a
    digit nor a dot: digits are always cut off from what surrounds them. *)
Lemma parse_string_pieces s piece :
  CStr piece ∈ parse s → piece ≠ "" ∧ all_chars is_wordy piece = true.
Proof.
  unfold parse. intros Hin.
  apply list_elem_of_fmap in Hin as (p & Hp & Hin).
  apply list_elem_of_filter in Hin as [[Hne Hdot] Hin].
  pose proof (re_split_pieces s "" None eq_refl I) as Hall.
  rewrite Forall_forall in Hall. specialize (Hall p Hin).
  unfold to_component in Hp.
  destruct Hall as [?|[?|[Hd|Hw]]]; try done.
  - by rewrite (py_int_digits p Hne Hd) in Hp.
  - rewrite (py_int_wordy p Hne Hw) in Hp. by simplify_eq.
Qed.

Lemma string_app_cons x (a b : string) : String x a +:+ b = String x (a +:+ b).
Proof. reflexivity. Qed.

Lemma string_app_nil_r (a : string) : a +:+ "" = a.
Proof. induction a as [|x a IH]; [done|]. by rewrite string_app_cons, IH. Qed.

Lemma string_app_assoc (a b c : string) : (a +:+ b) +:+ c = a +:+ (b +:+ c).
Proof. induction a as [|x a IH]; [done|]. by rewrite !string_app_cons, IH. Qed.

(** A run of digits is read into the open run. *)
Lemma re_split_digit_run d : ∀ s txt r,
  all_chars is_digit d = true →
  re_split (d +:+ s) txt (Some (true, r)) = re_split s txt (Some (true, r +:+ d)).
Proof.
  induction d as [|c d IH]; intros s txt r Hd.
  - by rewrite string_app_nil_r.
  - simpl in Hd. apply andb_true_iff in Hd as [Hc Hd].
    rewrite string_app_cons. simpl.
    unfold is_digit in Hc. destruct (classify c); try done.
    rewrite IH by done. unfold snoc. by rewrite string_app_assoc.
Qed.

Lemma re_split_digits_then d s :
  d ≠ "" → all_chars is_digit d = true →
  re_split (d +:+ s) "" None = "" :: re_split s "" (Some (true, d)).
Proof.
  destruct d as [|c d]; [done|]. intros _ Hd. simpl in Hd.
  apply andb_true_iff in Hd as [Hc Hd].
  rewrite string_app_cons. simpl.
  unfold is_digit in Hc. destruct (classify c); try done.
  by rewrite re_split_digit_run.
Qed.

Lemma digits_not_dot d : d ≠ "" → all_chars is_digit d = true → d ≠ ".".
Proof. intros _ Hd ->. by vm_compute in Hd. Qed.

Lemma parse_digits_dot d rest :
  d ≠ "" → all_chars is_digit d = true →
  parse (d +:+ "." +:+ rest) = CInt (digits d) :: parse rest.
Proof.
  intros Hne Hd. unfold parse.
  rewrite re_split_digits_then by done. simpl.
  rewrite filter_cons_False by (intros []; done).
  rewrite filter_cons_True by (split; [done | by apply digits_not_dot]).
  rewrite filter_cons_False by (intros []; done).
  rewrite filter_cons_False by (intros []; done).
  simpl. unfold to_component at 1. by rewrite py_int_digits.
Qed.

Lemma parse_digits d :
  d ≠ "" → all_chars is_digit d = true → parse d = [CInt (digits d)].
Proof.
  intros Hne Hd. unfold parse.
  rewrite <- (string_app_nil_r d) at 1.
  rewrite re_split_digits_then by done. simpl.
  rewrite filter_cons_False by (intros []; done).
  rewrite filter_cons_True by (split; [done | by apply digits_not_dot]).
  rewrite filter_cons_False by (intros []; done).
  simpl. unfold to_component. by rewrite py_int_digits.
Qed.

(** Dotted numbers parse to the list of their values. *)
Lemma parse_dotted (ds : list string) :
  Forall (λ d, d ≠ "" ∧ all_chars is_digit d = true) ds →
  parse (String.concat "." ds) = map (λ d, CInt (digits d)) ds.
Proof.
  induction 1 as [|d ds [Hne Hd] Hds IH]; [done|].
  destruct ds as [|d' ds].
  - simpl. by apply parse_digits.
  - change (String.concat "." (d :: d' :: ds))
      with (d +:+ "." +:+ String.concat "." (d' :: ds)).
    rewrite parse_digits_dot by done. by rewrite IH.
Qed.

Import Samples.

(** C7.  Versions compare piece by piece and by the type of the pieces.
    Dotted numbers parse to the list of their values, and a string piece
    never holds a digit or a dot, so that digits and letters are cut apart;
    integer pieces compare by value and string pieces by bytes, the first
    difference deciding; a version whose pieces are a proper prefix of
    another's is smaller.  So 1.2 is below 1.10 although the string 1.10 is
    below the string 1.2; a [gameDependency] on 1.5 fails for the game
    version 1.4.2, and one on 1.2 is met by the game version 1.10. *)
Theorem version_comparison_by_pieces :
  (∀ ds, Forall (λ d, d ≠ "" ∧ all_chars is_digit d = true) ds →
         parse (String.concat "." ds) = map (λ d, CInt (digits d)) ds)
  ∧ (∀ s piece, CStr piece ∈ parse s →
                piece ≠ "" ∧ all_chars is_wordy piece = true)
  ∧ (∀ x y a b, cmp_list (CInt x :: a) (CInt y :: b)
                = match (x ?= y)%N with Eq => cmp_list a b | c => c end)
  ∧ (∀ x y a b, cmp_list (CStr x :: a) (CStr y :: b)
                = match String.compare x y with Eq => cmp_list a b | c => c end)
  ∧ (∀ l x r, cmp_list l (l ++ x :: r) = Lt)
  ∧ parse "1.5b2" = [CInt 1; CInt 5; CStr "b"; CInt 2]
  ∧ LooseVersion_lt (LooseVersion (Some "1.2")) (LooseVersion (Some "1.10")) = Ok true
  ∧ LooseVersion_lt (LooseVersion (Some "1.10")) (LooseVersion (Some "1.2")) = Ok false
  ∧ String.compare "1.10" "1.2" = Lt
  ∧ (∀ path_exists flag_states_get dest,
       _assert_dependencies path_exists flag_states_get dest (Some "1.4.2")
         (Some (elem "moduleDependencies" [] [gameDependency "1.5"]))
       = Raise (MissingDependency "Version" "1.5" "1.4.2"))
  ∧ (∀ path_exists flag_states_get dest,
       _assert_dependencies path_exists flag_states_get dest (Some "1.10")
         (Some (elem "moduleDependencies" [] [gameDependency "1.2"]))
       = Ok ()).
Proof.
  split; [apply parse_dotted|].
  split; [apply parse_string_pieces|].
  split; [reflexivity|].
  split; [reflexivity|].
  split; [apply cmp_list_prefix|].
  repeat split; reflexivity.
Qed.

Lemma version_comparison_by_pieces_witness :
  parse "1.10" = [CInt 1; CInt 10] ∧ cmp_list (parse "1.2") (parse "1.2.0") = Lt.
Proof.
  destruct version_comparison_by_pieces as (Hdots & _ & _ & _ & Hprefix & _).
  split.
  - apply (Hdots ["1"; "10"]).
    apply List.Forall_cons; [by split|].
    apply List.Forall_cons; [by split|]. apply List.Forall_nil.
  - apply (Hprefix [CInt 1%N; CInt 2%N] (CInt 0%N) []).
Defined.

(** ** The dependency check *)

Section dependency_facts.
Variable path_exists : string → string → bool.
Variable flag_states_get : option string → string → string.
Variable dest : option string.
Variable game_version : option string.

Local Abbreviation assert_element :=
  (assert_element path_exists flag_states_get dest game_version).
Local Abbreviation check1 :=
  (check_dependency path_exists flag_states_get dest game_version assert_element).

Local Abbreviation satisfied :=
  (satisfied path_exists flag_states_get dest game_version).
Local Abbreviation fails_with :=
  (fails_with path_exists flag_states_get dest game_version).

Lemma assert_element_unfold depend :
  assert_element depend =
  check_loop check1 (get_default depend "operator" "And")
             (length (children depend)) (children depend) None 0.
Proof. destruct depend; reflexivity. Qed.

(** A triple left by a check names one of the three dependency types. *)
Lemma check_dependency_triple_type recurse check type_ expected actual :
  check_dependency path_exists flag_states_get dest game_version recurse check
    = Ok (Fallthrough (Triple type_ expected actual)) →
  type_ = "Version" ∨ type_ = "File" ∨ type_ = "Flag".
Proof.
  unfold check_dependency.
  repeat case_bool_decide; repeat case_match; simpl;
    intros; simplify_eq; auto;
    repeat match goal with
           | H : context [mbind _ ?r] |- _ => destruct r eqn:?; simpl in H
           | H : context [if ?b then _ else _] |- _ => destruct b eqn:?
           end; simplify_eq; auto.
Qed.


(** Satisfied checks before the first failing one leave an [And] loop
    running, whatever the loop state. *)
Lemma check_loop_and_skip len pre rest missed_dep num :
  Forall satisfied pre →
  ∃ missed_dep' num',
    check_loop check1 "And" len (pre ++ rest) missed_dep num
    = check_loop check1 "And" len rest missed_dep' num'
    ∧ (num' = num).
Proof.
  intros Hpre. revert missed_dep num.
  induction Hpre as [|c pre Hc _ IH]; intros missed_dep num; simpl.
  - eauto.
  - destruct Hc as [-> | ->]; simpl.
    + apply IH.
    + apply IH.
Qed.

Lemma check_loop_and_fail len check rest missed_dep num type_ expected actual :
  fails_with check type_ expected actual →
  check_loop check1 "And" len (check :: rest) missed_dep num
  = Raise (MissingDependency type_ expected actual).
Proof.
  intros [Hc | Hc]; simpl; rewrite Hc; simpl; [|done].
  apply check_dependency_triple_type in Hc. by rewrite decide_True.
Qed.
End dependency_facts.

Section dependency_claims.
Variable path_exists : string → string → bool.
Variable flag_states_get : option string → string → string.
Variable dest : option string.
Variable game_version : option string.

Local Abbreviation assert_element :=
  (assert_element path_exists flag_states_get dest game_version).
Local Abbreviation satisfied :=
  (satisfied path_exists flag_states_get dest game_version).
Local Abbreviation fails_with :=
  (fails_with path_exists flag_states_get dest game_version).

(** C4.  In a composite whose operator is [And], when the children before
    [check] are satisfied and [check] is the first child that fails, with
    the information (type, expected, actual), the call raises
    [MissingDependency] with exactly that information; and it does so
    whatever children follow [check], which are therefore never looked
    at. *)
Theorem and_raises_first_failure depend pre check post type_ expected actual :
  get_default depend "operator" "And" = "And" →
  children depend = pre ++ check :: post →
  Forall satisfied pre →
  fails_with check type_ expected actual →
  assert_element depend = Raise (MissingDependency type_ expected actual)
  ∧ ∀ post',
      assert_element
        (mkElement (tag depend) (attrib depend) (text depend) (pre ++ check :: post'))
      = Raise (MissingDependency type_ expected actual).
Proof.
  intros Hop Hch Hpre Hfail.
  assert (∀ rest, check_loop
            (check_dependency path_exists flag_states_get dest game_version
                              assert_element)
            "And" (length (pre ++ check :: rest)) (pre ++ check :: rest) None 0
          = Raise (MissingDependency type_ expected actual)) as Hloop.
  { intros rest.
    destruct (check_loop_and_skip path_exists flag_states_get dest game_version
                (length (pre ++ check :: rest)) pre (check :: rest) None 0 Hpre)
      as (md & num & -> & _).
    by apply check_loop_and_fail. }
  split.
  - rewrite assert_element_unfold, Hop, Hch. apply Hloop.
  - intros post'. rewrite assert_element_unfold.
    destruct depend as [t a x c]; simpl in *.
    unfold get_default, get in *; simpl in *. rewrite Hop. apply Hloop.
Qed.

(** C10 as the code has it.  A composite whose operator is [Or] and that
    has no child raises, and what it raises is neither
    [MissingDependency] nor [TypeError]: the variable [missed_dep] is
    assigned only inside the loop, so the final [raise] reads an unbound
    local variable. *)
Theorem or_without_children_unbound depend :
  get_default depend "operator" "And" = "Or" →
  children depend = [] →
  assert_element depend = Raise UnboundLocalError.
Proof.
  intros Hop Hch. by rewrite assert_element_unfold, Hop, Hch.
Qed.
End dependency_claims.

Import Samples.

Lemma and_raises_first_failure_witness :
  assert_element no_files no_flags None (Some "1.0") and_sample
  = Raise (MissingDependency "Flag" "on" "").
Proof.
  apply (and_raises_first_failure no_files no_flags None (Some "1.0") and_sample
           [flagDependency "b" ""] (flagDependency "a" "on") [broken_check]).
  - reflexivity.
  - reflexivity.
  - apply List.Forall_cons.
    + right. reflexivity.
    + apply List.Forall_nil.
  - left. reflexivity.
Defined.

(** The child after the failing one would raise [AttributeError] if it were
    evaluated. *)
Example broken_check_raises :
  check_dependency no_files no_flags None (Some "1.0")
    (assert_element no_files no_flags None (Some "1.0")) broken_check
  = Raise AttributeError.
Proof. reflexivity. Qed.

Lemma or_without_children_unbound_witness :
  assert_element no_files no_flags None None or_empty = Raise UnboundLocalError.
Proof.
  apply (or_without_children_unbound no_files no_flags None None or_empty);
    reflexivity.
Defined.

(** C10 as stated fails: the exception raised for an [Or] without children is
    not the [TypeError] of a constructor called with an empty payload. *)
Lemma or_without_children_not_type_error :
  _assert_dependencies no_files no_flags None None (Some or_empty) ≠ Raise TypeError.
Proof. vm_compute. discriminate. Qed.


(** ** Sorting *)

Section sorted_facts.
Context {A : Type} (before : A → A → bool).

Lemma insert_sorted_perm x l : insert_sorted before x l ≡ₚ x :: l.
Proof.
  induction l as [|y l IH]; simpl; [done|].
  destruct (before y x); [|done].
  rewrite IH. apply Permutation_swap.
Qed.

Lemma sorted_perm l : sorted before l ≡ₚ l.
Proof.
  induction l as [|x l IH]; simpl; [done|].
  by rewrite insert_sorted_perm, IH.
Qed.

Local Abbreviation may_precede := (may_precede before).

Hypothesis before_asym : ∀ a b, before a b = true → before b a = false.
Hypothesis may_precede_trans : ∀ a b c,
  may_precede a b → may_precede b c → may_precede a c.

Lemma insert_sorted_sorted x l :
  StronglySorted may_precede l →
  StronglySorted may_precede (insert_sorted before x l).
Proof.
  induction 1 as [|y l Hl IH Hy]; simpl.
  - repeat constructor.
  - destruct (before y x) eqn:Hyx.
    + constructor; [done|].
      rewrite insert_sorted_perm. constructor; [|done].
      by apply before_asym.
    + constructor; [by constructor|].
      constructor; [done|].
      eapply Forall_impl; [exact Hy|].
      intros z Hz. by eapply may_precede_trans.
Qed.

Lemma sorted_sorted l : StronglySorted may_precede (sorted before l).
Proof.
  induction l as [|x l IH]; simpl; [constructor|].
  by apply insert_sorted_sorted.
Qed.
End sorted_facts.

(** ** Chain maps *)

Section chainmap_facts.
Context `{Countable K} {V : Type}.
Implicit Types maps : list (gmap K V).

(** Updating a dictionary with the maps from back to front leaves, for
    each key, the value of the first map that has it. *)
Lemma foldl_update_lookup maps k :
  foldl (λ d mapping, mapping ∪ d) ∅ (reverse maps) !! k
  = ChainMap_getitem maps k.
Proof.
  induction maps as [|m maps IH]; simpl; [apply lookup_empty|].
  rewrite reverse_cons, foldl_app. simpl.
  destruct (m !! k) eqn:Hm.
  - by apply lookup_union_Some_l.
  - by rewrite lookup_union_r.
Qed.

Lemma ChainMap_iter_lookup maps k :
  ChainMap_iter maps !! k = ChainMap_getitem maps k.
Proof. apply foldl_update_lookup. Qed.

Lemma elem_of_ChainMap_keys maps k :
  k ∈ ChainMap_keys maps ↔ is_Some (ChainMap_getitem maps k).
Proof.
  unfold ChainMap_keys. rewrite <- ChainMap_iter_lookup. split.
  - intros ([k' v] & -> & Hin)%list_elem_of_fmap.
    apply elem_of_map_to_list in Hin. eauto.
  - intros [v Hv]. apply list_elem_of_fmap. exists (k, v).
    split; [done|]. by apply elem_of_map_to_list.
Qed.

Lemma NoDup_ChainMap_keys maps : NoDup (ChainMap_keys maps).
Proof. apply NoDup_fst_map_to_list. Qed.

Lemma ChainMap_getitem_app maps1 maps2 k :
  ChainMap_getitem (maps1 ++ maps2) k
  = match ChainMap_getitem maps1 k with
    | Some v => Some v
    | None => ChainMap_getitem maps2 k
    end.
Proof.
  induction maps1 as [|m maps1 IH]; simpl; [done|].
  by destruct (m !! k).
Qed.

Lemma ChainMap_getitem_Some maps k v :
  ChainMap_getitem maps k = Some v → ∃ m, m ∈ maps ∧ m !! k = Some v.
Proof.
  induction maps as [|m maps IH]; simpl; [done|].
  destruct (m !! k) eqn:Hm.
  - intros [= ->]. exists m. split; [left|done].
  - intros (m' & ? & ?)%IH. exists m'. split; [by right|done].
Qed.

Lemma ChainMap_getitem_None maps k :
  ChainMap_getitem maps k = None ↔ ∀ m, m ∈ maps → m !! k = None.
Proof.
  induction maps as [|m maps IH]; simpl.
  - split; [|done]. by intros _ m ?%elem_of_nil.
  - destruct (m !! k) eqn:Hm.
    + split; [done|]. intros Hall. rewrite <- Hm. apply Hall. left.
    + rewrite IH. split.
      * intros Hall m' [->|?]%elem_of_cons; auto.
      * intros Hall m' ?. apply Hall. by right.
Qed.

(** [dict] of a mapping reads every key through [__getitem__]. *)
Lemma dict_of_lookup {W} (keys : list K) (getitem : K → option W) k :
  dict_of keys getitem !! k = if decide (k ∈ keys) then getitem k else None.
Proof.
  unfold dict_of. induction keys as [|k0 keys IH]; simpl.
  - by rewrite lookup_empty.
  - destruct (getitem k0) as [w|] eqn:Hg; simpl.
    + destruct (decide (k = k0)) as [->|Hne].
      * rewrite lookup_insert_eq, decide_True by left. done.
      * rewrite lookup_insert_ne by done. etrans; [exact IH|].
        destruct (decide (k ∈ keys)).
        -- by rewrite decide_True by by right.
        -- rewrite decide_False; [done|]. by intros [?|?]%elem_of_cons.
    + etrans; [exact IH|]. destruct (decide (k = k0)) as [->|Hne].
      * rewrite (decide_True (P := k0 ∈ k0 :: keys)) by left.
        rewrite Hg. by destruct (decide (k0 ∈ keys)).
      * destruct (decide (k ∈ keys)).
        -- by rewrite decide_True by by right.
        -- rewrite decide_False; [done|]. by intros [?|?]%elem_of_cons.
Qed.

(** [dict(chain)] agrees with the chain on every key. *)
Lemma dict_of_ChainMap maps k :
  dict_of (ChainMap_keys maps) (ChainMap_getitem maps) !! k
  = ChainMap_getitem maps k.
Proof.
  rewrite dict_of_lookup. destruct (decide (k ∈ ChainMap_keys maps)) as [|Hn]; [done|].
  rewrite elem_of_ChainMap_keys in Hn.
  symmetry. by apply eq_None_not_Some.
Qed.
End chainmap_facts.

Lemma flatten_flags_lookup (maps : list flag_dict) k :
  flatten_flags maps !! k = ChainMap_getitem maps k.
Proof. apply dict_of_ChainMap. Qed.

(** ** Byte order on strings *)

Lemma str_lt_false_le a b : str_lt a b = false ↔ String.le b a.
Proof.
  unfold str_lt, String.le, String.leb.
  rewrite (String.compare_antisym b a).
  destruct (String.compare a b); simpl; split; done.
Qed.

Lemma str_lt_asym a b : str_lt a b = true → str_lt b a = false.
Proof.
  unfold str_lt. rewrite (String.compare_antisym b a).
  by destruct (String.compare a b).
Qed.

Lemma str_lt_total a b : str_lt a b = false → a ≠ b → str_lt b a = true.
Proof.
  unfold str_lt. rewrite (String.compare_antisym b a).
  destruct (String.compare a b) eqn:Hc; simpl; try done.
  intros _ []. by apply String.compare_eq_iff.
Qed.

Lemma descending_trans a b c :
  may_precede (λ x y, str_lt y x) a b → may_precede (λ x y, str_lt y x) b c →
  may_precede (λ x y, str_lt y x) a c.
Proof.
  unfold may_precede. rewrite !str_lt_false_le. intros ??. by etrans.
Qed.

Lemma sorted_reverse_sorted keys :
  StronglySorted (λ a b, str_lt a b = false) (sorted_reverse keys).
Proof.
  apply (sorted_sorted (λ x y, str_lt y x)).
  - intros a b. apply str_lt_asym.
  - apply descending_trans.
Qed.

(** ** The flattened file view *)

Section nested_facts.
Context `{Countable K} `{Countable K2} {V : Type}.
Implicit Types maps : list (gmap K (gmap K2 V)).

Lemma NestedChainMap_getitem_is_Some maps p :
  is_Some (NestedChainMap_getitem maps p) ↔ is_Some (ChainMap_getitem maps p).
Proof.
  unfold NestedChainMap_getitem.
  induction maps as [|m maps IH]; simpl.
  - split; by intros [??].
  - destruct (m !! p); [split; eauto|]. apply IH.
Qed.

(** A merged bucket gives, for each inner key, the value of the first
    layer whose bucket has it. *)
Lemma NestedChainMap_getitem_lookup maps p bucket s :
  NestedChainMap_getitem maps p = Some bucket →
  bucket !! s = ChainMap_getitem (omap (λ mapping, mapping !! p) maps) s.
Proof.
  unfold NestedChainMap_getitem.
  destruct (omap _ maps) as [|v values] eqn:Hv; [done|].
  intros [= <-]. apply foldl_update_lookup.
Qed.
End nested_facts.

Lemma flatten_files_lookup (maps : list file_dict) s :
  flatten_files maps !! s
  = ChainMap_getitem
      (omap (NestedChainMap_getitem maps) (sorted_reverse (ChainMap_keys maps))) s.
Proof.
  unfold flatten_files. rewrite dict_of_ChainMap. simpl.
  by rewrite lookup_empty.
Qed.

(** The bucket of the greatest priority, in string order, among those that
    hold a source decides its destination. *)
Lemma flatten_files_greatest (maps : list file_dict) s p1 b1 d1 :
  NestedChainMap_getitem maps p1 = Some b1 →
  b1 !! s = Some d1 →
  (∀ p b, NestedChainMap_getitem maps p = Some b → is_Some (b !! s) →
          str_lt p1 p = false) →
  flatten_files maps !! s = Some d1.
Proof.
  intros Hb1 Hd1 Hmax. rewrite flatten_files_lookup.
  pose proof (sorted_reverse_sorted (ChainMap_keys maps)) as Hsorted.
  assert (Hnodup : NoDup (sorted_reverse (ChainMap_keys maps))).
  { unfold sorted_reverse. rewrite sorted_perm. apply NoDup_ChainMap_keys. }
  assert (Hin : p1 ∈ sorted_reverse (ChainMap_keys maps)).
  { unfold sorted_reverse. rewrite sorted_perm. apply elem_of_ChainMap_keys.
    apply NestedChainMap_getitem_is_Some. eauto. }
  apply list_elem_of_split in Hin as (pre & post & Hkeys).
  rewrite Hkeys in *. clear Hkeys.
  rewrite omap_app, ChainMap_getitem_app.
  assert (ChainMap_getitem (omap (NestedChainMap_getitem maps) pre) s = None) as ->.
  { apply ChainMap_getitem_None. intros b (p & Hp & Hb)%list_elem_of_omap.
    destruct (b !! s) eqn:Hbs; [|done].
    assert (str_lt p1 p = false) as Hle by eauto.
    assert (str_lt p p1 = false) as Hge
      by (apply (StronglySorted_app_1_elem_of _ pre (p1 :: post) p p1 Hsorted); [done|left]).
    apply NoDup_app in Hnodup as (_ & Hnot & _).
    destruct (decide (p = p1)) as [->|Hne].
    - exfalso. apply (Hnot p1); [done|left].
    - by rewrite (str_lt_total p p1 Hge Hne) in Hle. }
  simpl. rewrite Hb1. simpl. by rewrite Hd1.
Qed.

(** ** Priorities written with the same number of digits *)

Lemma classify_digit_bounds c :
  is_digit c = true → (48 ≤ N_of_ascii c ≤ 57)%N.
Proof.
  unfold is_digit, classify. cbv zeta.
  destruct ((48 <=? N_of_ascii c)%N && (N_of_ascii c <=? 57)%N) eqn:Hb.
  - intros _. apply andb_true_iff in Hb as [?%N.leb_le ?%N.leb_le]. lia.
  - by repeat case_match.
Qed.

Lemma digits_value_spec s : ∀ acc,
  all_chars is_digit s = true →
  ∃ v, digits_value s 0 = Some v
       ∧ digits_value s acc = Some (acc * 10 ^ N.of_nat (String.length s) + v)%N
       ∧ (v < 10 ^ N.of_nat (String.length s))%N.
Proof.
  induction s as [|c s IH]; intros acc Hd.
  - exists 0%N. simpl. split_and!; [done | f_equal; lia | lia].
  - simpl in Hd. apply andb_true_iff in Hd as [Hc Hd].
    pose proof (classify_digit_bounds c Hc) as Hb.
    cbn [digits_value String.length]. unfold is_digit in Hc.
    destruct (classify c); try done.
    destruct (IH (10 * acc + (N_of_ascii c - 48))%N Hd) as (v & Hv0 & Hv & Hlt).
    destruct (IH (10 * 0 + (N_of_ascii c - 48))%N Hd) as (v' & Hv0' & Hv' & _).
    assert (v' = v) as -> by congruence.
    exists ((N_of_ascii c - 48) * 10 ^ N.of_nat (String.length s) + v)%N.
    rewrite Hv, Hv'. rewrite Nat2N.inj_succ, N.pow_succ_r'.
    split_and!; [f_equal; lia | f_equal; lia | nia].
Qed.

(** On numerals of equal length, byte order is numeric order. *)
Lemma compare_numerals a : ∀ b,
  all_chars is_digit a = true → all_chars is_digit b = true →
  String.length a = String.length b →
  String.compare a b = (digits a ?= digits b)%N.
Proof.
  induction a as [|c a IH]; intros [|c' b] Ha Hb Hlen; try done.
  simpl in Ha, Hb. apply andb_true_iff in Ha as [Hc Ha].
  apply andb_true_iff in Hb as [Hc' Hb]. injection Hlen as Hlen.
  pose proof (classify_digit_bounds c Hc) as Hbc.
  pose proof (classify_digit_bounds c' Hc') as Hbc'.
  specialize (IH b Ha Hb Hlen).
  assert (Hda : ∃ v, digits a = v ∧ (v < 10 ^ N.of_nat (String.length a))%N
                ∧ digits (String c a)
                  = ((N_of_ascii c - 48) * 10 ^ N.of_nat (String.length a) + v)%N).
  { destruct (digits_value_spec a (10 * 0 + (N_of_ascii c - 48))%N Ha)
      as (v & Hv0 & Hv & Hlt).
    exists v. unfold digits. cbn [digits_value]. unfold is_digit in Hc.
    destruct (classify c); try done. rewrite Hv0, Hv. simpl.
    split_and!; [done | done | lia]. }
  assert (Hdb : ∃ v, digits b = v ∧ (v < 10 ^ N.of_nat (String.length b))%N
                ∧ digits (String c' b)
                  = ((N_of_ascii c' - 48) * 10 ^ N.of_nat (String.length b) + v)%N).
  { destruct (digits_value_spec b (10 * 0 + (N_of_ascii c' - 48))%N Hb)
      as (v & Hv0 & Hv & Hlt).
    exists v. unfold digits. cbn [digits_value]. unfold is_digit in Hc'.
    destruct (classify c'); try done. rewrite Hv0, Hv. simpl.
    split_and!; [done | done | lia]. }
  destruct Hda as (va & Hva & Hlta & ->). destruct Hdb as (vb & Hvb & Hltb & ->).
  rewrite Hva, Hvb in IH. rewrite <- Hlen in *.
  cbn [String.compare]. unfold Ascii.compare.
  destruct (N.compare_spec (N_of_ascii c) (N_of_ascii c')) as [Heq|Hlt|Hgt].
  - rewrite IH, Heq.
    destruct (N.compare_spec va vb); symmetry;
      [apply N.compare_eq_iff | apply N.compare_lt_iff | apply N.compare_gt_iff]; lia.
  - symmetry. apply N.compare_lt_iff. nia.
  - symmetry. apply N.compare_gt_iff. nia.
Qed.

Lemma numeral_le_str_lt p p1 :
  is_numeral p → is_numeral p1 → String.length p = String.length p1 →
  (digits p ≤ digits p1)%N → str_lt p1 p = false.
Proof.
  intros [_ Hp] [_ Hp1] Hlen Hle. unfold str_lt.
  rewrite (compare_numerals p1 p) by done.
  destruct (N.compare_spec (digits p1) (digits p)); try done. lia.
Qed.

(** ** Where the entries of the flattened view come from *)

Lemma merged_bucket_entry (maps : list file_dict) p b s d :
  NestedChainMap_getitem maps p = Some b → b !! s = Some d →
  ∃ layer bucket, layer ∈ maps ∧ layer !! p = Some bucket ∧ bucket !! s = Some d.
Proof.
  intros Hb Hd. rewrite (NestedChainMap_getitem_lookup maps p b s Hb) in Hd.
  apply ChainMap_getitem_Some in Hd as (bucket & Hin & Hs).
  apply list_elem_of_omap in Hin as (layer & ? & ?). eauto.
Qed.

Lemma layer_entry_merged (maps : list file_dict) layer p bucket s :
  layer ∈ maps → layer !! p = Some bucket → is_Some (bucket !! s) →
  ∃ b, NestedChainMap_getitem maps p = Some b ∧ is_Some (b !! s).
Proof.
  intros Hin Hp Hs.
  destruct (NestedChainMap_getitem maps p) as [b|] eqn:Hb.
  - exists b. split; [done|].
    rewrite (NestedChainMap_getitem_lookup maps p b s Hb).
    apply not_eq_None_Some. rewrite ChainMap_getitem_None.
    intros Hall. specialize (Hall bucket).
    destruct Hs as [d Hd]. rewrite Hall in Hd; [done|].
    apply list_elem_of_omap. eauto.
  - exfalso. apply eq_None_not_Some in Hb. apply Hb.
    apply NestedChainMap_getitem_is_Some.
    apply not_eq_None_Some. rewrite ChainMap_getitem_None.
    intros Hall. by rewrite (Hall layer Hin) in Hp.
Qed.

(** Every entry of the flattened view is an entry, source to destination, of
    a bucket of a layer. *)
Lemma flatten_files_entry (maps : list file_dict) s d :
  flatten_files maps !! s = Some d →
  ∃ layer p bucket, layer ∈ maps ∧ layer !! p = Some bucket ∧ bucket !! s = Some d.
Proof.
  rewrite flatten_files_lookup.
  intros (b & Hin & Hs)%ChainMap_getitem_Some.
  apply list_elem_of_omap in Hin as (p & _ & Hb).
  destruct (merged_bucket_entry maps p b s d Hb Hs) as (layer & bucket & ?).
  exists layer, p, bucket. done.
Qed.

(** C2 as the code has it.  The view is keyed by source.  When the merged
    bucket of priority [p1] sends a source to [d1], and every bucket that
    holds this source has a priority written with as many digits as [p1] and
    not above it, the view sends the source to [d1]: the higher bucket
    overrides the lower ones.  This holds in whatever order the layers were
    pushed, as long as the layers agree on what bucket [p1] says. *)
Theorem higher_priority_bucket_wins (maps : list file_dict)
    (source : option string) (p1 : string) (b1 : prio_dict) (d1 : string) :
  is_numeral p1 →
  NestedChainMap_getitem maps p1 = Some b1 →
  b1 !! source = Some d1 →
  (∀ p b, NestedChainMap_getitem maps p = Some b → is_Some (b !! source) →
          is_numeral p ∧ String.length p = String.length p1
          ∧ (digits p ≤ digits p1)%N) →
  flatten_files maps !! source = Some d1
  ∧ ∀ maps',
      maps' ≡ₚ maps →
      (∀ layer bucket d, layer ∈ maps → layer !! p1 = Some bucket →
                         bucket !! source = Some d → d = d1) →
      flatten_files maps' !! source = Some d1.
Proof.
  intros Hnum Hb1 Hd1 Hmax.
  assert (Hgen : ∀ maps2 b2,
             (∀ layer, layer ∈ maps2 → layer ∈ maps) →
             NestedChainMap_getitem maps2 p1 = Some b2 → b2 !! source = Some d1 →
             flatten_files maps2 !! source = Some d1).
  { intros maps2 b2 Hsub Hb2 Hd2.
    apply (flatten_files_greatest maps2 source p1 b2 d1 Hb2 Hd2).
    intros p b Hb [d Hd].
    destruct (merged_bucket_entry maps2 p b source d Hb Hd)
      as (layer & bucket & Hin & Hp & Hs).
    destruct (layer_entry_merged maps layer p bucket source (Hsub _ Hin) Hp)
      as (b' & Hb' & Hs'); [eauto|].
    destruct (Hmax p b' Hb' Hs') as (Hp_num & Hlen & Hle).
    by apply numeral_le_str_lt. }
  split; [by apply (Hgen maps b1)|].
  intros maps' Hperm Hagree.
  destruct (merged_bucket_entry maps p1 b1 source d1 Hb1 Hd1)
    as (layer & bucket & Hin & Hp & Hs).
  destruct (layer_entry_merged maps' layer p1 bucket source) as (b2 & Hb2 & [d Hd]);
    [by rewrite Hperm | done | eauto |].
  apply (Hgen maps' b2); [by intros l; rewrite Hperm | done |].
  destruct (merged_bucket_entry maps' p1 b2 source d Hb2 Hd)
    as (layer' & bucket' & Hin' & Hp' & Hs').
  rewrite Hperm in Hin'. by rewrite <- (Hagree layer' bucket' d Hin' Hp' Hs').
Qed.

Import FileSamples.

Lemma higher_priority_bucket_wins_witness :
  flatten_files [one; five] !! Some "a.txt" = Some "data/five"
  ∧ flatten_files [five; one] !! Some "a.txt" = Some "data/five".
Proof.
  assert (Hmax : ∀ p b, NestedChainMap_getitem [one; five] p = Some b →
                        is_Some (b !! Some "a.txt") →
                        is_numeral p ∧ String.length p = String.length "5"
                        ∧ (digits p ≤ digits "5")%N).
  { intros p b Hb [d Hd].
    destruct (merged_bucket_entry _ _ _ _ _ Hb Hd) as (layer & bucket & Hin & Hp & _).
    apply elem_of_cons in Hin as [->|Hin];
      [|apply elem_of_cons in Hin as [->|Hin]; [|by apply elem_of_nil in Hin]].
    - unfold one in Hp. apply lookup_singleton_Some in Hp as [<- _]. by vm_compute.
    - unfold five in Hp. apply lookup_singleton_Some in Hp as [<- _]. by vm_compute. }
  destruct (higher_priority_bucket_wins [one; five] (Some "a.txt") "5"
              {[ Some "a.txt" := "data/five" ]} "data/five")
    as [Hfront Hany]; [by vm_compute | by vm_compute | by vm_compute | exact Hmax |].
  split; [exact Hfront|].
  apply Hany; [apply Permutation_swap|].
  intros layer bucket d Hin Hp Hs.
  apply list_elem_of_In in Hin. simpl in Hin. destruct Hin as [<-|[<-|[]]].
  - unfold one in Hp. apply lookup_singleton_Some in Hp as [Hx _]. discriminate Hx.
  - unfold five in Hp. apply lookup_singleton_Some in Hp as [_ <-].
    apply lookup_singleton_Some in Hs as [_ <-]. reflexivity.
Defined.

(** C2 as stated fails twice.  Two buckets, 5 and 1, that send two sources
    to one destination both keep their entry: the view is keyed by source
    and nothing is overridden.  And between the buckets 10 and 5 for one
    source, bucket 5 wins in either push order: priorities are ordered as
    strings. *)
Lemma higher_priority_counterexample :
  flatten_files [five_a; one_b]
    = {[ Some "a.txt" := "data/x"; Some "b.txt" := "data/x" ]}
  ∧ flatten_files [ten; five] !! Some "a.txt" = Some "data/five"
  ∧ flatten_files [five; ten] !! Some "a.txt" = Some "data/five".
Proof. by vm_compute. Qed.

(** ** The installer: what a call changes *)

Lemma collect_file_dict_entries file_list :
  entries_from_items (collect_file_dict file_list).
Proof.
  destruct file_list as [fl|]; simpl; [|by intros p b s d ?%lookup_empty_Some].
  assert (Hgen : ∀ items (acc : file_dict), entries_from_items acc →
            entries_from_items
              (foldl (λ (file_dict : file_dict) item,
                 let source := get item "source" in
                 let dest := get_default item "destination" "" in
                 let prio := get_default item "priority" "0" in
                 let prio_dict := default ∅ (file_dict !! prio) in
                 <[prio := <[source := dest]> prio_dict]> file_dict) acc items)).
  { induction items as [|item items IH]; intros acc Hacc; simpl; [done|].
    apply IH. intros p b s d Hp Hs.
    destruct (decide (get_default item "priority" "0" = p)) as [<-|Hne].
    - rewrite lookup_insert_eq in Hp. injection Hp as <-.
      destruct (decide (get item "source" = s)) as [<-|Hns].
      + rewrite lookup_insert_eq in Hs. injection Hs as <-. by exists item.
      + rewrite lookup_insert_ne in Hs by done.
        destruct (acc !! get_default item "priority" "0") as [b|] eqn:Hb; simpl in Hs.
        * by apply (Hacc _ b).
        * by apply lookup_empty_Some in Hs.
    - rewrite lookup_insert_ne in Hp by done. by apply (Hacc p b). }
  apply Hgen. by intros p b s d ?%lookup_empty_Some.
Qed.

Lemma merged_chain_entries (chain : list file_dict) :
  Forall entries_from_items chain →
  entries_from_items (dict_of (ChainMap_keys chain) (NestedChainMap_getitem chain)).
Proof.
  intros Hall p b s d Hp Hs. rewrite dict_of_lookup in Hp.
  destruct (decide _); [|done].
  destruct (merged_bucket_entry chain p b s d Hp Hs) as (layer & bucket & Hin & ? & ?).
  rewrite Forall_forall in Hall. by apply (Hall layer Hin p bucket).
Qed.

Lemma foldlM_invariant {A B} (P : B → Prop) (f : B → A → result B) l b r :
  (∀ b a b', P b → f b a = Ok b' → P b') →
  P b → foldlM f b l = Ok r → P r.
Proof.
  intros Hf. revert b. induction l as [|a l IH]; intros b Hb; simpl.
  - by intros [= <-].
  - destruct (f b a) as [b'|e] eqn:Hfa; simpl; [|done]. apply IH. eauto.
Qed.

Lemma collect_step_entries id_dict answer step_file_chain step_flag_chain :
  collect_step id_dict answer = Ok (step_file_chain, step_flag_chain) →
  Forall entries_from_items step_file_chain.
Proof.
  unfold collect_step.
  apply (foldlM_invariant (λ chains, Forall entries_from_items chains.1)).
  - intros chains ids chains' Hchains.
    apply (foldlM_invariant (λ chains, Forall entries_from_items chains.1)); [|done].
    intros [fc gc] id_ [fc' gc'] Hfc. simpl.
    destruct (id_dict !! id_); [|done]. intros [= <- <-].
    apply Forall_cons. split; [apply collect_file_dict_entries | done].
  - apply Forall_cons. split; [|done]. by intros p b s d ?%lookup_empty_Some.
Qed.

Section engine_facts.
Variable path_exists : string → string → bool.
Variable uuid4 : nat → string.
Variable root : Element.
Variable dest : option string.
Variable game_version : option string.

Local Abbreviation conditional_installs' :=
  (conditional_installs path_exists dest game_version).
Local Abbreviation advance' := (advance path_exists uuid4 root dest game_version).
Local Abbreviation process_answer' :=
  (process_answer path_exists uuid4 root dest game_version).
Local Abbreviation send' := (send path_exists uuid4 root dest game_version).
Local Abbreviation next' := (next path_exists uuid4 root dest game_version).
Local Abbreviation reachable' :=
  (reachable path_exists uuid4 root dest game_version).

(** The final loop finishes the generator, leaves the flags alone and only
    adds file layers. *)
Lemma conditional_installs_effect pattern_list : ∀ self,
  ∃ extra,
    gen (conditional_installs' self pattern_list).2 = Finished
    ∧ is_ok (conditional_installs' self pattern_list).1 = false
    ∧ _flag_states (conditional_installs' self pattern_list).2 = _flag_states self
    ∧ _collected_files (conditional_installs' self pattern_list).2
      = extra ++ _collected_files self
    ∧ Forall entries_from_items extra.
Proof.
  induction pattern_list as [|pattern pattern_list IH]; intros self; simpl.
  - by exists [].
  - destruct (assert_on_chain _ _ _ _ _) as [[]|e].
    + destruct (IH (set_collected_files
                      (_collect_files (find pattern "files") (_collected_files self))
                      self)) as (extra & Hgen & Hok & Hfl & Hfi & Hall).
      exists (extra ++ [collect_file_dict (find pattern "files")]).
      split_and!; [done..| |].
      * rewrite Hfi. simpl. unfold _collect_files. by rewrite <- app_assoc.
      * apply Forall_app. split; [done|].
        apply Forall_cons. split; [apply collect_file_dict_entries | done].
    + destruct e; try by exists []. apply IH.
Qed.

(** Advancing leaves the flags alone; it either yields a step without
    touching the files, or finishes the generator, possibly under new file
    layers. *)
Lemma advance_effect self l :
  _flag_states (advance' self l).2 = _flag_states self
  ∧ ((∃ l' id_dict sd,
        gen (advance' self l).2 = AtStep l' id_dict sd
        ∧ (advance' self l).1 = Ok (Some sd)
        ∧ _collected_files (advance' self l).2 = _collected_files self)
     ∨ (gen (advance' self l).2 = Finished
        ∧ is_ok (advance' self l).1 = false
        ∧ ∃ extra, _collected_files (advance' self l).2
                   = extra ++ _collected_files self
                   ∧ Forall entries_from_items extra)).
Proof.
  unfold advance.
  destruct (next_visible _ _ _ _ _ _) as [[[index' step]|]|e]; simpl.
  - destruct (build_step _ _ _ _ _ _ _) as [[[sd id_dict] n]|e]; simpl.
    + split; [done|]. left. eauto 10.
    + split; [done|]. right. split_and!; [done..|]. by exists [].
  - destruct (conditional_installs_effect
                (_explicit_list (find2 root "conditionalFileInstalls" "patterns"))
                self) as (extra & ? & ? & ? & ? & ?).
    split; [done|]. right. eauto 10.
  - split; [done|]. right. split_and!; [done..|]. by exists [].
Qed.

Lemma advance_ok self l :
  primed_shape root (_flag_states self) (_collected_files self) →
  Forall entries_from_items (_collected_files self) →
  installer_ok root (advance' self l).2.
Proof.
  intros (fl & fi & Hfl & Hfi & Hlen) Hall.
  destruct (advance_effect self l) as [Hflags [(l' & idd & sd & Hgen & _ & Hfiles)
    | (Hgen & _ & extra & Hfiles & Hextra)]].
  - split.
    + unfold stores_ok. rewrite Hgen, Hflags, Hfiles. by exists fl, fi.
    + by rewrite Hfiles.
  - split.
    + unfold stores_ok. rewrite Hgen, Hflags, Hfiles.
      exists fl, (extra ++ fi). split; [done|]. left.
      by rewrite Hfi, app_assoc.
    + rewrite Hfiles. by apply Forall_app.
Qed.

(** The guarded pops take one layer from each chain when there is one
    over the base, and nothing otherwise. *)
Lemma pop_layers_shape self fl fi :
  _flag_states self = fl ++ [∅] →
  _collected_files self = fi ++ [required_layer root; ∅] →
  length fl = length fi →
  _flag_states (pop_layers self) = tail fl ++ [∅]
  ∧ _collected_files (pop_layers self) = tail fi ++ [required_layer root; ∅].
Proof.
  intros Hfl Hfi Hlen. unfold pop_layers.
  repeat case_bool_decide; simpl in *; rewrite ?Hfl, ?Hfi in *;
    rewrite ?length_app in *; simpl in *;
    destruct fl, fi; simplify_eq/=; try lia; done.
Qed.

Lemma answer_layers_entries sd id_dict answer file_layer flag_layer :
  answer_layers sd id_dict answer = Ok (file_layer, flag_layer) →
  entries_from_items file_layer.
Proof.
  unfold answer_layers.
  destruct (validate sd answer) as [a1|]; simpl; [|done].
  destruct (normalize sd a1) as [a2|]; simpl; [|done].
  destruct (collect_step id_dict a2) as [[fc gc]|] eqn:Hc; simpl; [|done].
  intros [= <- <-]. apply merged_chain_entries.
  by apply (collect_step_entries id_dict a2 fc gc).
Qed.

Lemma process_answer_ok self l id_dict sd answer :
  primed_shape root (_flag_states self) (_collected_files self) →
  Forall entries_from_items (_collected_files self) →
  installer_ok root (process_answer' self l id_dict sd answer).2.
Proof.
  intros Hshape Hall. pose proof Hshape as (fl & fi & Hfl & Hfi & Hlen).
  unfold process_answer. destruct answer as [answer|]; simpl.
  - unfold go_back, go_forward. destruct (truthy _).
    + destruct (pop_layers_shape self fl fi Hfl Hfi Hlen) as [Hfl' Hfi'].
      destruct (list_pop (previous_index l)) as [[i rest]|];
        (apply advance_ok;
         [exists (tail fl), (tail fi); split_and!; [done..|];
          by destruct fl, fi; simplify_eq/=
         |rewrite Hfi'; rewrite Hfi in Hall;
          apply Forall_app in Hall as [Hall1 Hall2];
          apply Forall_app; split; [by apply Forall_tail | done]]).
    + destruct (answer_layers _ _ _) as [[file_layer flag_layer]|e] eqn:Ha;
        simpl.
      * apply advance_ok; simpl.
        -- exists (flag_layer :: fl), (file_layer :: fi).
           rewrite Hfl, Hfi. simpl. by rewrite Hlen.
        -- apply Forall_cons. split; [|done].
           by eapply answer_layers_entries.
      * split; [|done]. unfold stores_ok. simpl. exists fl, fi. eauto.
  - split; [|done]. unfold stores_ok. simpl. exists fl, fi. eauto.
Qed.

Lemma send_ok self value :
  installer_ok root self → installer_ok root (send' self value).2.
Proof.
  intros [Hshape Hall]. unfold send. unfold stores_ok in Hshape.
  destruct (gen self) eqn:Hgen.
  - destruct Hshape as [Hfl Hfi]. destruct value; simpl.
    + split; [|done]. unfold stores_ok. by rewrite Hgen.
    + destruct (_assert_dependencies _ _ _ _ _) as [[]|e]; simpl.
      * split.
        -- unfold stores_ok. simpl. exists [], []. by rewrite Hfl, Hfi.
        -- apply Forall_cons. split; [apply collect_file_dict_entries | done].
      * split; [|done]. unfold stores_ok. simpl. exists [], []. rewrite Hfl, Hfi. eauto.
  - by apply advance_ok.
  - split; [|done]. unfold stores_ok. by simpl.
  - by apply process_answer_ok.
  - simpl. split; [|done]. unfold stores_ok. by rewrite Hgen.
Qed.

(** Every installer a caller can obtain keeps the base layers of its
    chains and holds only entries read from file items. *)
Lemma reachable_ok self : reachable' self → installer_ok root self.
Proof.
  induction 1 as [|self value _ IH].
  - split; [done|]. apply Forall_cons. split; [|done].
    by intros p b s d ?%lookup_empty_Some.
  - by apply send_ok.
Qed.

(** The layers around a request for the previous step: the chains end
    with their base layers, and the request takes one layer from each chain
    when there are layers over the base. *)
Lemma back_request_layers self :
  reachable' self →
  (∃ fl, _flag_states self = fl ++ [∅])
  ∧ (∃ fi, _collected_files self = fi ++ [∅])
  ∧ stores_ok root self
  ∧ ∀ l id_dict sd answer,
      gen self = AtAnswer l id_dict sd (Some answer) →
      truthy (default (VBool false) (answer !! "previous_step")) = true →
      ∃ fl fi extra,
        _flag_states self = fl ++ [∅]
        ∧ _collected_files self = fi ++ [required_layer root; ∅]
        ∧ length fl = length fi
        ∧ next' self = go_back path_exists uuid4 root dest game_version self l
        ∧ _flag_states (pop_layers self) = tail fl ++ [∅]
        ∧ _collected_files (pop_layers self) = tail fi ++ [required_layer root; ∅]
        ∧ _flag_states (next' self).2 = tail fl ++ [∅]
        ∧ _collected_files (next' self).2
          = extra ++ tail fi ++ [required_layer root; ∅]
        ∧ (is_ok (next' self).1 = true → extra = []).
Proof.
  intros Hreach. destruct (reachable_ok self Hreach) as [Hshape _].
  split_and!; [| |done|].
  - unfold stores_ok in Hshape. destruct (gen self).
    all: try (destruct Hshape as (fl & fi & Hfl & _); by exists fl).
    destruct Hshape as [Hfl _]. by exists [].
  - unfold stores_ok in Hshape. destruct (gen self).
    + destruct Hshape as [_ Hfi]. by exists [].
    + destruct Hshape as (fl & fi & _ & Hfi & _).
      exists (fi ++ [required_layer root]). by rewrite <- app_assoc.
    + destruct Hshape as (fl & fi & _ & Hfi & _).
      exists (fi ++ [required_layer root]). by rewrite <- app_assoc.
    + destruct Hshape as (fl & fi & _ & Hfi & _).
      exists (fi ++ [required_layer root]). by rewrite <- app_assoc.
    + destruct Hshape as (fl & fi & _ & [Hfi|Hfi]); [|by exists []].
      exists (fi ++ [required_layer root]). by rewrite <- app_assoc.
  - intros l id_dict sd answer Hgen Htruthy.
    unfold stores_ok in Hshape. rewrite Hgen in Hshape.
    destruct Hshape as (fl & fi & Hfl & Hfi & Hlen).
    destruct (pop_layers_shape self fl fi Hfl Hfi Hlen) as [Hfl' Hfi'].
    assert (Hnext : next' self
                    = go_back path_exists uuid4 root dest game_version self l).
    { unfold next, send. rewrite Hgen. unfold process_answer. by rewrite Htruthy. }
    assert (∃ l', go_back path_exists uuid4 root dest game_version self l
                  = advance' (pop_layers self) l') as [l' Hback].
    { unfold go_back. destruct (list_pop (previous_index l)) as [[i rest]|]; eauto. }
    destruct (advance_effect (pop_layers self) l')
      as [Hflags [(l2 & idd & sd2 & _ & Hres & Hfiles)
                 | (_ & Hres & extra & Hfiles & _)]].
    + exists fl, fi, []. rewrite Hnext, Hback, Hflags, Hfiles.
      split_and!; done.
    + exists fl, fi, extra. rewrite Hnext, Hback, Hflags, Hfiles, Hfi'.
      split_and!; try done. by rewrite Hres.
Qed.

(** The branch an answer takes is decided by the value bound to
    [previous_step]. *)
Lemma process_answer_branches self l id_dict sd answer :
  gen self = AtAnswer l id_dict sd (Some answer) →
  (truthy (default (VBool false) (answer !! "previous_step")) = false →
     next' self
     = go_forward path_exists uuid4 root dest game_version self l id_dict sd
                  (delete "previous_step" answer)
     ∧ next' self
       = process_answer' self l id_dict sd (Some (delete "previous_step" answer)))
  ∧ (truthy (default (VBool false) (answer !! "previous_step")) = true →
     next' self = go_back path_exists uuid4 root dest game_version self l
     ∧ ∀ answer',
         answer' !! "previous_step" = answer !! "previous_step" →
         process_answer' self l id_dict sd (Some answer') = next' self).
Proof.
  intros Hgen. unfold next, send. rewrite Hgen. unfold process_answer.
  split; intros Htruthy; rewrite Htruthy.
  - split; [done|]. rewrite lookup_delete_eq. simpl.
    by rewrite delete_delete_eq.
  - split; [done|]. intros answer' ->. by rewrite Htruthy.
Qed.
End engine_facts.

(** ** Validation of an answer *)

Lemma from_id_Ok {A} (id_of : A → string) entries id_ a :
  from_id id_of entries id_ = Ok a → a ∈ entries ∧ id_of a = id_.
Proof.
  unfold from_id. destruct (list_find _ entries) as [[i x]|] eqn:Hf; [|done].
  intros [= <-]. apply list_find_Some in Hf as (Hl & Hid & _).
  split; [|done]. by eapply list_elem_of_lookup_2.
Qed.

Lemma from_id_known {A} (id_of : A → string) entries id_ :
  (∃ p, p ∈ entries ∧ id_of p = id_) → ∃ a, from_id id_of entries id_ = Ok a.
Proof.
  intros (p & Hin & Hid). unfold from_id.
  destruct (list_find_elem_of (λ a, id_of a = id_) entries p Hin Hid) as [[i x] ->].
  eauto.
Qed.

Lemma selection_list answer group :
  entry_known answer group → ∃ l, selection answer group = VList l.
Proof.
  intros Hk. unfold selection. destruct (answer !! group_id group) as [v|] eqn:Hv.
  - destruct (Hk v Hv) as (l & -> & _). eauto.
  - eauto.
Qed.

(** The count test raises [ValueError] exactly when the count is broken. *)
Lemma check_count_cases answer group :
  named group → entry_known answer group →
  (check_count answer group = Ok () ∧ ¬ count_violated answer group)
  ∨ (∃ msg, check_count answer group = Raise (ValueError msg)
            ∧ count_violated answer group).
Proof.
  intros [Hname _] Hknown.
  destruct (selection_list answer group Hknown) as [l Hl].
  destruct (group_name group) as [n|] eqn:Hn; [|done].
  unfold check_count, count_error. fold (selection answer group).
  rewrite Hl, Hn. unfold count_violated. rewrite Hl. simpl.
  repeat case_bool_decide; simpl;
    try (right; eexists; split; [reflexivity|]; exists l; split; [done|];
         by eauto);
    left; (split; [done|]); intros (l' & [= <-] & [[? ?]|[[? ?]|[? ?]]]);
    try done; try lia; congruence.
Qed.

(** The test on the selected plugins raises [ValueError] exactly when one of
    them is not usable. *)
Lemma check_usable_cases answer group :
  named group → entry_known answer group →
  (check_usable answer group = Ok () ∧ ¬ selects_not_usable answer group)
  ∨ (∃ msg, check_usable answer group = Raise (ValueError msg)
            ∧ selects_not_usable answer group).
Proof.
  intros [_ Hnames] Hknown. unfold check_usable, selects_not_usable.
  destruct (answer !! group_id group) as [v|] eqn:Hv.
  - destruct (Hknown v Hv) as (l & -> & Hids). simpl.
    assert (Hloop : ∀ ids, (∀ id_, id_ ∈ ids → id_ ∈ l) →
      (foldlM (λ _ id_,
          plugin ← from_id plugin_id (group_plugins group) id_;
          if bool_decide (plugin_type plugin = Some "NotUsable")
          then msg ← quoted "" (plugin_name plugin) "cannot be selected.";
               Raise (ValueError msg)
          else Ok ()) () ids = Ok ()
       ∧ ¬ ∃ id_ plugin, id_ ∈ ids
             ∧ from_id plugin_id (group_plugins group) id_ = Ok plugin
             ∧ plugin_type plugin = Some "NotUsable")
      ∨ (∃ msg, foldlM (λ _ id_,
          plugin ← from_id plugin_id (group_plugins group) id_;
          if bool_decide (plugin_type plugin = Some "NotUsable")
          then msg ← quoted "" (plugin_name plugin) "cannot be selected.";
               Raise (ValueError msg)
          else Ok ()) () ids = Raise (ValueError msg)
         ∧ ∃ id_ plugin, id_ ∈ ids
             ∧ from_id plugin_id (group_plugins group) id_ = Ok plugin
             ∧ plugin_type plugin = Some "NotUsable")).
    { induction ids as [|id_ ids IH]; intros Hsub.
      - left. split; [done|]. by intros (? & ? & ?%elem_of_nil & _).
      - cbn [foldlM].
        destruct (from_id_known plugin_id (group_plugins group) id_) as [p Hp];
          [apply Hids, Hsub; left|].
        rewrite Hp. simpl. case_bool_decide as Hty.
        + right. apply from_id_Ok in Hp as Hp'. destruct Hp' as [Hin _].
          destruct (plugin_name p) as [n|] eqn:Hn; [|by destruct (Hnames p Hin)].
          simpl. eexists. split; [reflexivity|]. exists id_, p.
          split_and!; [left | done | done].
        + simpl. destruct IH as [[Hok Hnone]|(msg & Hraise & id' & p' & Hin' & ? & ?)].
          * intros ??. apply Hsub. by right.
          * left. split; [done|].
            intros (id' & p' & [->|Hin']%elem_of_cons & Hp' & Hty').
            -- rewrite Hp in Hp'. by simplify_eq.
            -- apply Hnone. eauto.
          * right. exists msg. split; [done|]. exists id', p'.
            split_and!; [by right | done | done]. }
    destruct (Hloop l) as [[Hok Hnone]|(msg & Hraise & id_ & p & ? & ? & ?)]; [done| |].
    + left. split; [done|]. intros (l' & id_ & p & [= <-] & ?). apply Hnone. eauto.
    + right. exists msg. split; [done|]. exists l, id_, p. done.
  - left. split; [done|]. by intros (l & ? & ? & ? & _).
Qed.

(** The loop that forces the required plugins in: it cannot fail on a list
    entry, touches the entry of its group only, and leaves every required
    plugin in that entry. *)
Lemma force_required_loop group : ∀ plugins (answer : answer_dict),
  (∀ p, p ∈ plugins → p ∈ group_plugins group) →
  entry_known answer group →
  ∃ answer',
    foldlM (λ answer plugin,
              if bool_decide (plugin_type plugin = Some "Required")
              then setdefault_append answer (group_id group) (plugin_id plugin)
              else Ok answer) answer plugins = Ok answer'
    ∧ (∀ k, k ≠ group_id group → answer' !! k = answer !! k)
    ∧ entry_known answer' group
    ∧ (∀ l id_, answer !! group_id group = Some (VList l) → id_ ∈ l →
         ∃ l', answer' !! group_id group = Some (VList l') ∧ id_ ∈ l')
    ∧ (∀ p, p ∈ plugins → plugin_type p = Some "Required" →
         ∃ l', answer' !! group_id group = Some (VList l') ∧ plugin_id p ∈ l').
Proof.
  induction plugins as [|p plugins IH]; intros answer Hsub Hknown.
  - exists answer. split_and!; [done..| |].
    + intros l id_ ??. eauto.
    + by intros p ?%elem_of_nil.
  - cbn [foldlM]. case_bool_decide as Hreq.
    + assert (∃ l1, setdefault_append answer (group_id group) (plugin_id p)
                    = Ok (<[group_id group := VList l1]> answer)
                    ∧ plugin_id p ∈ l1
                    ∧ (∀ l id_, answer !! group_id group = Some (VList l) →
                                id_ ∈ l → id_ ∈ l1)
                    ∧ (∀ id_, id_ ∈ l1 →
                         ∃ q, q ∈ group_plugins group ∧ plugin_id q = id_))
        as (l1 & Hset & Hp1 & Hmono & Hk1).
      { unfold setdefault_append.
        destruct (answer !! group_id group) as [v|] eqn:Hv.
        - destruct (Hknown v Hv) as (l & -> & Hids).
          exists (l ++ [plugin_id p]). split_and!; [done | set_solver | |].
          + intros l0 id_ [= <-] ?. set_solver.
          + intros id_ [?|Hx%list_elem_of_singleton]%elem_of_app; [eauto|].
            subst id_. exists p. split; [apply Hsub; left | done].
        - exists [plugin_id p]. split_and!; [done | set_solver | done |].
          intros id_ Hx%list_elem_of_singleton. subst id_.
          exists p. split; [apply Hsub; left | done]. }
      rewrite Hset. simpl.
      destruct (IH (<[group_id group := VList l1]> answer))
        as (answer' & Hfold & Hother & Hknown' & Hmono' & Hreq').
      { intros q ?. apply Hsub. by right. }
      { intros v. rewrite lookup_insert_eq. intros [= <-]. eauto. }
      exists answer'. split_and!; [done | | done | |].
      * intros k Hk. rewrite Hother by done. by rewrite lookup_insert_ne.
      * intros l id_ Hl Hin.
        apply (Hmono' l1 id_); [by rewrite lookup_insert_eq | by eapply Hmono].
      * intros q [->|Hq]%elem_of_cons Hq_req; [|by apply Hreq'].
        apply (Hmono' l1 (plugin_id p)); [by rewrite lookup_insert_eq | done].
    + simpl.
      destruct (IH answer) as (answer' & Hfold & Hother & Hknown' & Hmono' & Hreq');
        [intros q ?; apply Hsub; by right | done |].
      exists answer'. split_and!; [done..|].
      intros q [->|Hq]%elem_of_cons Hq_req; [done | by apply Hreq'].
Qed.

(** One group: a [ValueError] exactly when the group is broken; otherwise
    the answer changes at the entry of this group only, which then holds
    every required plugin. *)
Lemma validate_group_cases answer group :
  named group → entry_known answer group →
  (∃ msg, validate_group answer group = Raise (ValueError msg)
          ∧ (count_violated answer group ∨ selects_not_usable answer group))
  ∨ (∃ answer',
       validate_group answer group = Ok answer'
       ∧ ¬ (count_violated answer group ∨ selects_not_usable answer group)
       ∧ (∀ k, k ≠ group_id group → answer' !! k = answer !! k)
       ∧ entry_known answer' group
       ∧ (∀ p, p ∈ group_plugins group → plugin_type p = Some "Required" →
            ∃ l, answer' !! group_id group = Some (VList l) ∧ plugin_id p ∈ l)).
Proof.
  intros Hnamed Hknown. unfold validate_group.
  destruct (check_count_cases answer group Hnamed Hknown)
    as [[-> Hcount]|(msg & -> & Hcount)]; [|left; eauto].
  destruct (check_usable_cases answer group Hnamed Hknown)
    as [[-> Husable]|(msg & -> & Husable)]; [|left; eauto].
  right. simpl.
  set (answer1 := if bool_decide (group_type group = Some "SelectAll")
                  then <[group_id group := VList (map plugin_id (group_plugins group))]> answer
                  else answer).
  assert (Hknown1 : entry_known answer1 group).
  { unfold answer1. case_bool_decide; [|done].
    intros v. rewrite lookup_insert_eq. intros [= <-]. eexists. split; [done|].
    intros id_ (p & -> & Hp)%list_elem_of_fmap. eauto. }
  destruct (force_required_loop group (group_plugins group) answer1)
    as (answer' & Hfold & Hother & Hknown' & _ & Hreq); [done | done |].
  exists answer'. split_and!; [done | tauto | | done | done].
  intros k Hk. rewrite Hother by done. unfold answer1.
  case_bool_decide; [by rewrite lookup_insert_ne | done].
Qed.

Lemma broken_depends_on_entry (answer1 answer2 : answer_dict) group :
  answer1 !! group_id group = answer2 !! group_id group →
  count_violated answer1 group ∨ selects_not_usable answer1 group →
  count_violated answer2 group ∨ selects_not_usable answer2 group.
Proof.
  unfold count_violated, selects_not_usable, selection. by intros ->.
Qed.

Lemma entry_known_depends_on_entry (answer1 answer2 : answer_dict) group :
  answer1 !! group_id group = answer2 !! group_id group →
  entry_known answer1 group → entry_known answer2 group.
Proof. unfold entry_known. by intros ->. Qed.

(** The loop over the groups: a [ValueError] exactly when some group is
    broken by the caller's own selection; otherwise every entry of a group
    is a list of its plugins that holds the required ones, and no other key
    has changed. *)
Lemma validate_loop : ∀ groups (answer : answer_dict),
  NoDup (map group_id groups) →
  (∀ g, g ∈ groups → named g ∧ entry_known answer g) →
  (∃ msg, foldlM validate_group answer groups = Raise (ValueError msg)
          ∧ ∃ g, g ∈ groups
                 ∧ (count_violated answer g ∨ selects_not_usable answer g))
  ∨ (∃ answer',
       foldlM validate_group answer groups = Ok answer'
       ∧ (∀ g, g ∈ groups →
            ¬ (count_violated answer g ∨ selects_not_usable answer g))
       ∧ (∀ k, k ∉ map group_id groups → answer' !! k = answer !! k)
       ∧ (∀ g, g ∈ groups →
            entry_known answer' g
            ∧ ∀ p, p ∈ group_plugins g → plugin_type p = Some "Required" →
                   ∃ l, answer' !! group_id g = Some (VList l) ∧ plugin_id p ∈ l)).
Proof.
  induction groups as [|g groups IH]; intros answer Hnodup Hwf.
  - right. exists answer. split_and!; [done | | done |]; by intros g ?%elem_of_nil.
  - cbn [foldlM]. cbn [map] in Hnodup. apply NoDup_cons in Hnodup as [Hfresh Hnodup].
    destruct (Hwf g) as [Hnamed Hknown]; [left|].
    destruct (validate_group_cases answer g Hnamed Hknown)
      as [(msg & -> & Hbad)|(a1 & -> & Hgood & Hother & Hknown1 & Hreq1)].
    { left. exists msg. split; [done|]. exists g. split; [left | done]. }
    simpl.
    assert (Hsame : ∀ g', g' ∈ groups → a1 !! group_id g' = answer !! group_id g').
    { intros g' Hin. apply Hother. intros Heq. apply Hfresh. rewrite <- Heq.
      apply list_elem_of_fmap. eauto. }
    destruct (IH a1 Hnodup)
      as [(msg & -> & g' & Hin & Hbad)|(answer' & -> & Hgood' & Hother' & Hall)].
    { intros g' Hin. destruct (Hwf g') as [??]; [by right|]. split; [done|].
      eapply entry_known_depends_on_entry; [symmetry; by apply Hsame | done]. }
    + left. exists msg. split; [done|]. exists g'. split; [by right|].
      eapply broken_depends_on_entry; [by apply Hsame | done].
    + right. exists answer'. split_and!; [done | | |].
      * intros g' [->|Hin]%elem_of_cons; [done|]. intros Hbad.
        apply (Hgood' g' Hin).
        eapply broken_depends_on_entry; [symmetry; by apply Hsame | done].
      * intros k Hk. cbn [map] in Hk. apply not_elem_of_cons in Hk as [Hk1 Hk2].
        rewrite Hother' by done. by apply Hother.
      * intros g' [->|Hin]%elem_of_cons; [|by apply Hall].
        assert (answer' !! group_id g = a1 !! group_id g) as Heq by by apply Hother'.
        split.
        -- eapply entry_known_depends_on_entry; [symmetry; exact Heq | done].
        -- intros p Hp Hty. rewrite Heq. by apply Hreq1.
Qed.

(** ** Sorting an answer *)

Lemma mapM'_ok {A B} (f : A → result B) (P : A → B → Prop) l :
  (∀ a, a ∈ l → ∃ b, f a = Ok b ∧ P a b) →
  ∃ bs, mapM' f l = Ok bs ∧ Forall2 P l bs.
Proof.
  induction l as [|a l IH]; intros Hf; simpl.
  - exists []. by split.
  - destruct (Hf a) as (b & -> & Hb); [left|].
    destruct IH as (bs & -> & Hbs); [intros ??; apply Hf; by right|].
    simpl. exists (b :: bs). split; [done|]. by constructor.
Qed.

Lemma from_id_unique {A} (id_of : A → string) entries a :
  NoDup (map id_of entries) → a ∈ entries →
  from_id id_of entries (id_of a) = Ok a.
Proof.
  intros Hnodup Hin.
  destruct (from_id_known id_of entries (id_of a)) as [b Hb]; [eauto|].
  rewrite Hb. f_equal. apply from_id_Ok in Hb as [Hb Hid].
  clear -Hnodup Hin Hb Hid.
  induction entries as [|x entries IH]; [by apply elem_of_nil in Hin|].
  cbn [map] in Hnodup. apply NoDup_cons in Hnodup as [Hfresh Hnodup].
  apply elem_of_cons in Hin as [->|Hin]; apply elem_of_cons in Hb as [->|Hb];
    try done.
  - exfalso. apply Hfresh. rewrite <- Hid. apply list_elem_of_fmap. eauto.
  - exfalso. apply Hfresh. rewrite Hid. apply list_elem_of_fmap. eauto.
  - by apply IH.
Qed.

Lemma id_sort_known `{EqDecision A} (id_of : A → string) entries id_ :
  (∃ p, p ∈ entries ∧ id_of p = id_) → ∃ k, id_sort id_of entries id_ = Ok k.
Proof.
  intros Hknown. unfold id_sort.
  destruct (from_id_known id_of entries id_ Hknown) as [a Ha]. rewrite Ha. simpl.
  apply from_id_Ok in Ha as [Hin _]. unfold list_index.
  destruct (list_find_elem_of (λ x, x = a) entries a Hin eq_refl) as [[i x] ->].
  eauto.
Qed.

Lemma sorted_by_key_perm {A} (keyed : list (nat * A)) :
  sorted_by_key keyed ≡ₚ keyed.*2.
Proof. unfold sorted_by_key. by rewrite sorted_perm. Qed.

(** Sorting the selection of a known group keeps exactly the identifiers
    selected. *)
Lemma sort_selection_ok sd group l :
  NoDup (map group_id (step_groups sd)) → group ∈ step_groups sd →
  (∀ id_, id_ ∈ l → ∃ p, p ∈ group_plugins group ∧ plugin_id p = id_) →
  ∃ ids, sort_selection sd (group_id group) (VList l) = Ok ids
         ∧ ∀ id_, id_ ∈ ids ↔ id_ ∈ l.
Proof.
  intros Hnodup Hin Hknown. unfold sort_selection.
  rewrite (from_id_unique group_id (step_groups sd) group Hnodup Hin). simpl.
  destruct (mapM'_ok
              (λ x, k ← id_sort plugin_id (group_plugins group) x; Ok (k, x))
              (λ x kx, kx.2 = x) (remove_dups l)) as (keyed & -> & Hkeyed).
  { intros x Hx. rewrite elem_of_remove_dups in Hx.
    destruct (id_sort_known plugin_id (group_plugins group) x (Hknown x Hx))
      as [k ->]. simpl. eauto. }
  simpl. eexists. split; [done|]. intros id_.
  rewrite sorted_by_key_perm.
  assert (keyed.*2 = remove_dups l) as ->.
  { clear -Hkeyed. induction Hkeyed as [|x kx xs kxs Hx _ IH]; [done|].
    rewrite fmap_cons. by rewrite Hx, IH. }
  apply elem_of_remove_dups.
Qed.

(** A validated answer is sorted without failure, and the sorted answer
    holds, for each group of the answer, all the identifiers of its entry. *)
Lemma normalize_ok sd (answer : answer_dict) :
  NoDup (map group_id (step_groups sd)) →
  (∀ key, is_Some (answer !! key) → key ∈ map group_id (step_groups sd)) →
  (∀ g, g ∈ step_groups sd → entry_known answer g) →
  ∃ normalized,
    normalize sd answer = Ok normalized
    ∧ ∀ g l, g ∈ step_groups sd → answer !! group_id g = Some (VList l) →
             ∃ ids, (group_id g, ids) ∈ normalized ∧ ∀ id_, id_ ∈ ids ↔ id_ ∈ l.
Proof.
  intros Hnodup Hkeys Hknown. unfold normalize.
  destruct (mapM'_ok
              (λ '(gid, v), ids ← sort_selection sd gid v; Ok (gid, ids))
              (λ gv item, item.1 = gv.1
                          ∧ ∃ l, gv.2 = VList l ∧ ∀ id_, id_ ∈ item.2 ↔ id_ ∈ l)
              (map_to_list answer)) as (items & -> & Hitems).
  { intros [gid v] Hgv%elem_of_map_to_list.
    assert (Hgid : gid ∈ map group_id (step_groups sd)) by (apply Hkeys; eauto).
    apply list_elem_of_fmap in Hgid as (g & -> & Hg).
    destruct (Hknown g Hg v Hgv) as (l & -> & Hl).
    destruct (sort_selection_ok sd g l Hnodup Hg Hl) as (ids & -> & Hids).
    simpl. eexists. split; [done|]. simpl. eauto. }
  simpl.
  destruct (mapM'_ok
              (λ item : string * list string,
                 k ← id_sort group_id (step_groups sd) item.1; Ok (k, item))
              (λ item kitem, kitem.2 = item) items) as (keyed & -> & Hkeyed).
  { intros item Hitem.
    apply list_elem_of_lookup in Hitem as [i Hi].
    destruct (Forall2_lookup_r _ _ _ _ _ Hitems Hi) as ([gid v] & Hgv & Heq & _).
    apply list_elem_of_lookup_2, elem_of_map_to_list in Hgv.
    destruct (id_sort_known group_id (step_groups sd) item.1) as [k ->].
    { simpl in Heq. rewrite Heq.
      assert (Hgid : gid ∈ map group_id (step_groups sd)) by (apply Hkeys; eauto).
      apply list_elem_of_fmap in Hgid as (g & -> & Hg). eauto. }
    simpl. eauto. }
  simpl. eexists. split; [done|]. intros g l Hg Hl.
  assert (keyed.*2 = items) as Hsnd.
  { clear -Hkeyed. induction Hkeyed as [|x kx xs kxs Hx _ IH]; [done|].
    rewrite fmap_cons. by rewrite Hx, IH. }
  apply elem_of_map_to_list, list_elem_of_lookup in Hl as [i Hi].
  destruct (Forall2_lookup_l _ _ _ _ _ Hitems Hi) as ([gid ids] & Hitem & Heq & Hids).
  simpl in Heq. subst gid. destruct Hids as (l' & [= <-] & Hids).
  exists ids. split; [|done].
  rewrite sorted_by_key_perm, Hsnd. by eapply list_elem_of_lookup_2.
Qed.

(** C5.  For an answer built from the step, validation raises [ValueError]
    exactly when, for some group, the number of identifiers the caller
    selected breaks the kind of the group or the caller selected a plugin
    that is not usable; it raises nothing else.  The counts are those of the
    caller's own selection: when validation succeeds, the answer is sorted
    without failure and every required plugin of every group is in the
    sorted answer, selected or not. *)
Theorem validation_checks_raw_selection sd (answer : answer_dict) :
  answer_well_formed sd answer →
  ((∃ msg, validate sd answer = Raise (ValueError msg))
   ↔ ∃ group, group ∈ step_groups sd
              ∧ (count_violated answer group ∨ selects_not_usable answer group))
  ∧ (∀ e, validate sd answer = Raise e → ∃ msg, e = ValueError msg)
  ∧ (∀ answer',
       validate sd answer = Ok answer' →
       ∃ normalized,
         normalize sd answer' = Ok normalized
         ∧ ∀ group plugin,
             group ∈ step_groups sd → plugin ∈ group_plugins group →
             plugin_type plugin = Some "Required" →
             ∃ ids, (group_id group, ids) ∈ normalized ∧ plugin_id plugin ∈ ids).
Proof.
  intros (Hnodup & Hgroups & Hkeys). unfold validate.
  destruct (validate_loop (step_groups sd) answer Hnodup Hgroups)
    as [(msg & Hraise & Hbad)|(answer' & Hok & Hgood & Hother & Hall)].
  - rewrite Hraise. split_and!.
    + split; [done | eauto].
    + intros e [= <-]. eauto.
    + done.
  - rewrite Hok. split_and!.
    + split; [by intros [??]|]. intros (g & Hg & Hbad). by destruct (Hgood g Hg).
    + done.
    + intros ? [= <-].
      destruct (normalize_ok sd answer' Hnodup) as (normalized & Hnorm & Hin).
      { intros key Hkey.
        destruct (decide (key ∈ map group_id (step_groups sd))) as [|Hnot]; [done|].
        apply Hkeys. by rewrite <- (Hother key Hnot). }
      { intros g Hg. by apply Hall. }
      exists normalized. split; [done|]. intros g p Hg Hp Hreq.
      destruct (Hall g Hg) as [_ Hforced].
      destruct (Hforced p Hp Hreq) as (l & Hl & Hpl).
      destruct (Hin g l Hg Hl) as (ids & Hids & Hsame).
      exists ids. split; [done|]. by apply Hsame.
Qed.

Import ValidationSamples.

Lemma sample_answer_well_formed : answer_well_formed one_step only_a.
Proof.
  split_and!.
  - simpl. repeat constructor. by intros ?%elem_of_nil.
  - intros g Hg%list_elem_of_singleton. subst g. split.
    + split; [done|]. intros p Hp. simpl in Hp.
      apply elem_of_cons in Hp as [->|Hp]; [done|].
      apply list_elem_of_singleton in Hp. by subst p.
    + intros v Hv. simpl in Hv. unfold only_a in Hv.
      apply lookup_singleton_Some in Hv as [_ <-].
      exists ["a"]. split; [done|]. intros id_ Hid%list_elem_of_singleton.
      subst id_. exists option_a. split; [left | done].
  - intros key [v Hv]. unfold only_a in Hv.
    apply lookup_singleton_Some in Hv as [<- _]. simpl. left.
Defined.

(** The caller selected one plugin of an exactly-one group, as required; the
    sorted answer holds two, the second one forced in. *)
Lemma validation_checks_raw_selection_witness :
  (validate one_step only_a ≫= normalize one_step) = Ok [("g", ["a"; "b"])]
  ∧ ∃ normalized ids,
      (validate one_step only_a ≫= normalize one_step) = Ok normalized
      ∧ ("g", ids) ∈ normalized ∧ "b" ∈ ids.
Proof.
  split; [by vm_compute|].
  destruct (validation_checks_raw_selection one_step only_a
              sample_answer_well_formed) as (_ & _ & Hforced).
  destruct (validate one_step only_a) as [answer'|e] eqn:Hv; [|by vm_compute in Hv].
  destruct (Hforced answer' eq_refl) as (normalized & Hnorm & Hreq).
  destruct (Hreq one_of required_b) as (ids & Hin & Hb); [left | right; left | done |].
  exists normalized, ids. simpl. by rewrite Hnorm.
Defined.

(** ** The end-to-end sample *)

Import Samples Scenario.

Lemma final_reachable :
  reachable no_files numbered config None None final.
Proof.
  unfold final, answered, at_step, primed, send'.
  do 4 apply reachable_send. apply reachable_init.
Defined.

(** C1 as stated fails: after the answer that selects B, the dictionary is
    not the one that sends data/b.txt to b.txt, and it has no entry under
    the destination data/b.txt. *)
Lemma destination_keyed_counterexample :
  (collected_files final).1 ≠ {[ Some "data/b.txt" := "b.txt" ]}
  ∧ (collected_files final).1 !! Some "data/b.txt" = None
  ∧ (collected_files final).1 !! Some "b.txt" = Some "data/b.txt".
Proof.
  split; [|by vm_compute].
  intros Heq. apply (f_equal (λ m : prio_dict, m !! Some "b.txt")) in Heq.
  by vm_compute in Heq.
Qed.

Lemma asked_back_reachable :
  reachable no_files numbered config None None asked_back.
Proof.
  unfold asked_back, at_step, primed, send'.
  do 3 apply reachable_send. apply reachable_init.
Defined.

(** ** More on the dependency check *)

Section more_dependency_facts.
Variable path_exists : string → string → bool.
Variable flag_states_get : option string → string → string.
Variable dest : option string.
Variable game_version : option string.

Local Abbreviation assert_element' :=
  (assert_element path_exists flag_states_get dest game_version).
Local Abbreviation check1 :=
  (check_dependency path_exists flag_states_get dest game_version assert_element').
Local Abbreviation satisfied' :=
  (satisfied path_exists flag_states_get dest game_version).
Local Abbreviation quiet' := (quiet path_exists flag_states_get dest game_version).
Local Abbreviation misses' := (misses path_exists flag_states_get dest game_version).

Lemma quiet_cases check :
  quiet' check → satisfied' check ∨ ∃ t, misses' check t.
Proof.
  unfold quiet, satisfied, misses.
  destruct (check1 check) as [[|[|ty e a]]|e]; simpl; intros Hq; try done.
  - left. by left.
  - left. by right.
  - right. exists (Triple ty e a). split; reflexivity.
Qed.

Lemma satisfied_not_misses check t : satisfied' check → ¬ misses' check t.
Proof.
  unfold satisfied, misses. intros [H|H] [Ht H']; rewrite H in H'; by simplify_eq.
Qed.

(** Without the operator [And] the loop raises nothing before its end: it
    counts the quiet checks that leave a triple and remembers the last
    value of [missed_dep]. *)
Lemma check_loop_no_and operator len : ∀ checks missed_dep num,
  operator ≠ "And" →
  Forall quiet' checks →
  ∃ missed_dep' num',
    check_loop check1 operator len checks missed_dep num
    = check_loop check1 operator len [] missed_dep' num'
    ∧ num ≤ num' ≤ num + length checks
    ∧ (num' = num + length checks ↔ Forall (λ c, ∃ t, misses' c t) checks)
    ∧ (∀ cs c, checks = cs ++ [c] →
         (satisfied' c → missed_dep' = Some Empty)
         ∧ (∀ t, misses' c t → missed_dep' = Some t))
    ∧ (checks = [] → missed_dep' = missed_dep).
Proof.
  intros checks missed_dep num Hop Hquiet. revert missed_dep num.
  induction Hquiet as [|c checks Hc _ IH]; intros missed_dep num.
  - exists missed_dep, num.
    refine (conj _ (conj _ (conj _ (conj _ _)))); [done | simpl; lia | | | done].
    + split; [done | simpl; lia].
    + intros cs c Hnil. by destruct cs.
  - cbn [check_loop].
    rewrite (bool_decide_eq_false_2 (operator = "And")) by done. cbn [andb].
    destruct (quiet_cases c Hc) as [Hsat|[t [Ht Hmiss]]].
    + assert (∃ md1, (c0 ← check1 c;
                match c0 with
                | Continue => check_loop check1 operator len checks (Some Empty) num
                | Fallthrough t =>
                    check_loop check1 operator len checks (Some t)
                      (if truthy_tuple t then S num else num)
                end) = check_loop check1 operator len checks (Some md1) num
               ∧ md1 = Empty) as (md1 & -> & ->).
      { destruct Hsat as [-> | ->]; simpl; eauto. }
      destruct (IH (Some Empty) num) as (md' & num' & -> & Hle & Hall & Hlast & Hnil).
      exists md', num'.
      refine (conj _ (conj _ (conj _ (conj _ _)))); [done | simpl; lia | | | done].
      * split.
        -- intros Hn. simpl in Hn. lia.
        -- intros Hf. apply Forall_cons in Hf as [[t Ht] _].
           by destruct (satisfied_not_misses c t).
      * intros cs c' Heq. destruct cs as [|c0 cs]; simplify_eq/=.
        -- rewrite (Hnil eq_refl). split; [done|].
           intros t Ht. by destruct (satisfied_not_misses c' t).
        -- by apply (Hlast cs c').
    + rewrite Hmiss. simpl. rewrite Ht.
      destruct (IH (Some t) (S num)) as (md' & num' & -> & Hle & Hall & Hlast & Hnil).
      exists md', num'.
      refine (conj _ (conj _ (conj _ (conj _ _)))); [done | simpl; lia | | | done].
      * rewrite Forall_cons. simpl. split.
        -- intros Hn. split; [by exists t|]. apply Hall. lia.
        -- intros [_ Hf]. apply Hall in Hf. lia.
      * intros cs c' Heq. destruct cs as [|c0 cs]; simplify_eq/=.
        -- rewrite (Hnil eq_refl). split.
           ++ intros Hsat. by destruct (satisfied_not_misses c' t).
           ++ intros t' [_ Ht']. rewrite Hmiss in Ht'. by simplify_eq.
        -- by apply (Hlast cs c').
Qed.

Lemma quiet_all_miss_or_some_satisfied checks :
  Forall quiet' checks →
  Forall (λ c, ∃ t, misses' c t) checks ∨ Exists satisfied' checks.
Proof.
  induction 1 as [|c checks Hc _ [IH|IH]].
  - by left.
  - destruct (quiet_cases c Hc) as [?|?].
    + right. by left.
    + left. by constructor.
  - right. by right.
Qed.

(** X1.  In a composite whose operator is [Or] and whose children are all
    quiet, the call succeeds exactly when some child is satisfied; and when
    no child is, it raises what the triple of the last child gives. *)
Theorem or_of_quiet_children depend :
  get_default depend "operator" "And" = "Or" →
  Forall quiet' (children depend) →
  (assert_element' depend = Ok () ↔ Exists satisfied' (children depend))
  ∧ (∀ cs c t,
       children depend = cs ++ [c] →
       Forall (λ c, ¬ satisfied' c) (children depend) →
       misses' c t →
       assert_element' depend = Raise (raise_MissingDependency t)).
Proof.
  intros Hop Hquiet. rewrite assert_element_unfold, Hop.
  destruct (check_loop_no_and "Or" (length (children depend)) (children depend)
              None 0 ltac:(done) Hquiet)
    as (md & num & -> & _ & Hall & Hlast & _).
  cbn [check_loop]. rewrite (bool_decide_eq_true_2 ("Or" = "Or")) by done.
  cbn [andb]. split.
  - split.
    + case_bool_decide as Hnum; [by destruct md|]. intros _.
      destruct (quiet_all_miss_or_some_satisfied _ Hquiet) as [Hmiss|?]; [|done].
      apply Hall in Hmiss. simpl in Hmiss. lia.
    + intros Hex. rewrite bool_decide_eq_false_2; [done|].
      intros Hnum. simpl in Hall. apply Hall in Hnum.
      apply Exists_exists in Hex as (c & Hin & Hsat).
      rewrite Forall_forall in Hnum. destruct (Hnum c Hin) as [t Ht].
      by destruct (satisfied_not_misses c t).
  - intros cs c t Hch Hnone Hmiss.
    destruct (quiet_all_miss_or_some_satisfied _ Hquiet) as [Hall_miss|Hex].
    + apply Hall in Hall_miss. simpl in Hall_miss.
      rewrite bool_decide_eq_true_2 by done.
      destruct (Hlast cs c Hch) as [_ Hmd]. by rewrite (Hmd t Hmiss).
    + apply Exists_exists in Hex as (c' & Hin & Hsat).
      rewrite Forall_forall in Hnone. by destruct (Hnone c' Hin).
Qed.

(** X2.  With an operator that is neither [And] nor [Or], quiet children
    never make the call fail: the triples they leave are dropped. *)
Theorem unknown_operator_never_fails depend :
  get_default depend "operator" "And" ≠ "And" →
  get_default depend "operator" "And" ≠ "Or" →
  Forall quiet' (children depend) →
  assert_element' depend = Ok ().
Proof.
  intros Hand Hor Hquiet. rewrite assert_element_unfold.
  destruct (check_loop_no_and _ (length (children depend)) (children depend)
              None 0 Hand Hquiet) as (md & num & -> & _).
  cbn [check_loop]. by rewrite (bool_decide_eq_false_2 _ Hor).
Qed.
End more_dependency_facts.

(** X3.  What the caller does not provide is assumed to be met: without a
    target directory and without a game version, a composite that holds
    only game and file checks succeeds, whatever the file system, the flags
    and the operator; only an [Or] without children fails. *)
Theorem unprovided_facts_are_met path_exists flag_states_get depend :
  Forall (λ c, tag c = "gameDependency" ∨ tag c = "fileDependency")
         (children depend) →
  (get_default depend "operator" "And" = "Or" → children depend ≠ []) →
  assert_element path_exists flag_states_get None None depend = Ok ().
Proof.
  intros Htags Hne.
  assert (Hcont : Forall (λ c, check_dependency path_exists flag_states_get None None
                     (assert_element path_exists flag_states_get None None) c
                   = Ok Continue) (children depend)).
  { eapply Forall_impl; [exact Htags|]. intros c [Ht|Ht]; unfold check_dependency.
    - by rewrite Ht.
    - rewrite Ht. by case_bool_decide. }
  assert (Hsat : Forall (satisfied path_exists flag_states_get None None)
                        (children depend)).
  { eapply Forall_impl; [exact Hcont|]. intros c Hc. by left. }
  assert (Hquiet : Forall (quiet path_exists flag_states_get None None)
                          (children depend)).
  { eapply Forall_impl; [exact Hcont|]. intros c Hc. unfold quiet. by rewrite Hc. }
  destruct (decide (get_default depend "operator" "And" = "And")) as [Hand|Hand].
  - rewrite assert_element_unfold, Hand.
    destruct (check_loop_and_skip path_exists flag_states_get None None
                (length (children depend)) (children depend) [] None 0 Hsat)
      as (md & num & Heq & _).
    rewrite app_nil_r in Heq. by rewrite Heq.
  - rewrite assert_element_unfold.
    destruct (check_loop_no_and path_exists flag_states_get None None _
                (length (children depend)) (children depend) None 0 Hand Hquiet)
      as (md & num & -> & _ & Hall & _).
    cbn [check_loop]. case_bool_decide as Hor; [|done]. cbn [andb].
    rewrite bool_decide_eq_false_2; [done|].
    intros Hnum. simpl in Hall. apply Hall in Hnum.
    specialize (Hne Hor). destruct (children depend) as [|c cs]; [done|].
    apply Forall_cons in Hnum as [[t Ht] _]. apply Forall_cons in Hsat as [Hc _].
    by destruct (satisfied_not_misses path_exists flag_states_get None None c t).
Qed.

Import Samples MoreSamples.

Lemma or_of_quiet_children_witness :
  assert_element no_files no_flags None None or_leaves = Ok ()
  ∧ assert_element no_files no_flags None None or_failing
    = Raise (MissingDependency "Flag" "2" "").
Proof.
  split.
  - apply (or_of_quiet_children no_files no_flags None None or_leaves).
    + reflexivity.
    + repeat (apply List.Forall_cons; [reflexivity|]). apply List.Forall_nil.
    + right. left. right. reflexivity.
  - apply (proj2 (or_of_quiet_children no_files no_flags None None or_failing
                    eq_refl
                    ltac:(repeat (apply List.Forall_cons; [reflexivity|]);
                          apply List.Forall_nil))
             [flagDependency "a" "1"] (flagDependency "c" "2")
             (Triple "Flag" (Some "2") (Some ""))).
    + reflexivity.
    + repeat (apply List.Forall_cons;
              [intros [H|H]; vm_compute in H; discriminate H|]).
      apply List.Forall_nil.
    + split; reflexivity.
Defined.

Lemma unknown_operator_never_fails_witness :
  assert_element no_files no_flags None None xor_failing = Ok ().
Proof.
  apply (unknown_operator_never_fails no_files no_flags None None xor_failing).
  - vm_compute. discriminate.
  - vm_compute. discriminate.
  - apply List.Forall_cons; [reflexivity | apply List.Forall_nil].
Defined.

Lemma unprovided_facts_are_met_witness :
  assert_element (λ _ _, true) no_flags None None game_and_file = Ok ().
Proof.
  apply (unprovided_facts_are_met (λ _ _, true) no_flags game_and_file).
  - apply List.Forall_cons; [by left|].
    apply List.Forall_cons; [by right | apply List.Forall_nil].
  - intros _. discriminate.
Defined.

(** ** Order of versions *)

Lemma cmp_list_refl (l : list component) : cmp_list l l = Eq.
Proof. induction l as [|x l IH]; simpl; [done|]. by rewrite cmp_component_refl. Qed.

Lemma cmp_component_antisym a b :
  cmp_component a b = CompOpp (cmp_component b a).
Proof.
  destruct a, b; simpl; try done.
  - apply N.compare_antisym.
  - apply String.compare_antisym.
Qed.

Lemma cmp_list_antisym a : ∀ b, cmp_list a b = CompOpp (cmp_list b a).
Proof.
  induction a as [|x a IH]; intros [|y b]; simpl; try done.
  rewrite (cmp_component_antisym x y).
  destruct (cmp_component y x); simpl; [apply IH | done | done].
Qed.

Lemma cmp_component_eq a b : cmp_component a b = Eq → a = b.
Proof.
  destruct a, b; simpl; try done.
  - by intros ->%N.compare_eq.
  - by intros ->%String.compare_eq_iff.
Qed.

Lemma string_compare_lt_trans a b c :
  String.compare a b = Lt → String.compare b c = Lt → String.compare a c = Lt.
Proof.
  intros Hab Hbc.
  assert (String.le a b) as Hle1 by (unfold String.le, String.leb; by rewrite Hab).
  assert (String.le b c) as Hle2 by (unfold String.le, String.leb; by rewrite Hbc).
  assert (String.le a c) as Hle by by etrans.
  unfold String.le, String.leb in Hle.
  destruct (String.compare a c) eqn:Hac; [|done|done].
  apply String.compare_eq_iff in Hac as ->.
  assert (b = c) as -> by by apply (anti_symm String.le).
  by rewrite string_compare_refl in Hbc.
Qed.

Lemma cmp_component_lt_trans a b c :
  cmp_component a b = Lt → cmp_component b c = Lt → cmp_component a c = Lt.
Proof.
  destruct a, b, c; simpl; try done.
  - rewrite !N.compare_lt_iff. lia.
  - apply string_compare_lt_trans.
Qed.

Lemma cmp_list_lt_trans a : ∀ b c,
  cmp_list a b = Lt → cmp_list b c = Lt → cmp_list a c = Lt.
Proof.
  induction a as [|x a IH]; intros [|y b] [|z c]; simpl; try done.
  destruct (cmp_component x y) eqn:Hxy; [|clear IH|done];
    destruct (cmp_component y z) eqn:Hyz; try done.
  - apply cmp_component_eq in Hxy as ->. rewrite Hyz. apply IH.
  - apply cmp_component_eq in Hxy as ->. by rewrite Hyz.
  - apply cmp_component_eq in Hyz as <-. by rewrite Hxy.
  - by rewrite (cmp_component_lt_trans x y z).
Qed.

Lemma cmp_list_eq a : ∀ b, cmp_list a b = Eq → a = b.
Proof.
  induction a as [|x a IH]; intros [|y b]; simpl; try done.
  destruct (cmp_component x y) eqn:Hxy; try done.
  apply cmp_component_eq in Hxy as ->. by intros ->%IH.
Qed.

Lemma meets_iff game required :
  game ≠ "" → required ≠ "" →
  meets game required ↔ cmp_list (parse game) (parse required) ≠ Lt.
Proof.
  intros Hg Hr. unfold meets, LooseVersion_lt, LooseVersion_cmp, LooseVersion.
  destruct game; [done|]. destruct required; [done|]. simpl.
  destruct (cmp_list _ _); split; congruence.
Qed.

Lemma game_check_satisfied_iff path_exists flag_states_get dest game required check :
  tag check = "gameDependency" → get check "version" = Some required →
  satisfied path_exists flag_states_get dest (Some game) check ↔ meets game required.
Proof.
  intros Htag Hver. unfold satisfied, check_dependency, meets.
  rewrite Htag, Hver. simpl.
  destruct (LooseVersion_lt _ _) as [[]|e]; simpl; split; try done;
    try (by intros [?|?]); auto.
Qed.

(** X4.  On non-empty version strings the requirement of a game check is a
    total preorder: the check is satisfied exactly when the game version
    meets the required one; a version meets itself; of two versions one
    meets the other; and a version that meets a second one meets whatever
    the second one meets, so that an upgrade of the game never breaks a
    version requirement. *)
Theorem version_requirement_preorder (v1 v2 v3 : string) :
  v1 ≠ "" → v2 ≠ "" → v3 ≠ "" →
  (∀ path_exists flag_states_get dest check,
     tag check = "gameDependency" → get check "version" = Some v2 →
     satisfied path_exists flag_states_get dest (Some v1) check ↔ meets v1 v2)
  ∧ meets v1 v1
  ∧ (meets v1 v2 ∨ meets v2 v1)
  ∧ (meets v1 v2 → meets v2 v3 → meets v1 v3).
Proof.
  intros H1 H2 H3.
  split; [intros; by apply game_check_satisfied_iff|].
  rewrite !meets_iff by done. split_and!.
  - by rewrite cmp_list_refl.
  - rewrite (cmp_list_antisym (parse v2) (parse v1)).
    destruct (cmp_list (parse v1) (parse v2)); simpl; auto.
  - intros H12 H23 H13.
    rewrite (cmp_list_antisym (parse v1) (parse v2)) in H12.
    rewrite (cmp_list_antisym (parse v2) (parse v3)) in H23.
    destruct (cmp_list (parse v2) (parse v1)) eqn:E21; [| |done].
    + apply cmp_list_eq in E21. rewrite <- E21 in H13.
      rewrite (cmp_list_antisym (parse v2) (parse v3)) in H13.
      by destruct (cmp_list (parse v3) (parse v2)).
    + destruct (cmp_list (parse v3) (parse v2)) eqn:E32; [| |done].
      * apply cmp_list_eq in E32. rewrite E32 in H13.
        rewrite (cmp_list_antisym (parse v1) (parse v2)), E21 in H13. done.
      * pose proof (cmp_list_lt_trans _ _ _ E32 E21) as E31.
        rewrite (cmp_list_antisym (parse v1) (parse v3)), E31 in H13. done.
Qed.

Import Samples MoreSamples.

Lemma version_requirement_preorder_witness :
  meets "1.10" "1.10" ∧ meets "1.10" "1.2"
  ∧ satisfied no_files no_flags None (Some "1.10") (gameDependency "1.4.2").
Proof.
  destruct (version_requirement_preorder "1.10" "1.4.2" "1.2")
    as (Hcheck & Hrefl & _ & Htrans); [done..|].
  split; [exact Hrefl|]. split; [apply Htrans; reflexivity|].
  apply Hcheck; reflexivity.
Defined.

Lemma check_loop_quiet_prefix path_exists flag_states_get dest game_version
    operator len pre : ∀ rest missed_dep num,
  operator ≠ "And" →
  Forall (quiet path_exists flag_states_get dest game_version) pre →
  ∃ missed_dep' num',
    check_loop (check_dependency path_exists flag_states_get dest game_version
                  (assert_element path_exists flag_states_get dest game_version))
               operator len (pre ++ rest) missed_dep num
    = check_loop (check_dependency path_exists flag_states_get dest game_version
                    (assert_element path_exists flag_states_get dest game_version))
                 operator len rest missed_dep' num'.
Proof.
  intros rest missed_dep num Hop Hquiet. revert missed_dep num.
  induction Hquiet as [|c pre Hc _ IH]; intros missed_dep num; [by eauto|].
  cbn [app check_loop]. rewrite (bool_decide_eq_false_2 (operator = "And")) by done.
  unfold quiet in Hc. destruct (check_dependency _ _ _ _ _ c) as [[|t]|e]; [| |done].
  - simpl. apply IH.
  - simpl. apply IH.
Qed.

(** X5.  A game check cannot be evaluated when the game version is the
    empty string or when its [version] attribute is missing or empty: what
    is raised then is [AttributeError], whatever the operator, as soon as
    the checks before it have been passed. *)
Theorem empty_version_raises path_exists flag_states_get dest game depend
    pre check post :
  children depend = pre ++ check :: post →
  tag check = "gameDependency" →
  game = "" ∨ get check "version" = None ∨ get check "version" = Some "" →
  Forall (quiet path_exists flag_states_get dest (Some game)) pre →
  (get_default depend "operator" "And" = "And" →
   Forall (satisfied path_exists flag_states_get dest (Some game)) pre) →
  assert_element path_exists flag_states_get dest (Some game) depend
  = Raise AttributeError.
Proof.
  intros Hch Htag Hempty Hquiet Hsat.
  assert (Hraise : check_dependency path_exists flag_states_get dest (Some game)
            (assert_element path_exists flag_states_get dest (Some game)) check
          = Raise AttributeError).
  { unfold check_dependency. rewrite Htag. simpl.
    destruct Hempty as [->|[->| ->]]; [done| |]; by destruct game. }
  rewrite assert_element_unfold, Hch.
  destruct (decide (get_default depend "operator" "And" = "And")) as [Hand|Hand].
  - rewrite Hand.
    destruct (check_loop_and_skip path_exists flag_states_get dest (Some game)
                (length (pre ++ check :: post)) pre (check :: post) None 0
                (Hsat Hand)) as (md & num & -> & _).
    cbn [check_loop]. by rewrite Hraise.
  - destruct (check_loop_quiet_prefix path_exists flag_states_get dest (Some game)
                (get_default depend "operator" "And")
                (length (pre ++ check :: post)) pre (check :: post) None 0
                Hand Hquiet) as (md & num & ->).
    cbn [check_loop]. by rewrite Hraise.
Qed.

Lemma empty_version_raises_witness :
  assert_element no_files no_flags None (Some "1.0") and_sample_broken
  = Raise AttributeError.
Proof.
  apply (empty_version_raises no_files no_flags None "1.0" and_sample_broken
           [flagDependency "b" ""] broken_check []).
  - reflexivity.
  - reflexivity.
  - right. left. reflexivity.
  - apply List.Forall_cons; [reflexivity | apply List.Forall_nil].
  - intros _. apply List.Forall_cons; [right; reflexivity | apply List.Forall_nil].
Defined.

(** ** The collectors *)

(** X6.  [_collect_files] files an item under its priority (0 when the
    attribute is missing) and its source, with its destination (the empty
    string when missing); of the items of a file list that share priority
    and source, the last one in document order decides, and a file list
    that is [None] gives the empty dictionary. *)
Theorem collect_file_dict_last_item_wins file_list (p : string) (s : option string) :
  collect_file_dict None = ∅
  ∧ collect_file_dict (Some file_list) !! p ≫= (λ bucket, bucket !! s)
    = (λ item, get_default item "destination" "")
      <$> last (filter (λ item, get_default item "priority" "0" = p
                                ∧ get item "source" = s)
                       (children file_list)).
Proof.
  split; [done|]. unfold collect_file_dict, findall_star.
  induction (children file_list) as [|item items IH] using rev_ind; [done|].
  rewrite foldl_app, filter_app. cbn [foldl].
  set (acc := foldl _ ∅ items) in *.
  destruct (decide (get_default item "priority" "0" = p)) as [Hp|Hp].
  - rewrite Hp, lookup_insert_eq. cbn [mbind option_bind].
    destruct (decide (get item "source" = s)) as [Hs|Hs].
    + rewrite filter_cons_True by done. rewrite Hs, lookup_insert_eq.
      by rewrite filter_nil, last_snoc.
    + rewrite filter_cons_False by (intros [_ ?]; done).
      rewrite filter_nil, app_nil_r, lookup_insert_ne by done.
      rewrite <- IH. by destruct (acc !! p).
  - rewrite filter_cons_False by (intros [? _]; done).
    by rewrite filter_nil, app_nil_r, lookup_insert_ne.
Qed.

(** X7.  [_collect_flags] binds each flag name to the text of the flag, or
    to the empty string when the element has no text; of the flags of a
    list that share a name, the last one in document order decides. *)
Theorem collect_flag_dict_last_flag_wins flag_list (name : option string) :
  collect_flag_dict None = ∅
  ∧ collect_flag_dict (Some flag_list) !! name
    = text_or_empty
      <$> last (filter (λ flag, get flag "name" = name) (children flag_list)).
Proof.
  split; [done|]. unfold collect_flag_dict, findall_star.
  induction (children flag_list) as [|flag flags IH] using rev_ind; [done|].
  rewrite foldl_app, filter_app. cbn [foldl].
  destruct (decide (get flag "name" = name)) as [Hn|Hn].
  - rewrite filter_cons_True by done.
    by rewrite Hn, lookup_insert_eq, filter_nil, last_snoc.
  - rewrite filter_cons_False by done.
    by rewrite filter_nil, app_nil_r, lookup_insert_ne.
Qed.

(** ** The two flattened views *)

(** X8.  The dictionary read through [flag_states] gives a flag the value
    of the most recent layer that defines it, whatever older layers say,
    and has no entry for a flag that no layer defines. *)
Theorem flag_states_latest_layer_wins (self : Installer) (name : option string) :
  (∀ newer layer older v,
     _flag_states self = newer ++ layer :: older →
     Forall (λ m : flag_dict, m !! name = None) newer →
     layer !! name = Some v →
     (flag_states self).1 !! name = Some v)
  ∧ (Forall (λ m : flag_dict, m !! name = None) (_flag_states self) →
     (flag_states self).1 !! name = None).
Proof.
  unfold flag_states. cbn [fst]. rewrite flatten_flags_lookup. split.
  - intros newer layer older v -> Hnewer Hv.
    rewrite ChainMap_getitem_app.
    assert (ChainMap_getitem newer name = None) as ->.
    { apply ChainMap_getitem_None. by apply Forall_forall. }
    simpl. by rewrite Hv.
  - intros Hall. apply ChainMap_getitem_None. by apply Forall_forall.
Qed.

Lemma flag_states_latest_layer_wins_witness :
  (flag_states {| gen := Finished;
                  _flag_states := [∅; {[ Some "UseX" := "yes" ]};
                                   {[ Some "UseX" := "no" ]}; ∅];
                  _collected_files := [∅]; uuids := 0 |}).1 !! Some "UseX"
  = Some "yes".
Proof.
  apply (proj1 (flag_states_latest_layer_wins _ (Some "UseX"))
           [∅] {[ Some "UseX" := "yes" ]} [{[ Some "UseX" := "no" ]}; ∅]).
  - reflexivity.
  - apply List.Forall_cons; [reflexivity | apply List.Forall_nil].
  - reflexivity.
Defined.

(** X9.  What [collected_files] gives for a source is decided first by
    priority, compared as strings, then by recency: when a layer files the
    source under priority [p], no more recent layer does so under [p], and
    no layer files it under a priority that is above [p] in string order,
    the view gives the destination of that layer; a source that no layer
    files has no entry. *)
Theorem flatten_files_priority_then_recency (maps : list file_dict)
    (s : option string) :
  (∀ newer layer older p bucket d,
     maps = newer ++ layer :: older →
     layer !! p = Some bucket → bucket !! s = Some d →
     (∀ m b, m ∈ newer → m !! p = Some b → b !! s = None) →
     (∀ m p' b, m ∈ maps → m !! p' = Some b → is_Some (b !! s) →
                str_lt p p' = false) →
     flatten_files maps !! s = Some d)
  ∧ ((∀ m p' b, m ∈ maps → m !! p' = Some b → b !! s = None) →
     flatten_files maps !! s = None).
Proof.
  split.
  - intros newer layer older p bucket d Hmaps Hp Hs Hnewer Hmax.
    destruct (layer_entry_merged maps layer p bucket s) as (b1 & Hb1 & _);
      [rewrite Hmaps; set_solver | done | eauto |].
    apply (flatten_files_greatest maps s p b1 d Hb1).
    + rewrite (NestedChainMap_getitem_lookup maps p b1 s Hb1), Hmaps.
      rewrite omap_app, ChainMap_getitem_app.
      assert (ChainMap_getitem (omap (λ mapping : file_dict, mapping !! p) newer) s
              = None) as ->.
      { apply ChainMap_getitem_None. intros b (m & Hm & Hb)%list_elem_of_omap.
        by apply (Hnewer m b). }
      cbn [omap list_omap]. rewrite Hp. simpl. by rewrite Hs.
    + intros p' b Hb [d' Hd'].
      destruct (merged_bucket_entry maps p' b s d' Hb Hd')
        as (m & b' & Hm & Hp' & Hs').
      apply (Hmax m p' b' Hm Hp'). eauto.
  - intros Hnone. destruct (flatten_files maps !! s) as [d|] eqn:Hd; [|done].
    apply flatten_files_entry in Hd as (layer & p & bucket & Hin & Hp & Hs).
    by rewrite (Hnone layer p bucket Hin Hp) in Hs.
Qed.

Import FileSamples.

Lemma flatten_files_priority_then_recency_witness :
  flatten_files [ten; five; one] !! Some "a.txt" = Some "data/five".
Proof.
  apply (proj1 (flatten_files_priority_then_recency [ten; five; one] (Some "a.txt"))
           [ten] five [one] "5" {[ Some "a.txt" := "data/five" ]} "data/five").
  - reflexivity.
  - reflexivity.
  - reflexivity.
  - intros m b Hm Hp. apply list_elem_of_In in Hm. simpl in Hm.
    destruct Hm as [<-|[]]. unfold ten in Hp.
    apply lookup_singleton_Some in Hp as [Hx _]. discriminate Hx.
  - intros m p' b Hm Hp _. apply list_elem_of_In in Hm. simpl in Hm.
    destruct Hm as [<-|[<-|[<-|[]]]].
    + unfold ten in Hp. apply lookup_singleton_Some in Hp as [<- _]. reflexivity.
    + unfold five in Hp. apply lookup_singleton_Some in Hp as [<- _]. reflexivity.
    + unfold one in Hp. apply lookup_singleton_Some in Hp as [<- _]. reflexivity.
Defined.

(** ** Ordered lists *)

Lemma ostr_lt_irrefl k : ostr_lt k k = false.
Proof.
  destruct k as [s|]; simpl; [|done]. unfold str_lt.
  by rewrite string_compare_refl.
Qed.

Lemma ostr_lt_asym a b : ostr_lt a b = true → ostr_lt b a = false.
Proof. destruct a, b; simpl; try done. apply str_lt_asym. Qed.

Lemma ostr_ge_trans a b c :
  ostr_lt a b = false → ostr_lt b c = false → ostr_lt a c = false.
Proof.
  destruct a as [x|], b as [y|], c as [z|]; simpl; try done.
  rewrite !str_lt_false_le. intros ??. by etrans.
Qed.

Section stable.
Context {A : Type} (before : A → A → bool) (P : A → Prop) `{!∀ x, Decision (P x)}.
Hypothesis apart : ∀ x y, before y x = true → P x → P y → False.

Lemma insert_sorted_stable x l :
  filter P (insert_sorted before x l) = filter P (x :: l).
Proof.
  induction l as [|y l IH]; [done|]. cbn [insert_sorted].
  destruct (before y x) eqn:Hb; [|done].
  rewrite filter_cons, IH, !filter_cons.
  destruct (decide (P y)), (decide (P x)); try done.
  by destruct (apart x y).
Qed.

Lemma sorted_stable l : filter P (sorted before l) = filter P l.
Proof.
  induction l as [|x l IH]; [done|]. cbn [sorted foldr].
  rewrite insert_sorted_stable. fold (sorted before l).
  by rewrite !filter_cons, IH.
Qed.
End stable.

(** X10.  [_ordered_list] returns the child elements, all of them and each
    once: in document order when [order] is [Explicit], with names in
    ascending order when [order] is [Ascending] or missing, and with names
    in descending order for any other value of [order]; a missing name
    comes before every name, and a root that is [None] gives the empty
    list. *)
Theorem ordered_list_sorted (root : Element) :
  _ordered_list None = []
  ∧ _ordered_list (Some root) ≡ₚ children root
  ∧ (get_default root "order" "Ascending" = "Explicit" →
     _ordered_list (Some root) = children root)
  ∧ (get_default root "order" "Ascending" = "Ascending" →
     StronglySorted name_le (_ordered_list (Some root)))
  ∧ (get_default root "order" "Ascending" ≠ "Explicit" →
     get_default root "order" "Ascending" ≠ "Ascending" →
     StronglySorted (λ a b, name_le b a) (_ordered_list (Some root))).
Proof.
  unfold _ordered_list, _explicit_list, findall_star.
  split; [done|]. split.
  { repeat case_bool_decide; [done | apply sorted_perm | apply sorted_perm]. }
  split; [by intros ->|]. split.
  - intros ->. simpl.
    apply (sorted_sorted (λ x y, ostr_lt (get x "name") (get y "name"))).
    + intros a b. apply ostr_lt_asym.
    + unfold may_precede. intros a b c Hab Hbc. by eapply ostr_ge_trans.
  - intros He Ha. rewrite !bool_decide_eq_false_2 by done.
    apply (sorted_sorted (λ x y, ostr_lt (get y "name") (get x "name"))).
    + intros a b. apply ostr_lt_asym.
    + unfold may_precede. intros a b c Hab Hbc. by eapply ostr_ge_trans.
Qed.

(** X11.  The sort of [_ordered_list] is stable in both directions:
    the children that bear a given name come in the result in the order
    they have in the document. *)
Theorem ordered_list_stable (root : Element) (name : option string) :
  filter (λ e, get e "name" = name) (_ordered_list (Some root))
  = filter (λ e, get e "name" = name) (children root).
Proof.
  unfold _ordered_list, _explicit_list, findall_star.
  repeat case_bool_decide; [done | |]; apply sorted_stable.
  - intros x y Hb Hx Hy. by rewrite Hx, Hy, ostr_lt_irrefl in Hb.
  - intros x y Hb Hx Hy. by rewrite Hx, Hy, ostr_lt_irrefl in Hb.
Qed.

Import OrderSamples.

Lemma ordered_list_sorted_witness :
  _ordered_list (Some descending_plugins)
  = [named_elem "B" "x"; named_elem "A" "first"; named_elem "A" "second"]
  ∧ StronglySorted (λ a b, name_le b a) (_ordered_list (Some descending_plugins)).
Proof.
  split; [reflexivity|].
  apply (ordered_list_sorted descending_plugins); vm_compute; discriminate.
Defined.

(** ** The generator once it has raised *)

Section more_engine_facts.
Variable path_exists : string → string → bool.
Variable uuid4 : nat → string.
Variable root : Element.
Variable dest : option string.
Variable game_version : option string.

Local Abbreviation advance' := (advance path_exists uuid4 root dest game_version).
Local Abbreviation go_back' := (go_back path_exists uuid4 root dest game_version).
Local Abbreviation go_forward' :=
  (go_forward path_exists uuid4 root dest game_version).
Local Abbreviation process_answer' :=
  (process_answer path_exists uuid4 root dest game_version).
Local Abbreviation send' := (send path_exists uuid4 root dest game_version).
Local Abbreviation next' := (next path_exists uuid4 root dest game_version).
Local Abbreviation reachable' :=
  (reachable path_exists uuid4 root dest game_version).

Lemma advance_raise_finishes self l e :
  (advance' self l).1 = Raise e → gen (advance' self l).2 = Finished.
Proof.
  intros Hraise.
  destruct (advance_effect path_exists uuid4 root dest game_version self l)
    as [_ [(l' & idd & sd & _ & Hok & _)|(Hgen & _)]]; [|done].
  by rewrite Hok in Hraise.
Qed.

Lemma process_answer_raise_finishes self l id_dict sd answer e :
  (process_answer' self l id_dict sd answer).1 = Raise e →
  gen (process_answer' self l id_dict sd answer).2 = Finished.
Proof.
  unfold process_answer. destruct answer as [answer|]; [|done].
  destruct (truthy _).
  - unfold go_back. destruct (list_pop _) as [[i rest]|]; apply advance_raise_finishes.
  - unfold go_forward. destruct (answer_layers _ _ _) as [[fl gl]|e']; [|done].
    apply advance_raise_finishes.
Qed.

(** X12.  If a call raises, the installer is finished: its generator is at
    its end and every later call raises [StopIteration] and leaves the
    installer as it is.  This holds for every exception, the
    [StopIteration] of a run that completes included.  The one exception is
    a value other than [None] sent to a generator that has not started:
    that raises [TypeError] and changes nothing. *)
Theorem any_exception_finishes self value e :
  (send' self value).1 = Raise e →
  (gen self = NotStarted → value = None) →
  gen (send' self value).2 = Finished
  ∧ (∀ value', send' (send' self value).2 value'
               = (Raise StopIteration, (send' self value).2))
  ∧ (∀ fresh answer, gen fresh = NotStarted →
       send' fresh (Some answer) = (Raise TypeError, fresh)).
Proof.
  intros Hraise Hstart.
  assert (Hfin : gen (send' self value).2 = Finished).
  { unfold send in *. destruct (gen self) eqn:Hgen.
    - rewrite (Hstart eq_refl) in *.
      by destruct (_assert_dependencies _ _ _ _ _).
    - by eapply advance_raise_finishes.
    - done.
    - by eapply process_answer_raise_finishes.
    - done. }
  split; [done|]. split.
  - intros value'. unfold send at 1. by rewrite Hfin.
  - intros fresh answer Hfresh. unfold send. by rewrite Hfresh.
Qed.
End more_engine_facts.

Import Samples EngineSamples.

(** The game is older than the configuration requires: priming raises and
    no step is ever produced. *)
Lemma any_exception_finishes_witness :
  (send no_files Scenario.numbered needs_version None (Some "1.4.2")
        Installer_init None).1
  = Raise (MissingDependency "Version" "1.5" "1.4.2")
  ∧ ∀ value,
      (send no_files Scenario.numbered needs_version None (Some "1.4.2")
            (send no_files Scenario.numbered needs_version None (Some "1.4.2")
                  Installer_init None).2 value).1
      = Raise StopIteration.
Proof.
  split; [reflexivity|]. intros value.
  destruct (any_exception_finishes no_files Scenario.numbered needs_version None
              (Some "1.4.2") Installer_init None
              (MissingDependency "Version" "1.5" "1.4.2") eq_refl (λ _, eq_refl))
    as (_ & Hstop & _).
  by rewrite Hstop.
Defined.

(** ** Visible steps *)

Section step_facts.
Variable path_exists : string → string → bool.
Variable uuid4 : nat → string.
Variable root : Element.
Variable dest : option string.
Variable game_version : option string.

Local Abbreviation assert_on_chain' :=
  (assert_on_chain path_exists dest game_version).
Local Abbreviation next_visible' := (next_visible path_exists dest game_version).
Local Abbreviation build_step' :=
  (build_step path_exists uuid4 dest game_version).
Local Abbreviation advance' := (advance path_exists uuid4 root dest game_version).
Local Abbreviation send' := (send path_exists uuid4 root dest game_version).
Local Abbreviation next' := (next path_exists uuid4 root dest game_version).
Local Abbreviation reachable' :=
  (reachable path_exists uuid4 root dest game_version).
Local Abbreviation frame_ok' := (frame_ok path_exists uuid4 dest game_version).
Local Abbreviation buildable' := (buildable path_exists uuid4 dest game_version).

(** A step that is found stands in the list at the index given and is
    visible. *)
Lemma next_visible_found flags rest : ∀ start i step,
  next_visible' flags rest start = Ok (Some (i, step)) →
  ∃ k, i = (start + Z.of_nat k)%Z
       ∧ rest !! k = Some step
       ∧ assert_on_chain' flags (find step "visible") = Ok ().
Proof.
  induction rest as [|s rest IH]; intros start i step; [done|].
  cbn [next_visible].
  destruct (assert_on_chain' flags (find s "visible")) as [[]|e] eqn:Hvis.
  - intros [= <- <-]. exists 0. split_and!; [lia | done | done].
  - destruct e; try done. intros Hnext.
    destruct (IH _ _ _ Hnext) as (k & -> & Hk & Hok).
    exists (S k). split_and!; [lia | done | done].
Qed.

(** X13.  The search for the next step stops at the first step whose
    visibility check raises nothing and skips exactly the steps before it,
    whose check raised [MissingDependency]; when every remaining step is
    skipped it finds nothing; and an exception of another kind is not taken
    for an invisible step: it is raised. *)
Theorem next_visible_first_visible flags rest : ∀ start,
  (∀ i step, next_visible' flags rest start = Ok (Some (i, step)) →
     ∃ k, i = (start + Z.of_nat k)%Z
          ∧ rest !! k = Some step
          ∧ assert_on_chain' flags (find step "visible") = Ok ()
          ∧ ∀ j skipped, j < k → rest !! j = Some skipped →
              ∃ ty ex ac, assert_on_chain' flags (find skipped "visible")
                          = Raise (MissingDependency ty ex ac))
  ∧ (next_visible' flags rest start = Ok None →
     ∀ skipped, skipped ∈ rest →
       ∃ ty ex ac, assert_on_chain' flags (find skipped "visible")
                   = Raise (MissingDependency ty ex ac))
  ∧ (∀ e, next_visible' flags rest start = Raise e →
       (∀ ty ex ac, e ≠ MissingDependency ty ex ac)
       ∧ ∃ step, step ∈ rest
                 ∧ assert_on_chain' flags (find step "visible") = Raise e).
Proof.
  induction rest as [|step rest IH]; intros start.
  - split_and!; [done | by intros _ ? ?%elem_of_nil | done].
  - cbn [next_visible].
    destruct (assert_on_chain' flags (find step "visible")) as [[]|e] eqn:Hvis.
    + split_and!; [|done|done]. intros i s [= <- <-]. exists 0.
      split_and!; [lia | done | done |]. intros j ? Hj. lia.
    + destruct (IH (start + 1)%Z) as (IH1 & IH2 & IH3).
      destruct e as [ty ex ac| | | | | |];
        try (split_and!; [done | done |]; intros e' [= <-];
             split; [done|]; exists step; split; [left | done]).
      split_and!.
      * intros i s Hnext. destruct (IH1 i s Hnext) as (k & -> & Hk & Hok & Hskip).
        exists (S k). split_and!; [lia | done | done |].
        intros [|j] skipped Hj Hs; simplify_eq/=; [eauto|].
        apply (Hskip j); [lia | done].
      * intros Hnone skipped [->|Hin]%elem_of_cons; [eauto|]. by apply IH2.
      * intros e' Hraise. destruct (IH3 e' Hraise) as (Hnot & s & Hin & Hs).
        split; [done|]. exists s. split; [by right | done].
Qed.

(** Whether a step can be built does not depend on the identifiers drawn,
    and the name handed to the caller is the name of the step. *)
Lemma build_plugin_any flags n m plugin pd :
  build_plugin path_exists uuid4 dest game_version flags n plugin = Ok pd →
  ∃ pd', build_plugin path_exists uuid4 dest game_version flags m plugin = Ok pd'.
Proof.
  unfold build_plugin. destruct (resolve_type _ _ _ _ _) as [ty|e]; [|done].
  simpl. eauto.
Qed.

Lemma build_plugins_any flags plugins :
  ∀ (acc acc' : list plugin_dict * gmap string Element * nat) r,
  foldlM (λ '(pds, idd, k) plugin,
            pd ← build_plugin path_exists uuid4 dest game_version flags k plugin;
            Ok (pds ++ [pd], <[plugin_id pd := plugin]> idd, S k)) acc plugins
  = Ok r →
  ∃ r', foldlM (λ '(pds, idd, k) plugin,
            pd ← build_plugin path_exists uuid4 dest game_version flags k plugin;
            Ok (pds ++ [pd], <[plugin_id pd := plugin]> idd, S k)) acc' plugins
        = Ok r'.
Proof.
  induction plugins as [|plugin plugins IH]; intros [[pds idd] k] [[pds' idd'] k'] r;
    cbn [foldlM]; [by eauto|].
  destruct (build_plugin _ _ _ _ _ k plugin) as [pd|e] eqn:Hpd; [|done].
  destruct (build_plugin_any flags k k' plugin pd Hpd) as [pd' ->]. simpl.
  apply IH.
Qed.

Lemma build_group_any flags group acc acc' r :
  build_group path_exists uuid4 dest game_version flags acc group = Ok r →
  ∃ r', build_group path_exists uuid4 dest game_version flags acc' group = Ok r'.
Proof.
  destruct acc as [[groups idd] n], acc' as [[groups' idd'] n'].
  unfold build_group.
  destruct (foldlM _ ([], idd, S n) _) as [[[pds i2] n2]|e] eqn:Hf; [|done].
  intros _.
  destruct (build_plugins_any flags _ _ ([], idd', S n') _ Hf) as [[[pds' i2'] n2'] ->].
  simpl. eauto.
Qed.

Lemma build_groups_any flags groups : ∀ acc acc' r,
  foldlM (build_group path_exists uuid4 dest game_version flags) acc groups = Ok r →
  ∃ r', foldlM (build_group path_exists uuid4 dest game_version flags) acc' groups
        = Ok r'.
Proof.
  induction groups as [|group groups IH]; intros acc acc' r; cbn [foldlM]; [by eauto|].
  destruct (build_group _ _ _ _ _ acc group) as [a1|e] eqn:Hg; [|done].
  destruct (build_group_any flags group acc acc' a1 Hg) as [a1' ->]. simpl.
  apply IH.
Qed.

Lemma build_step_name flags n step sd id_dict n' :
  build_step' flags n step = Ok (sd, id_dict, n') → step_name sd = get step "name".
Proof.
  unfold build_step. destruct (foldlM _ _ _) as [[[gs idd] k]|e]; [|done].
  simpl. by intros [= <- _ _].
Qed.

Lemma buildable_any flags step m :
  buildable' flags step →
  ∃ sd id_dict n', build_step' flags m step = Ok (sd, id_dict, n')
                   ∧ step_name sd = get step "name".
Proof.
  intros (n & r & Hr). unfold build_step in Hr.
  destruct (foldlM _ ([], ∅, n) _) as [[[gs idd] k]|e] eqn:Hf; [|done].
  destruct (build_groups_any flags _ _ ([], ∅, m) _ Hf) as [[[gs' idd'] k'] Hf'].
  assert (build_step' flags m step
          = Ok ({| step_name := get step "name"; step_groups := gs' |}, idd', k'))
    as Hb by (unfold build_step; by rewrite Hf').
  eauto.
Qed.

Lemma list_pop_snoc {A} (l : list A) x : list_pop (l ++ [x]) = Some (x, l).
Proof. unfold list_pop. by rewrite reverse_snoc, reverse_involutive. Qed.

Lemma list_pop_Some {A} (l : list A) x rest :
  list_pop l = Some (x, rest) → l = rest ++ [x].
Proof.
  unfold list_pop. destruct (reverse l) as [|y r] eqn:Hr; [done|].
  intros [= <- <-]. rewrite <- (reverse_involutive l), Hr. by rewrite reverse_cons.
Qed.

(** Advancing from an index that is at least [-1] leaves a well-formed
    frame. *)
Lemma advance_frame_ok self l :
  (-1 ≤ index l)%Z → Forall (λ i, (0 ≤ i)%Z) (previous_index l) →
  frame_ok' (advance' self l).2.
Proof.
  intros Hidx Hprev. unfold advance.
  destruct (next_visible' _ _ _) as [[[i step]|]|e] eqn:Hnext.
  - destruct (next_visible_found _ _ _ _ _ Hnext) as (k & -> & Hk & Hvis).
    destruct (build_step' _ _ step) as [[[sd idd] n]|e] eqn:Hb; [|done].
    unfold frame_ok. cbn. split_and!; [lia | done |].
    exists step. split_and!.
    + rewrite lookup_drop in Hk. rewrite <- Hk. f_equal. lia.
    + done.
    + by eapply build_step_name.
    + by exists (uuids self), (sd, idd, n).
  - destruct (conditional_installs_effect path_exists dest game_version
                (_explicit_list (find2 root "conditionalFileInstalls" "patterns"))
                self) as (extra & Hgen & _).
    unfold frame_ok. by rewrite Hgen.
  - done.
Qed.

Lemma send_frame_ok self value :
  frame_ok' self → frame_ok' (send' self value).2.
Proof.
  intros Hframe. unfold send. unfold frame_ok in Hframe.
  destruct (gen self) as [| |l idd sd|l idd sd answer|] eqn:Hgen.
  - destruct value; [cbn [snd]; unfold frame_ok; by rewrite Hgen|].
    by destruct (_assert_dependencies _ _ _ _ _).
  - apply advance_frame_ok; cbn; [lia | by repeat constructor].
  - unfold frame_ok. cbn. done.
  - destruct Hframe as (Hidx & Hprev & Hstep).
    unfold process_answer. destruct answer as [answer|]; [|done].
    destruct (truthy _).
    + unfold go_back. destruct (list_pop (previous_index l)) as [[i rest]|] eqn:Hpop.
      * apply list_pop_Some in Hpop. rewrite Hpop in Hprev.
        apply Forall_app in Hprev as [Hrest Hi].
        apply Forall_cons in Hi as [Hi _].
        apply advance_frame_ok; cbn; [lia | done].
      * apply advance_frame_ok; cbn; [lia | done].
    + unfold go_forward. destruct (answer_layers _ _ _) as [[fl gl]|e]; [|done].
      apply advance_frame_ok; cbn; [lia|].
      apply Forall_app. split; [done|]. by repeat constructor.
  - cbn [snd]. unfold frame_ok. by rewrite Hgen.
Qed.

Lemma reachable_frame_ok self : reachable' self → frame_ok' self.
Proof.
  induction 1 as [|self value _ IH]; [done|]. by apply send_frame_ok.
Qed.

(** X14.  Going back undoes an answer.  When an answer to a step has been
    processed and the next step handed out, a request for the previous step
    hands out the answered step again (the same name, under fresh
    identifiers), at the same index and with the same recorded indices, and
    leaves the flag chain and the file chain exactly as they were before
    the answer. *)
Theorem back_undoes_forward self l id_dict sd answer sd2 self2 back :
  reachable' self →
  gen self = AtAnswer l id_dict sd (Some answer) →
  truthy (default (VBool false) (answer !! "previous_step")) = false →
  next' self = (Ok (Some sd2), self2) →
  truthy (default (VBool false) (back !! "previous_step")) = true →
  ∃ sd3 l3 id_dict3,
    (send' self2 (Some back)).1 = Ok None
    ∧ (next' (send' self2 (Some back)).2).1 = Ok (Some sd3)
    ∧ gen (next' (send' self2 (Some back)).2).2 = AtStep l3 id_dict3 sd3
    ∧ step_name sd3 = step_name sd
    ∧ index l3 = index l
    ∧ previous_index l3 = previous_index l
    ∧ step_list l3 = step_list l
    ∧ _flag_states (next' (send' self2 (Some back)).2).2 = _flag_states self
    ∧ _collected_files (next' (send' self2 (Some back)).2).2
      = _collected_files self.
Proof.
  intros Hreach Hgen Hfalsy Hnext Htruthy.
  destruct (reachable_ok _ _ _ _ _ _ Hreach) as [Hshape _].
  unfold stores_ok in Hshape. rewrite Hgen in Hshape.
  destruct Hshape as (fl & fi & Hfl & Hfi & Hlen).
  pose proof (reachable_frame_ok self Hreach) as Hframe.
  unfold frame_ok in Hframe. rewrite Hgen in Hframe.
  destruct Hframe as (Hidx & Hprev & step & Hstep & Hvis & Hname & Hbuild).
  (* the forward pass *)
  unfold next, send in Hnext. rewrite Hgen in Hnext.
  unfold process_answer in Hnext. rewrite Hfalsy in Hnext.
  unfold go_forward in Hnext.
  destruct (answer_layers sd id_dict _) as [[file_layer flag_layer]|e]; [|done].
  unfold advance in Hnext. cbn [step_list previous_index index] in Hnext.
  destruct (next_visible' _ _ _) as [[[i2 step2]|]|e] in Hnext; [| |done].
  2: { destruct (conditional_installs_effect path_exists dest game_version
                   (_explicit_list (find2 root "conditionalFileInstalls" "patterns"))
                   (set_flag_states (flag_layer :: _flag_states self)
                      (set_collected_files (file_layer :: _collected_files self)
                         self))) as (extra & _ & Hok & _).
       rewrite Hnext in Hok. done. }
  destruct (build_step' _ _ step2) as [[[sd2' idd2] n2]|e] in Hnext; [|done].
  injection Hnext as <- <-.
  (* the request for the previous step *)
  unfold next, send. cbn [gen set_gen set_uuids snd fst].
  unfold process_answer. rewrite Htruthy.
  unfold go_back. cbn [previous_index step_list index]. rewrite list_pop_snoc.
  set (self3 := set_gen _ (set_gen _ _)).
  destruct (pop_layers_shape root self3 (flag_layer :: fl) (file_layer :: fi))
    as [Hpfl Hpfi]; [by cbn; rewrite Hfl | by cbn; rewrite Hfi | by cbn; rewrite Hlen|].
  cbn [tail] in Hpfl, Hpfi. rewrite <- Hfl in Hpfl. rewrite <- Hfi in Hpfi.
  unfold advance. cbn [step_list previous_index index]. rewrite Hpfl.
  replace (Z.to_nat (index l - 1 + 1)) with (Z.to_nat (index l)) by lia.
  rewrite (drop_S _ _ _ Hstep). cbn [next_visible]. rewrite Hvis.
  destruct (buildable_any (_flag_states self) step (uuids (pop_layers self3)) Hbuild)
    as (sd3 & idd3 & n3 & -> & Hname3).
  cbn. eexists sd3, _, idd3. split_and!; try done.
  - by rewrite Hname3.
  - cbn. lia.
Qed.
End step_facts.

Import Samples EngineSamples.

Lemma next_visible_first_visible_witness :
  ∃ k, 1%Z = (0 + Z.of_nat k)%Z
       ∧ guarded_steps !! k = Some (elem "installStep" [("name", "Always")] [])
       ∧ ∀ j skipped, j < k → guarded_steps !! j = Some skipped →
           ∃ ty ex ac,
             assert_on_chain no_files None None [∅] (find skipped "visible")
             = Raise (MissingDependency ty ex ac).
Proof.
  assert (Hnext : next_visible no_files None None [∅] guarded_steps 0%Z
                  = Ok (Some (1%Z, elem "installStep" [("name", "Always")] [])))
    by (vm_compute; reflexivity).
  destruct (proj1 (next_visible_first_visible no_files None None [∅]
                     guarded_steps 0%Z) _ _ Hnext)
    as (k & Hk & Hstep & _ & Hskip).
  exists k. split_and!; [exact Hk | exact Hstep | exact Hskip].
Defined.

(** After the second step was yielded, a request for the previous step
    yields the step named First again and the chains hold no selection. *)
Lemma back_undoes_forward_witness :
  ∃ sd3, (send2 (send2 second_step (Some Scenario.back)).2 None).1 = Ok (Some sd3)
         ∧ step_name sd3 = Some "First"
         ∧ _flag_states (send2 (send2 second_step (Some Scenario.back)).2 None).2
           = [∅]
         ∧ _collected_files
             (send2 (send2 second_step (Some Scenario.back)).2 None).2
           = [∅; ∅].
Proof.
  assert (Hgen : ∃ l id_dict sd,
             gen first_answered = AtAnswer l id_dict sd (Some select_a))
    by (vm_compute; do 3 eexists; reflexivity).
  destruct Hgen as (l & id_dict & sd & Hgen).
  pose proof Hgen as Hframe. vm_compute in Hframe.
  injection Hframe as Hl Hid Hsd.
  assert (Hnext : ∃ sd2, next no_files Scenario.numbered two_steps None None
                           first_answered = (Ok (Some sd2), second_step))
    by (vm_compute; eexists; reflexivity).
  destruct Hnext as [sd2 Hnext].
  assert (Hreach : reachable no_files Scenario.numbered two_steps None None
                     first_answered).
  { unfold first_answered, first_step, send2.
    do 3 apply reachable_send. apply reachable_init. }
  destruct (back_undoes_forward no_files Scenario.numbered two_steps None None
              first_answered l id_dict sd select_a sd2 second_step
              Scenario.back Hreach Hgen eq_refl Hnext eq_refl)
    as (sd3 & l3 & idd3 & _ & Hyield & _ & Hname & _ & _ & _ & Hfl & Hfi).
  exists sd3. unfold send2.
  change (send ?a ?b ?c ?d ?e ?s None) with (next a b c d e s).
  rewrite Hyield, Hname, Hfl, Hfi, <- Hsd. clear. vm_compute.
  split_and!; reflexivity.
Defined.


(** ** The type of a plugin *)

Section plugin_types.
Variable path_exists : string → string → bool.
Variable dest : option string.
Variable game_version : option string.

Local Abbreviation assert_on_chain' :=
  (assert_on_chain path_exists dest game_version).
Local Abbreviation type_from_patterns' :=
  (type_from_patterns path_exists dest game_version).

(** X15.  The type of a plugin with a dependency type is the type of the
    first pattern whose dependencies raise nothing, the patterns before it
    having raised [MissingDependency]; it is the default type when every
    pattern raised [MissingDependency].  The loop raises only what is not
    [MissingDependency]: the exception of a dependency check, or
    [AttributeError] for a matching pattern without a [type] child. *)
Theorem type_from_patterns_first_match flags default_type : ∀ pattern_list,
  (∀ ty, type_from_patterns' flags pattern_list default_type = Ok ty →
     (ty = default_type
      ∧ ∀ pattern, pattern ∈ pattern_list →
          ∃ t ex ac, assert_on_chain' flags (find pattern "dependencies")
                     = Raise (MissingDependency t ex ac))
     ∨ (∃ k pattern type_elem,
          pattern_list !! k = Some pattern
          ∧ assert_on_chain' flags (find pattern "dependencies") = Ok ()
          ∧ find pattern "type" = Some type_elem
          ∧ ty = get type_elem "name"
          ∧ ∀ j skipped, j < k → pattern_list !! j = Some skipped →
              ∃ t ex ac, assert_on_chain' flags (find skipped "dependencies")
                         = Raise (MissingDependency t ex ac)))
  ∧ (∀ e, type_from_patterns' flags pattern_list default_type = Raise e →
       (∀ t ex ac, e ≠ MissingDependency t ex ac)
       ∧ ∃ pattern, pattern ∈ pattern_list
           ∧ (assert_on_chain' flags (find pattern "dependencies") = Raise e
              ∨ (assert_on_chain' flags (find pattern "dependencies") = Ok ()
                 ∧ find pattern "type" = None ∧ e = AttributeError))).
Proof.
  induction pattern_list as [|pattern pattern_list [IH1 IH2]].
  - split; [|done]. intros ty [= <-]. left. split; [done|].
    by intros ? ?%elem_of_nil.
  - cbn [type_from_patterns].
    destruct (assert_on_chain' flags (find pattern "dependencies"))
      as [[]|e] eqn:Hdep.
    + destruct (find pattern "type") as [type_elem|] eqn:Hty.
      * split; [|done]. intros ty [= <-]. right. exists 0, pattern, type_elem.
        split_and!; [done..|]. intros j ? Hj. lia.
      * split; [done|]. intros e [= <-]. split; [done|].
        exists pattern. split; [left|]. by right.
    + destruct e as [t ex ac| | | | | |];
        try (split; [done|]; intros e' [= <-]; split; [done|];
             exists pattern; split; [left | by left]).
      split.
      * intros ty Hok.
        destruct (IH1 ty Hok)
          as [[-> Hall]|(k & p & type_elem & Hk & Hp & Hty & -> & Hskip)].
        -- left. split; [done|].
           intros p [->|Hin]%elem_of_cons; [eauto | by apply Hall].
        -- right. exists (S k), p, type_elem. split_and!; [done..|].
           intros [|j] skipped Hj Hs; simplify_eq/=; [eauto|].
           apply (Hskip j); [lia | done].
      * intros e Hraise. destruct (IH2 e Hraise) as (Hnot & p & Hin & Hp).
        split; [done|]. exists p. split; [by right | done].
Qed.
End plugin_types.

Lemma type_from_patterns_first_match_witness :
  type_from_patterns Samples.no_files None None [∅]
    EngineSamples.typed_patterns (Some "Optional") = Ok (Some "Recommended")
  ∧ ((Some "Recommended" = Some "Optional"
      ∧ ∀ pattern, pattern ∈ EngineSamples.typed_patterns →
          ∃ t ex ac,
            assert_on_chain Samples.no_files None None [∅]
              (find pattern "dependencies")
            = Raise (MissingDependency t ex ac))
     ∨ (∃ k pattern type_elem,
          EngineSamples.typed_patterns !! k = Some pattern
          ∧ assert_on_chain Samples.no_files None None [∅]
              (find pattern "dependencies") = Ok ()
          ∧ find pattern "type" = Some type_elem
          ∧ Some "Recommended" = get type_elem "name"
          ∧ ∀ j skipped, j < k →
              EngineSamples.typed_patterns !! j = Some skipped →
              ∃ t ex ac,
                assert_on_chain Samples.no_files None None [∅]
                  (find skipped "dependencies")
                = Raise (MissingDependency t ex ac))).
Proof.
  assert (Hty : type_from_patterns Samples.no_files None None [∅]
                  EngineSamples.typed_patterns (Some "Optional")
                = Ok (Some "Recommended")) by (vm_compute; reflexivity).
  split; [exact Hty|].
  exact (proj1 (type_from_patterns_first_match Samples.no_files None None [∅]
                  (Some "Optional") EngineSamples.typed_patterns) _ Hty).
Defined.

(** ** The [conditionalFileInstalls] loop *)

Section conditional.
Variable path_exists : string → string → bool.
Variable dest : option string.
Variable game_version : option string.

Local Abbreviation assert_on_chain' :=
  (assert_on_chain path_exists dest game_version).
Local Abbreviation conditional_installs' :=
  (conditional_installs path_exists dest game_version).

(** X16.  When no dependency check of a pattern raises anything but
    [MissingDependency], the loop ends the generator with [StopIteration],
    leaves the flag chain alone and puts on the file chain one layer for
    each pattern whose dependencies are met, in the order of the patterns,
    the layer of the last such pattern on top; the patterns whose
    dependencies are not met add nothing. *)
Theorem conditional_installs_layers : ∀ pattern_list self,
  (∀ pattern e, pattern ∈ pattern_list →
     assert_on_chain' (_flag_states self) (find pattern "dependencies") = Raise e →
     ∃ t ex ac, e = MissingDependency t ex ac) →
  conditional_installs' self pattern_list
  = (Raise StopIteration,
     set_gen Finished
       (set_collected_files
          (reverse (met_layers path_exists dest game_version
                      (_flag_states self) pattern_list)
           ++ _collected_files self) self)).
Proof.
  induction pattern_list as [|pattern pattern_list IH]; intros self Hquiet.
  - by destruct self.
  - cbn [conditional_installs]. unfold met_layers. rewrite filter_cons.
    destruct (assert_on_chain' (_flag_states self) (find pattern "dependencies"))
      as [[]|e] eqn:Hdep.
    + rewrite decide_True by (unfold met; by rewrite Hdep).
      rewrite IH.
      * unfold met_layers. rewrite fmap_cons, reverse_cons, <- app_assoc.
        by destruct self.
      * intros p e Hin. apply Hquiet. by right.
    + rewrite decide_False by (unfold met; by rewrite Hdep).
      destruct (Hquiet pattern e) as (t & ex & ac & ->); [left | done |].
      rewrite IH; [done|]. intros p e Hin. apply Hquiet. by right.
Qed.
End conditional.

Lemma conditional_installs_layers_witness :
  conditional_installs Samples.no_files None None Installer_init
    EngineSamples.install_patterns
  = (Raise StopIteration,
     set_gen Finished
       (set_collected_files
          [ {[ "0" := {[ Some "y.esp" := "data/y.esp" ]} ]}; ∅ ]
          Installer_init)).
Proof.
  rewrite conditional_installs_layers.
  - vm_compute. reflexivity.
  - intros pattern e Hin Hraise. apply list_elem_of_In in Hin. simpl in Hin.
    destruct Hin as [<-|[<-|[]]]; vm_compute in Hraise.
    + injection Hraise as <-. eauto.
    + discriminate.
Defined.

(** ** The identifiers of a step *)

Lemma Forall2_impl_elem {A B} (P Q : A → B → Prop) l k :
  Forall2 P l k → (∀ x y, x ∈ l → P x y → Q x y) → Forall2 Q l k.
Proof.
  induction 1 as [|x y l k Hxy _ IH]; intros Himpl; constructor.
  - apply Himpl; [left | done].
  - apply IH. intros x' y' Hin. apply Himpl. by right.
Qed.

Lemma group_id_sublist groups :
  map group_id groups `sublist_of` concat (group_ids <$> groups).
Proof.
  induction groups as [|g groups IH]; [constructor|].
  rewrite fmap_cons. cbn [map concat group_ids app].
  apply sublist_skip. by apply sublist_inserts_l.
Qed.

Section identifiers.
Variable path_exists : string → string → bool.
Variable uuid4 : nat → string.
Variable dest : option string.
Variable game_version : option string.

Local Abbreviation build_plugin' :=
  (build_plugin path_exists uuid4 dest game_version).
Local Abbreviation build_group' :=
  (build_group path_exists uuid4 dest game_version).
Local Abbreviation build_step' :=
  (build_step path_exists uuid4 dest game_version).

(** A plugin element and the dictionary built from it. *)
Local Abbreviation plugin_of id_dict :=
  (λ (p : plugin_dict) (pe : Element),
     id_dict !! plugin_id p = Some pe ∧ plugin_name p = get pe "name").

Lemma build_plugin_id flags k plugin pd :
  build_plugin' flags k plugin = Ok pd →
  plugin_id pd = uuid4 k ∧ plugin_name pd = get plugin "name".
Proof.
  unfold build_plugin. destruct (resolve_type _ _ _ _ _) as [ty|e]; [|done].
  by intros [= <-].
Qed.

Lemma later_draw_differs (k0 m : nat) :
  (∀ i j, uuid4 i = uuid4 j → i = j) →
  ∀ j, j < k0 → uuid4 j ∉ uuid4 <$> seq k0 m.
Proof.
  intros Hinj j Hj (i & Heq & Hi%elem_of_seq)%list_elem_of_fmap.
  apply Hinj in Heq. lia.
Qed.

Lemma build_plugins_ids flags plugins :
  ∀ (pds0 : list plugin_dict) (idd0 : gmap string Element) k0 pds idd k,
  foldlM (λ '(pds, idd, k) plugin,
            pd ← build_plugin' flags k plugin;
            Ok (pds ++ [pd], <[plugin_id pd := plugin]> idd, S k))
         (pds0, idd0, k0) plugins = Ok (pds, idd, k) →
  ∃ new, pds = pds0 ++ new
         ∧ k = k0 + length plugins
         ∧ plugin_id <$> new = uuid4 <$> seq k0 (length plugins)
         ∧ (∀ id_, id_ ∉ uuid4 <$> seq k0 (length plugins) →
              idd !! id_ = idd0 !! id_)
         ∧ ((∀ i j, uuid4 i = uuid4 j → i = j) →
            Forall2 (plugin_of idd) new plugins).
Proof.
  induction plugins as [|pe plugins IH]; intros pds0 idd0 k0 pds idd k Hfold;
    cbn [foldlM] in Hfold.
  - injection Hfold as <- <- <-. exists []. rewrite app_nil_r.
    split_and!; [done | simpl; lia | done | done |]. constructor.
  - destruct (build_plugin' flags k0 pe) as [pd|e] eqn:Hpd; [|done].
    simpl in Hfold. destruct (build_plugin_id _ _ _ _ Hpd) as [Hid Hname].
    apply IH in Hfold as (new & -> & -> & Hids & Hkeep & Hall).
    exists (pd :: new). split_and!.
    + by rewrite <- app_assoc.
    + simpl. lia.
    + cbn [length seq]. by rewrite !fmap_cons, Hid, Hids.
    + intros id_ Hnot. cbn [length seq] in Hnot. rewrite fmap_cons in Hnot.
      apply not_elem_of_cons in Hnot as [Hne Hnot].
      rewrite Hkeep by done. rewrite Hid. by rewrite lookup_insert_ne.
    + intros Hinj. constructor; [|by apply Hall]. split; [|done].
      rewrite Hkeep; [by rewrite lookup_insert_eq|].
      rewrite Hid. apply later_draw_differs; [done | lia].
Qed.

Lemma build_group_ids flags group gs0 idd0 n0 gs idd n' :
  build_group' flags (gs0, idd0, n0) group = Ok (gs, idd, n') →
  ∃ g, gs = gs0 ++ [g]
       ∧ n' = n0 + length (group_ids g)
       ∧ group_ids g = uuid4 <$> seq n0 (length (group_ids g))
       ∧ (∀ id_, id_ ∉ uuid4 <$> seq n0 (length (group_ids g)) →
            idd !! id_ = idd0 !! id_)
       ∧ group_name g = get group "name"
       ∧ ((∀ i j, uuid4 i = uuid4 j → i = j) →
          Forall2 (plugin_of idd) (group_plugins g)
            (_ordered_list (find group "plugins"))).
Proof.
  unfold build_group.
  destruct (foldlM _ _ _) as [[[pds idd1] k]|e] eqn:Hfold; [|done].
  simpl. intros [= <- <- <-].
  apply build_plugins_ids in Hfold as (new & Hnew & -> & Hids & Hkeep & Hall).
  simpl in Hnew. subst pds. eexists. split; [done|].
  assert (Hlen : length new = length (_ordered_list (find group "plugins"))).
  { by rewrite <- (length_fmap plugin_id new), Hids, length_fmap, length_seq. }
  unfold group_ids. cbn [group_id group_plugins group_name length].
  rewrite length_fmap, Hlen. split_and!; [lia | | | done | done].
  - change (uuid4 n0 :: (plugin_id <$> new)
            = uuid4 n0 :: (uuid4 <$> seq (S n0)
                             (length (_ordered_list (find group "plugins"))))).
    by rewrite Hids.
  - intros id_ Hnot.
    change (id_ ∉ uuid4 n0 :: (uuid4 <$> seq (S n0)
                                 (length (_ordered_list (find group "plugins")))))
      in Hnot.
    apply not_elem_of_cons in Hnot as [_ Hnot]. by apply Hkeep.
Qed.

Lemma build_groups_ids flags groups :
  ∀ (gs0 : list group_dict) (idd0 : gmap string Element) n0 gs idd n',
  foldlM (build_group' flags) (gs0, idd0, n0) groups = Ok (gs, idd, n') →
  ∃ new, gs = gs0 ++ new
         ∧ n' = n0 + length (concat (group_ids <$> new))
         ∧ concat (group_ids <$> new)
           = uuid4 <$> seq n0 (length (concat (group_ids <$> new)))
         ∧ (∀ id_, id_ ∉ uuid4 <$> seq n0 (length (concat (group_ids <$> new))) →
              idd !! id_ = idd0 !! id_)
         ∧ ((∀ i j, uuid4 i = uuid4 j → i = j) →
            Forall2 (λ g ge,
                       group_name g = get ge "name"
                       ∧ Forall2 (plugin_of idd) (group_plugins g)
                           (_ordered_list (find ge "plugins")))
                    new groups).
Proof.
  induction groups as [|ge groups IH]; intros gs0 idd0 n0 gs idd n' Hfold;
    cbn [foldlM] in Hfold.
  - injection Hfold as <- <- <-. exists []. rewrite app_nil_r.
    split_and!; [done | simpl; lia | done | done |]. constructor.
  - destruct (build_group' flags (gs0, idd0, n0) ge) as [[[gs1 idd1] n1]|e]
      eqn:Hgroup; [|done].
    simpl in Hfold.
    apply build_group_ids in Hgroup
      as (g & -> & -> & Hgids & Hgkeep & Hgname & Hgall).
    apply IH in Hfold as (new & -> & -> & Hids & Hkeep & Hall).
    set (a := length (group_ids g)) in *.
    set (b := length (concat (group_ids <$> new))) in *.
    assert (Hcat : length (concat (group_ids <$> g :: new)) = a + b).
    { rewrite fmap_cons. cbn [concat]. by rewrite length_app. }
    assert (Hseq : uuid4 <$> seq n0 (a + b)
                   = (uuid4 <$> seq n0 a) ++ (uuid4 <$> seq (n0 + a) b)).
    { by rewrite seq_app, fmap_app. }
    exists (g :: new). rewrite Hcat, Hseq. split_and!.
    + by rewrite <- app_assoc.
    + lia.
    + rewrite fmap_cons. cbn [concat]. by rewrite Hgids, Hids at 1.
    + intros id_ [Hg Hnew]%not_elem_of_app.
      rewrite Hkeep by done. by apply Hgkeep.
    + intros Hinj. constructor; [|by apply Hall]. split; [done|].
      eapply Forall2_impl_elem; [by apply Hgall|].
      intros p pe Hin [Hp Hname]. split; [|done]. rewrite Hkeep; [done|].
      assert (Hpid : plugin_id p ∈ uuid4 <$> seq n0 a).
      { rewrite <- Hgids. unfold group_ids. right.
        apply list_elem_of_fmap. eauto. }
      apply list_elem_of_fmap in Hpid as (j & -> & Hj%elem_of_seq).
      apply later_draw_differs; [done | lia].
Qed.

(** The identifiers of a built step are those drawn from the count [n]
    on. *)
Lemma build_step_range flags n step sd id_dict n' :
  build_step' flags n step = Ok (sd, id_dict, n') →
  n' = n + length (step_ids sd)
  ∧ step_ids sd = uuid4 <$> seq n (length (step_ids sd)).
Proof.
  unfold build_step.
  destruct (foldlM _ _ _) as [[[gs idd] k]|e] eqn:Hfold; [|done].
  simpl. intros [= <- <- <-].
  apply build_groups_ids in Hfold as (new & Hnew & -> & Hids & _ & _).
  simpl in Hnew. by subst gs.
Qed.

(** X17.  Step processing draws one identifier for each group and then one
    for each of its plugins, in the order of the step; when the identifiers
    drawn never repeat, no two groups or plugins of the step share one, the
    groups have distinct identifiers, and the identifier dictionary maps the
    identifier of every plugin to the element the plugin was built from. *)
Theorem build_step_identifiers flags n step sd id_dict n' :
  (∀ i j, uuid4 i = uuid4 j → i = j) →
  build_step' flags n step = Ok (sd, id_dict, n') →
  n' = n + length (step_ids sd)
  ∧ step_ids sd = uuid4 <$> seq n (length (step_ids sd))
  ∧ NoDup (step_ids sd)
  ∧ NoDup (map group_id (step_groups sd))
  ∧ Forall2 (λ g ge,
               group_name g = get ge "name"
               ∧ Forall2 (plugin_of id_dict) (group_plugins g)
                   (_ordered_list (find ge "plugins")))
            (step_groups sd)
            (_ordered_list (find step "optionalFileGroups")).
Proof.
  intros Hinj. unfold build_step.
  destruct (foldlM _ _ _) as [[[gs idd] k]|e] eqn:Hfold; [|done].
  simpl. intros [= <- <- <-].
  apply build_groups_ids in Hfold as (new & Hnew & -> & Hids & _ & Hall).
  simpl in Hnew. subst gs. unfold step_ids. cbn [step_groups].
  assert (Hnodup : NoDup (concat (group_ids <$> new))).
  { rewrite Hids. apply NoDup_fmap_2; [exact Hinj | apply NoDup_seq]. }
  split_and!; [done | done | done | | by apply Hall].
  eapply sublist_NoDup; [done | apply group_id_sublist].
Qed.
End identifiers.

Lemma unary_distinct i : ∀ j,
  EngineSamples.unary i = EngineSamples.unary j → i = j.
Proof.
  induction i as [|i IH]; intros [|j]; simpl; try done.
  intros [= Heq]. f_equal. by apply IH.
Qed.

Lemma build_step_identifiers_witness :
  ∃ sd id_dict,
    build_step Samples.no_files EngineSamples.unary None None [∅] 0
      EngineSamples.choice_step = Ok (sd, id_dict, 2)
    ∧ step_ids sd = ["0"; "10"]
    ∧ NoDup (step_ids sd).
Proof.
  assert (Hbuild : ∃ sd id_dict,
             build_step Samples.no_files EngineSamples.unary None None [∅] 0
               EngineSamples.choice_step = Ok (sd, id_dict, 2)
             ∧ step_ids sd = ["0"; "10"])
    by (vm_compute; do 2 eexists; split; reflexivity).
  destruct Hbuild as (sd & id_dict & Hbuild & Hids).
  exists sd, id_dict. split_and!; [done | done |].
  by destruct (build_step_identifiers Samples.no_files EngineSamples.unary
                 None None [∅] 0 EngineSamples.choice_step sd id_dict 2
                 unary_distinct Hbuild) as (_ & _ & Hnodup & _).
Defined.

(** ** The order of a sorted answer *)

Section indexed.
Context {A B : Type} (f : A → option B).

Lemma indexed_omap_snd gs : ∀ a, (indexed_omap f a gs).*2 = omap f gs.
Proof.
  induction gs as [|g gs IH]; intros a; [done|].
  cbn [indexed_omap omap list_omap]. destruct (f g); [|apply IH].
  rewrite fmap_cons. by rewrite IH.
Qed.

Lemma indexed_omap_elem gs : ∀ a k y,
  (k, y) ∈ indexed_omap f a gs
  ↔ ∃ g, a ≤ k ∧ gs !! (k - a) = Some g ∧ f g = Some y.
Proof.
  induction gs as [|g gs IH]; intros a k y.
  - split; [by intros ?%elem_of_nil | by intros (g & _ & ? & _)].
  - cbn [indexed_omap]. split.
    + intros Hin.
      assert ((k = a ∧ f g = Some y) ∨ (k, y) ∈ indexed_omap f (S a) gs)
        as [[-> Hg]|Hin'].
      { destruct (f g) as [y0|]; [|by right].
        apply elem_of_cons in Hin as [[= -> ->]|?]; [by left | by right]. }
      * exists g. by rewrite Nat.sub_diag.
      * apply IH in Hin' as (g' & Hle & Hl & Hf). exists g'.
        split_and!; [lia | | done].
        by replace (k - a) with (S (k - S a)) by lia.
    + intros (g' & Hle & Hl & Hf). destruct (decide (k = a)) as [->|Hne].
      * rewrite Nat.sub_diag in Hl. injection Hl as ->. rewrite Hf. left.
      * assert ((k, y) ∈ indexed_omap f (S a) gs) as Hin.
        { apply IH. exists g'. split_and!; [lia | | done].
          by replace (k - a) with (S (k - S a)) in Hl by lia. }
        destruct (f g); [by right | done].
Qed.

Lemma indexed_omap_sorted gs : ∀ a,
  StronglySorted (λ x y : nat * B, x.1 ≤ y.1) (indexed_omap f a gs)
  ∧ NoDup (indexed_omap f a gs).
Proof.
  induction gs as [|g gs IH]; intros a; cbn [indexed_omap];
    [split; constructor|].
  destruct (IH (S a)) as [Hs Hn]. destruct (f g) as [y0|]; [|done].
  split.
  - constructor; [done|]. apply Forall_forall.
    intros [k y] (g' & Hle & _)%indexed_omap_elem. simpl. lia.
  - constructor; [|done]. intros (g' & Hle & _)%indexed_omap_elem. lia.
Qed.
End indexed.

Lemma StronglySorted_weaken {A} (R1 R2 : A → A → Prop) l :
  (∀ x y, R1 x y → R2 x y) → StronglySorted R1 l → StronglySorted R2 l.
Proof.
  intros Himpl. induction 1 as [|x l _ IH Hx]; constructor; [done|].
  eapply Forall_impl; [exact Hx | by apply Himpl].
Qed.

(** Sorting by position: when the keys are the positions in [gs] of the
    entries [f] keeps, the sorted list is the list of those entries in the
    order of [gs]. *)
Lemma sorted_by_key_indexed {A B} (f : A → option B) (gs : list A)
    (keyed : list (nat * B)) :
  NoDup keyed →
  (∀ k y, (k, y) ∈ keyed ↔ ∃ g, gs !! k = Some g ∧ f g = Some y) →
  sorted_by_key keyed = omap f gs.
Proof.
  intros Hnodup Hkeyed. unfold sorted_by_key.
  rewrite <- (indexed_omap_snd f gs 0). f_equal.
  set (before := λ x y : nat * B, bool_decide (x.1 < y.1)).
  assert (Hperm : sorted before keyed ≡ₚ keyed) by apply sorted_perm.
  assert (Hin0 : ∀ k y, (k, y) ∈ indexed_omap f 0 gs ↔ (k, y) ∈ keyed).
  { intros k y. rewrite indexed_omap_elem, Hkeyed, Nat.sub_0_r. split.
    - intros (g & _ & ? & ?). eauto.
    - intros (g & ? & ?). exists g. split_and!; [lia | done | done]. }
  apply (StronglySorted_unique_strong (λ x y, x.1 ≤ y.1)).
  - intros [k1 y1] [k2 y2] H1 H2 Hle1 Hle2. simpl in Hle1, Hle2.
    assert (k1 = k2) as -> by lia. f_equal.
    rewrite Hperm in H1. apply Hkeyed in H1 as (g1 & Hg1 & Hf1).
    apply Hin0, Hkeyed in H2 as (g2 & Hg2 & Hf2). congruence.
  - eapply StronglySorted_weaken; [|apply (sorted_sorted before)].
    + intros x y Hxy. unfold may_precede, before in Hxy.
      apply bool_decide_eq_false in Hxy. lia.
    + intros x y Hxy. unfold before in *.
      apply bool_decide_eq_true in Hxy. apply bool_decide_eq_false. lia.
    + intros x y z Hxy Hyz. unfold may_precede, before in *.
      apply bool_decide_eq_false in Hxy, Hyz. apply bool_decide_eq_false. lia.
  - apply indexed_omap_sorted.
  - rewrite Hperm. apply NoDup_Permutation; [done | apply indexed_omap_sorted |].
    intros [k y]. by rewrite Hin0.
Qed.

Lemma same_id_same_entry {A} (id_of : A → string) entries a b :
  NoDup (map id_of entries) → a ∈ entries → b ∈ entries →
  id_of a = id_of b → a = b.
Proof.
  intros Hnodup Ha Hb Heq.
  pose proof (from_id_unique id_of entries a Hnodup Ha) as Hfa.
  pose proof (from_id_unique id_of entries b Hnodup Hb) as Hfb.
  rewrite Heq in Hfa. congruence.
Qed.

(** With distinct identifiers, [id_sort] gives the position of the entry
    that has the identifier. *)
Lemma id_sort_position `{EqDecision A} (id_of : A → string) entries id_ k :
  NoDup (map id_of entries) →
  id_sort id_of entries id_ = Ok k
  ↔ ∃ a, entries !! k = Some a ∧ id_of a = id_.
Proof.
  intros Hnodup. split.
  - unfold id_sort, from_id, list_index.
    destruct (list_find (λ a, id_of a = id_) entries) as [[i a]|] eqn:Hf; [|done].
    simpl. destruct (list_find (λ x, x = a) entries) as [[j b]|] eqn:Hj; [|done].
    intros [= ->]. apply list_find_Some in Hf as (_ & Hid & _).
    apply list_find_Some in Hj as (Hk & -> & _). eauto.
  - intros (a & Hk & <-).
    assert (Ha : a ∈ entries) by by eapply list_elem_of_lookup_2.
    unfold id_sort. rewrite (from_id_unique id_of entries a Hnodup Ha). simpl.
    unfold list_index.
    destruct (list_find (λ x, x = a) entries) as [[j c]|] eqn:Hj.
    + apply list_find_Some in Hj as (Hj & -> & _). f_equal.
      eapply (NoDup_lookup (map id_of entries)); [done | |].
      * change (map id_of entries) with (id_of <$> entries).
        by rewrite list_lookup_fmap, Hj.
      * change (map id_of entries) with (id_of <$> entries).
        by rewrite list_lookup_fmap, Hk.
    + apply list_find_None in Hj. rewrite Forall_forall in Hj.
      by destruct (Hj a Ha).
Qed.

(** The list of pairs built for [sorted(..., key=...)]. *)
Lemma keyed_elem {A} (key : A → result nat) (xs : list A) :
  (∀ x, x ∈ xs → ∃ k, key x = Ok k) →
  ∃ keyed, mapM' (λ x, k ← key x; Ok (k, x)) xs = Ok keyed
           ∧ keyed.*2 = xs
           ∧ ∀ k x, (k, x) ∈ keyed ↔ x ∈ xs ∧ key x = Ok k.
Proof.
  induction xs as [|x xs IH]; intros Hkeys.
  - exists []. split_and!; [done | done |]. intros k x.
    split; [by intros ?%elem_of_nil | by intros [?%elem_of_nil _]].
  - destruct IH as (keyed & Hmap & Hsnd & Hin).
    { intros y Hy. apply Hkeys. by right. }
    destruct (Hkeys x) as [k0 Hk0]; [left|].
    exists ((k0, x) :: keyed). split_and!.
    + cbn [mapM']. rewrite Hk0. simpl. by rewrite Hmap.
    + by rewrite fmap_cons, Hsnd.
    + intros k y. rewrite !elem_of_cons, Hin. split.
      * intros [[= -> ->]|[? ?]];
          [split; [by left | done] | split; [by right | done]].
      * intros [[->|Hy] Hk]; [left; congruence | by right].
Qed.

Lemma omap_selected group (l : list string) :
  omap (λ p, if decide (plugin_id p ∈ l) then Some (plugin_id p) else None)
       (group_plugins group)
  = selected_plugins group l.
Proof.
  unfold selected_plugins.
  induction (group_plugins group) as [|p ps IH]; [done|].
  cbn [omap list_omap]. rewrite filter_cons.
  destruct (decide (plugin_id p ∈ l)); [|exact IH].
  rewrite fmap_cons. f_equal. exact IH.
Qed.

(** The selection of a group, sorted: the selected plugins in the order of
    the group, each once. *)
Lemma sort_selection_order sd group l :
  NoDup (map group_id (step_groups sd)) → group ∈ step_groups sd →
  NoDup (map plugin_id (group_plugins group)) →
  (∀ id_, id_ ∈ l → ∃ p, p ∈ group_plugins group ∧ plugin_id p = id_) →
  sort_selection sd (group_id group) (VList l)
  = Ok (selected_plugins group l).
Proof.
  intros Hgroups Hin Hplugins Hknown. unfold sort_selection.
  rewrite (from_id_unique group_id _ group Hgroups Hin). simpl.
  destruct (keyed_elem (id_sort plugin_id (group_plugins group)) (remove_dups l))
    as (keyed & -> & Hsnd & Hkeyed).
  { intros x Hx. rewrite elem_of_remove_dups in Hx.
    apply (id_sort_known plugin_id). by apply Hknown. }
  simpl. f_equal. rewrite <- omap_selected.
  apply sorted_by_key_indexed.
  - apply (NoDup_fmap_1 snd). rewrite Hsnd. apply NoDup_remove_dups.
  - intros k y. rewrite Hkeyed, elem_of_remove_dups, id_sort_position by done.
    split.
    + intros (Hy & p & Hk & <-). exists p. split; [done|].
      by rewrite decide_True.
    + intros (p & Hk & Hf). case_decide; [|done]. injection Hf as <-. eauto.
Qed.

Lemma step_ids_plugins sd group :
  NoDup (step_ids sd) → group ∈ step_groups sd →
  NoDup (map plugin_id (group_plugins group)).
Proof.
  unfold step_ids. induction (step_groups sd) as [|g gs IH];
    [by intros _ ?%elem_of_nil|].
  rewrite fmap_cons. cbn [concat]. intros (Hg & _ & Hgs)%NoDup_app.
  intros [->|Hin]%elem_of_cons; [|by apply IH].
  unfold group_ids in Hg. by apply NoDup_cons in Hg as [_ Hg].
Qed.

(** X18.  An answer whose keys are groups of the step and whose entries are
    lists of plugins of their groups is sorted without failure, once the
    identifiers of the step are distinct: the result lists the groups that
    have an entry in the order of the step, and for each one the plugins
    selected in the order of the group, each once, whatever the order and
    the repetitions in the answer. *)
Theorem normalize_step_order sd (answer : answer_dict) :
  NoDup (step_ids sd) →
  (∀ key, is_Some (answer !! key) → key ∈ map group_id (step_groups sd)) →
  (∀ group, group ∈ step_groups sd → entry_known answer group) →
  normalize sd answer = Ok (selected_in_order sd answer).
Proof.
  intros Hids Hkeys Hknown.
  assert (Hgroups : NoDup (map group_id (step_groups sd))).
  { eapply sublist_NoDup; [exact Hids | apply group_id_sublist]. }
  unfold normalize.
  destruct (mapM'_ok
              (λ '(gid, v), ids ← sort_selection sd gid v; Ok (gid, ids))
              (λ gv item,
                 item.1 = gv.1
                 ∧ ∀ group, group ∈ step_groups sd → group_id group = gv.1 →
                     ∃ l, gv.2 = VList l
                          ∧ item = (gv.1, selected_plugins group l))
              (map_to_list answer)) as (items & -> & Hitems).
  { intros [gid v] Hgv%elem_of_map_to_list.
    assert (Hgid : gid ∈ map group_id (step_groups sd)) by (apply Hkeys; eauto).
    apply list_elem_of_fmap in Hgid as (g & -> & Hg).
    destruct (Hknown g Hg v Hgv) as (l & -> & Hl).
    rewrite (sort_selection_order sd g l Hgroups Hg); [|by eapply step_ids_plugins|done].
    simpl. eexists. split; [done|]. split; [done|]. simpl.
    intros g' Hg' Heq. exists l. split; [done|].
    by rewrite (same_id_same_entry group_id _ g' g Hgroups Hg' Hg Heq). }
  simpl.
  assert (Hitem_group : ∀ item, item ∈ items →
            ∃ g l, g ∈ step_groups sd ∧ answer !! group_id g = Some (VList l)
                   ∧ item = (group_id g, selected_plugins g l)).
  { intros item Hitem. apply list_elem_of_lookup in Hitem as [i Hi].
    destruct (Forall2_lookup_r _ _ _ _ _ Hitems Hi) as ([gid v] & Hgv & _ & Hsel).
    apply list_elem_of_lookup_2, elem_of_map_to_list in Hgv.
    assert (Hgid : gid ∈ map group_id (step_groups sd)) by (apply Hkeys; eauto).
    apply list_elem_of_fmap in Hgid as (g & -> & Hg).
    destruct (Hsel g Hg eq_refl) as (l & Hv & ->). simpl in Hv. subst v.
    eauto. }
  destruct (keyed_elem (λ item : string * list string,
                          id_sort group_id (step_groups sd) item.1) items)
    as (keyed & -> & Hsnd & Hkeyed).
  { intros item Hitem.
    destruct (Hitem_group item Hitem) as (g & l & Hg & _ & ->).
    apply id_sort_known. eauto. }
  simpl. f_equal. unfold selected_in_order. apply sorted_by_key_indexed.
  - apply (NoDup_fmap_1 snd). rewrite Hsnd. apply (NoDup_fmap_1 fst).
    assert (items.*1 = (map_to_list answer).*1) as ->.
    { clear -Hitems. induction Hitems as [|gv item gvs its [Hfst _] _ IH]; [done|].
      by rewrite !fmap_cons, Hfst, IH. }
    apply NoDup_fst_map_to_list.
  - intros k item. rewrite Hkeyed. split.
    + intros [Hitem Hsort].
      destruct (Hitem_group item Hitem) as (g & l & Hg & Hl & ->).
      apply id_sort_position in Hsort as (g' & Hk & Heq); [|done].
      assert (g' = g) as ->.
      { eapply same_id_same_entry; [done | by eapply list_elem_of_lookup_2 | done | done]. }
      exists g. by rewrite Hl.
    + intros (g & Hk & Hf).
      assert (Hg : g ∈ step_groups sd) by by eapply list_elem_of_lookup_2.
      destruct (answer !! group_id g) as [[| |l]|] eqn:Hl; try done.
      injection Hf as <-. split.
      * apply elem_of_map_to_list, list_elem_of_lookup in Hl as [i Hi].
        destruct (Forall2_lookup_l _ _ _ _ _ Hitems Hi) as (item & Hitem & _ & Hsel).
        destruct (Hsel g Hg eq_refl) as (l' & [= <-] & ->).
        by eapply list_elem_of_lookup_2.
      * apply id_sort_position; [done|]. eauto.
Qed.

Lemma normalize_step_order_witness :
  normalize ValidationSamples.one_step SortSamples.b_a_b = Ok [("g", ["a"; "b"])].
Proof.
  rewrite normalize_step_order.
  - vm_compute. reflexivity.
  - refine (bool_decide_unpack _ _). vm_compute. exact I.
  - intros key [v Hv]. unfold SortSamples.b_a_b in Hv.
    apply lookup_singleton_Some in Hv as [<- _]. simpl. left.
  - intros group Hgroup%list_elem_of_singleton v Hv. subst group.
    unfold SortSamples.b_a_b in Hv.
    apply lookup_singleton_Some in Hv as [_ <-]. eexists. split; [done|].
    intros id_ Hid. apply list_elem_of_In in Hid. simpl in Hid.
    destruct Hid as [<-|[<-|[<-|[]]]].
    + exists ValidationSamples.required_b. split; [|done]. right. left.
    + exists ValidationSamples.option_a. split; [|done]. left.
    + exists ValidationSamples.required_b. split; [|done]. right. left.
Defined.

(** ** The layers of a step *)

Lemma mapM_option_app {A B} (f : A → option B) l1 l2 :
  mapM f (l1 ++ l2)
  = match mapM f l1, mapM f l2 with
    | Some k1, Some k2 => Some (k1 ++ k2)
    | _, _ => None
    end.
Proof.
  induction l1 as [|x l1 IH]; simpl.
  - by destruct (mapM f l2).
  - destruct (f x); simpl; [|done]. rewrite IH.
    by destruct (mapM f l1), (mapM f l2).
Qed.

(** The inner loop of the collection: one layer for each identifier, the
    last one in front; [KeyError] for an identifier that is not in the
    identifier dictionary. *)
Lemma collect_ids (id_dict : gmap string Element) ids :
  ∀ (fc : list file_dict) (gc : list flag_dict),
  foldlM (λ '(step_file_chain, step_flag_chain) id_,
            match id_dict !! id_ with
            | None => Raise KeyError
            | Some plugin =>
                Ok (_collect_files (find plugin "files") step_file_chain,
                    _collect_flags (find plugin "conditionFlags") step_flag_chain)
            end)
         (fc, gc) ids
  = match mapM (λ id_, id_dict !! id_) ids with
    | Some plugins =>
        Ok (reverse (plugin_files <$> plugins) ++ fc,
            reverse (plugin_flags <$> plugins) ++ gc)
    | None => Raise KeyError
    end.
Proof.
  induction ids as [|id_ ids IH]; intros fc gc; [done|].
  cbn [foldlM mapM]. destruct (id_dict !! id_) as [plugin|]; [|done].
  cbn [mbind result_bind option_bind]. rewrite IH.
  destruct (mapM _ ids) as [plugins|]; [|done].
  cbn [mbind option_bind mret option_ret].
  rewrite !fmap_cons, !reverse_cons, <- !app_assoc. done.
Qed.

Lemma collect_step_chains (id_dict : gmap string Element)
    (answer : list (string * list string)) :
  collect_step id_dict answer
  = match mapM (λ id_, id_dict !! id_) (concat answer.*2) with
    | Some plugins =>
        Ok (reverse (plugin_files <$> plugins) ++ [∅],
            reverse (plugin_flags <$> plugins) ++ [∅])
    | None => Raise KeyError
    end.
Proof.
  unfold collect_step.
  generalize ([∅] : list file_dict) ([∅] : list flag_dict).
  induction (answer.*2) as [|ids idss IH]; intros fc gc; [done|].
  cbn [foldlM concat]. rewrite collect_ids, mapM_option_app.
  destruct (mapM _ ids) as [k1|]; [|done]. simpl. rewrite IH.
  destruct (mapM _ (concat idss)) as [k2|]; [|done].
  by rewrite !fmap_app, !reverse_app, <- !app_assoc.
Qed.

Lemma NestedChainMap_getitem_base (maps : list file_dict) prio :
  NestedChainMap_getitem (maps ++ [∅]) prio = NestedChainMap_getitem maps prio.
Proof.
  unfold NestedChainMap_getitem. rewrite omap_app. simpl.
  rewrite lookup_empty. by rewrite app_nil_r.
Qed.

Lemma dict_of_NestedChainMap (maps : list file_dict) prio :
  dict_of (ChainMap_keys maps) (NestedChainMap_getitem maps) !! prio
  = NestedChainMap_getitem maps prio.
Proof.
  rewrite dict_of_lookup.
  destruct (decide (prio ∈ ChainMap_keys maps)) as [|Hnot]; [done|].
  rewrite elem_of_ChainMap_keys, <- NestedChainMap_getitem_is_Some in Hnot.
  destruct (NestedChainMap_getitem maps prio); [|done].
  destruct Hnot. eauto.
Qed.

(** X19.  The two layers an answer adds are those of the selected plugins
    taken in the order of the sorted answer: the flag layer gives a flag
    the value of the last of these plugins that sets it, and the file layer
    gives under a priority the entries of all of them, the later plugins
    over the earlier ones. *)
Theorem step_layers_last_plugin_wins sd (id_dict : gmap string Element)
    (answer : answer_dict) file_layer flag_layer :
  answer_layers sd id_dict answer = Ok (file_layer, flag_layer) →
  ∃ normalized plugins,
    (validate sd answer ≫= normalize sd) = Ok normalized
    ∧ mapM (λ id_, id_dict !! id_) (concat normalized.*2) = Some plugins
    ∧ (∀ name, flag_layer !! name
               = ChainMap_getitem (reverse (plugin_flags <$> plugins)) name)
    ∧ (∀ prio, file_layer !! prio
               = NestedChainMap_getitem (reverse (plugin_files <$> plugins)) prio).
Proof.
  unfold answer_layers.
  destruct (validate sd answer) as [validated|e]; [|done]. simpl.
  destruct (normalize sd validated) as [normalized|e]; [|done]. simpl.
  rewrite collect_step_chains.
  destruct (mapM _ (concat normalized.*2)) as [plugins|] eqn:Hplugins; [|done].
  simpl. intros [= <- <-]. exists normalized, plugins.
  split_and!; [done | done | |].
  - intros name. rewrite dict_of_ChainMap, ChainMap_getitem_app.
    destruct (ChainMap_getitem _ name); [done|]. simpl. by rewrite lookup_empty.
  - intros prio. by rewrite dict_of_NestedChainMap, NestedChainMap_getitem_base.
Qed.

Lemma step_layers_last_plugin_wins_witness :
  ∃ file_layer flag_layer,
    answer_layers ValidationSamples.one_step SortSamples.sample_elements
      ValidationSamples.only_a = Ok (file_layer, flag_layer)
    ∧ flag_layer !! Some "F" = Some "2".
Proof.
  assert (Hlayers : ∃ file_layer flag_layer,
             answer_layers ValidationSamples.one_step
               SortSamples.sample_elements ValidationSamples.only_a
             = Ok (file_layer, flag_layer))
    by (vm_compute; do 2 eexists; reflexivity).
  destruct Hlayers as (file_layer & flag_layer & Hlayers).
  exists file_layer, flag_layer. split; [exact Hlayers|].
  destruct (step_layers_last_plugin_wins _ _ _ _ _ Hlayers)
    as (normalized & plugins & Hnorm & Hplugins & Hflags & _).
  rewrite Hflags. vm_compute in Hnorm. injection Hnorm as <-.
  vm_compute in Hplugins. injection Hplugins as <-.
  clear. vm_compute. reflexivity.
Defined.

(** ** Identifiers over the life of an installer *)

Section fresh_identifiers.
Variable path_exists : string → string → bool.
Variable uuid4 : nat → string.
Variable root : Element.
Variable dest : option string.
Variable game_version : option string.

Local Abbreviation advance' := (advance path_exists uuid4 root dest game_version).
Local Abbreviation send' := (send path_exists uuid4 root dest game_version).
Local Abbreviation sends' := (sends path_exists uuid4 root dest game_version).
Local Abbreviation reachable' :=
  (reachable path_exists uuid4 root dest game_version).
Local Abbreviation conditional_installs' :=
  (conditional_installs path_exists dest game_version).
Local Abbreviation drawn_below' := (drawn_below uuid4).

Lemma conditional_installs_uuids pattern_list : ∀ self,
  uuids (conditional_installs' self pattern_list).2 = uuids self.
Proof.
  induction pattern_list as [|pattern pattern_list IH]; intros self;
    cbn [conditional_installs]; [by destruct self|].
  destruct (assert_on_chain _ _ _ _ _) as [[]|e].
  - rewrite IH. by destruct self.
  - destruct e; first [apply IH | by destruct self].
Qed.

Lemma pop_layers_uuids self : uuids (pop_layers self) = uuids self.
Proof. unfold pop_layers. repeat case_bool_decide; by destruct self. Qed.

(** What [advance] does to the count: it never goes down, and a step that
    is handed out has the identifiers drawn from the old count up to the
    new one. *)
Lemma advance_uuids self l :
  uuids self ≤ uuids (advance' self l).2
  ∧ (∀ sd, (advance' self l).1 = Ok (Some sd) →
       current_step (advance' self l).2 = Some sd
       ∧ uuids (advance' self l).2 = uuids self + length (step_ids sd)
       ∧ step_ids sd = uuid4 <$> seq (uuids self) (length (step_ids sd)))
  ∧ (∀ sd, current_step (advance' self l).2 = Some sd →
       (advance' self l).1 = Ok (Some sd)).
Proof.
  unfold advance.
  destruct (next_visible _ _ _ _ _ _) as [[[index' step]|]|e].
  - destruct (build_step _ _ _ _ _ _ _) as [[[sd id_dict] n]|e] eqn:Hbuild.
    + apply build_step_range in Hbuild as [-> Hids]. cbn.
      split_and!; [lia | by intros ? [= <-] | by intros ? [= <-]].
    + cbn. split_and!; [done | done | done].
  - rewrite conditional_installs_uuids.
    destruct (conditional_installs_effect path_exists dest game_version
                (_explicit_list (find2 root "conditionalFileInstalls" "patterns"))
                self) as (extra & Hgen & Hok & _).
    split_and!; [done | |].
    + intros sd Hsd. by rewrite Hsd in Hok.
    + intros sd. unfold current_step. by rewrite Hgen.
  - cbn. split_and!; [done | done | done].
Qed.

(** What one call does to the count and to the step handed out. *)
Lemma send_uuids self value :
  uuids self ≤ uuids (send' self value).2
  ∧ (∀ sd, (send' self value).1 = Ok (Some sd) →
       ∃ m, uuids self ≤ m
            ∧ m + length (step_ids sd) ≤ uuids (send' self value).2
            ∧ step_ids sd = uuid4 <$> seq m (length (step_ids sd)))
  ∧ (∀ sd, current_step self = None →
           current_step (send' self value).2 = Some sd →
           (send' self value).1 = Ok (Some sd))
  ∧ (∀ sd, current_step self = Some sd →
           current_step (send' self value).2 = Some sd
           ∨ ∀ sd', current_step (send' self value).2 = Some sd' →
                    (send' self value).1 = Ok (Some sd')).
Proof.
  assert (Hadv : ∀ s l,
            uuids s = uuids self →
            uuids self ≤ uuids (advance' s l).2
            ∧ (∀ sd, (advance' s l).1 = Ok (Some sd) →
                 ∃ m, uuids self ≤ m
                      ∧ m + length (step_ids sd) ≤ uuids (advance' s l).2
                      ∧ step_ids sd = uuid4 <$> seq m (length (step_ids sd)))
            ∧ (∀ sd, current_step (advance' s l).2 = Some sd →
                     (advance' s l).1 = Ok (Some sd))).
  { intros s l Hs. destruct (advance_uuids s l) as (Hle & Hstep & Hcur).
    split_and!; [lia | | done].
    intros sd Hsd. destruct (Hstep sd Hsd) as (_ & Hn & Hids).
    exists (uuids s). split_and!; [lia | lia | done]. }
  unfold send. destruct (gen self) as [| |l id_dict sd0|l id_dict sd0 answer|] eqn:Hgen.
  - destruct value as [answer|].
    + cbn. unfold current_step. rewrite Hgen.
      split_and!; [done | done | done | intros ? _; by right].
    + destruct (_assert_dependencies _ _ _ _ _) as [[]|e]; cbn;
        split_and!; [done | done | done | intros ? _; by right
                    | done | done | done | intros ? _; by right].
  - destruct (Hadv self {| step_list := _ordered_list (find root "installSteps");
                           previous_index := [0%Z]; index := (-1)%Z |} eq_refl)
      as (Hle & Hstep & Hcur).
    split_and!; [done | done | by intros sd _; apply Hcur |].
    unfold current_step at 1. rewrite Hgen. done.
  - cbn. unfold current_step. rewrite Hgen. cbn. split_and!; [done..|].
    intros sd [= <-]. by left.
  - assert (Hproc : ∀ s l', uuids s = uuids self →
              uuids self ≤ uuids (advance' s l').2
              ∧ (∀ sd, (advance' s l').1 = Ok (Some sd) →
                   ∃ m, uuids self ≤ m
                        ∧ m + length (step_ids sd) ≤ uuids (advance' s l').2
                        ∧ step_ids sd = uuid4 <$> seq m (length (step_ids sd)))
              ∧ (∀ sd, current_step self = None →
                       current_step (advance' s l').2 = Some sd →
                       (advance' s l').1 = Ok (Some sd))
              ∧ (∀ sd, current_step self = Some sd →
                       current_step (advance' s l').2 = Some sd
                       ∨ ∀ sd', current_step (advance' s l').2 = Some sd' →
                                (advance' s l').1 = Ok (Some sd'))).
    { intros s l' Hs. destruct (Hadv s l' Hs) as (Hle & Hstep & Hcur).
      split_and!; [done | done | by intros sd _; apply Hcur |].
      intros sd _. by right. }
    unfold process_answer. destruct answer as [answer|].
    + destruct (truthy _).
      * unfold go_back. destruct (list_pop _) as [[i rest]|];
          apply Hproc, pop_layers_uuids.
      * unfold go_forward.
        destruct (answer_layers _ _ _) as [[file_layer flag_layer]|e].
        -- apply Hproc. by destruct self.
        -- cbn. split_and!; [done | done | done |]. intros sd _. by right.
    + cbn. split_and!; [done | done | done |]. intros sd _. by right.
  - cbn. unfold current_step. rewrite Hgen.
    split_and!; [done | done | done | intros ? _; by right].
Qed.

Lemma sends_uuids values : ∀ self, uuids self ≤ uuids (sends' self values).
Proof.
  induction values as [|value values IH]; intros self; [done|].
  cbn [sends foldl]. etrans; [apply (send_uuids self value)|apply IH].
Qed.

Lemma reachable_drawn_below self sd :
  reachable' self → current_step self = Some sd →
  drawn_below' (uuids self) sd.
Proof.
  intros Hreach. revert sd.
  induction Hreach as [|self value Hreach IH]; intros sd Hsd; [done|].
  destruct (send_uuids self value) as (Hle & Hstep & Hnone & Hsome).
  destruct (current_step self) as [sd0|] eqn:Hcur.
  - destruct (Hsome sd0 eq_refl) as [Hsame|Hnew].
    + rewrite Hsame in Hsd. injection Hsd as <-.
      destruct (IH sd0 eq_refl) as (m & Hm & Hids).
      exists m. split; [lia | done].
    + destruct (Hstep sd (Hnew sd Hsd)) as (m & _ & Hm & Hids).
      exists m. by split.
  - destruct (Hstep sd (Hnone sd eq_refl Hsd)) as (m & _ & Hm & Hids).
    exists m. by split.
Qed.

(** X20.  When the identifiers drawn never repeat, no identifier of a step
    that was handed out is an identifier of a step handed out by a later
    call, be it the same step handed out again after a request for the
    previous step. *)
Theorem identifiers_never_reused self sd values value sd' :
  (∀ i j, uuid4 i = uuid4 j → i = j) →
  reachable' self → current_step self = Some sd →
  (send' (sends' self values) value).1 = Ok (Some sd') →
  ∀ id_, id_ ∈ step_ids sd → id_ ∉ step_ids sd'.
Proof.
  intros Hinj Hreach Hsd Hyield id_ Hold Hnew.
  destruct (reachable_drawn_below self sd Hreach Hsd) as (m & Hm & Hids).
  destruct (send_uuids (sends' self values) value) as (_ & Hstep & _).
  destruct (Hstep sd' Hyield) as (m' & Hm' & _ & Hids').
  pose proof (sends_uuids values self) as Hmono.
  rewrite Hids in Hold. rewrite Hids' in Hnew.
  apply list_elem_of_fmap in Hold as (j & -> & Hj%elem_of_seq).
  apply list_elem_of_fmap in Hnew as (j' & Heq & Hj'%elem_of_seq).
  apply Hinj in Heq. lia.
Qed.
End fresh_identifiers.

Lemma identifiers_never_reused_witness :
  ∃ sd sd',
    current_step EngineSamples.first_step_unary = Some sd
    ∧ (send Samples.no_files EngineSamples.unary EngineSamples.two_steps
         None None
         (sends Samples.no_files EngineSamples.unary EngineSamples.two_steps
            None None EngineSamples.first_step_unary [Some Scenario.back])
         None).1 = Ok (Some sd')
    ∧ step_name sd' = step_name sd
    ∧ ∀ id_, id_ ∈ step_ids sd → id_ ∉ step_ids sd'.
Proof.
  assert (Hrun : ∃ sd sd',
             current_step EngineSamples.first_step_unary = Some sd
             ∧ (send Samples.no_files EngineSamples.unary
                  EngineSamples.two_steps None None
                  (sends Samples.no_files EngineSamples.unary
                     EngineSamples.two_steps None None
                     EngineSamples.first_step_unary [Some Scenario.back])
                  None).1 = Ok (Some sd')
             ∧ step_name sd' = step_name sd)
    by (vm_compute; do 2 eexists; split_and!; reflexivity).
  destruct Hrun as (sd & sd' & Hsd & Hyield & Hname).
  exists sd, sd'. split_and!; [done | done | done |].
  apply (identifiers_never_reused Samples.no_files EngineSamples.unary
           EngineSamples.two_steps None None EngineSamples.first_step_unary
           sd [Some Scenario.back] None sd' unary_distinct); [|done|done].
  unfold EngineSamples.first_step_unary.
  do 2 apply reachable_send. apply reachable_init.
Defined.

(** ** The operator [Or] *)

Section or_claim.
Variable path_exists : string → string → bool.
Variable flag_states_get : option string → string → string.
Variable dest : option string.
Variable game_version : option string.

Local Abbreviation assert_element' :=
  (assert_element path_exists flag_states_get dest game_version).
Local Abbreviation check1 :=
  (check_dependency path_exists flag_states_get dest game_version assert_element').
Local Abbreviation satisfied' :=
  (satisfied path_exists flag_states_get dest game_version).
Local Abbreviation fails_with' :=
  (fails_with path_exists flag_states_get dest game_version).
Local Abbreviation quiet' := (quiet path_exists flag_states_get dest game_version).
Local Abbreviation misses' := (misses path_exists flag_states_get dest game_version).


End or_claim.


(** ** The request for the previous step *)

Section back_facts.
Variable path_exists : string → string → bool.
Variable uuid4 : nat → string.
Variable root : Element.
Variable dest : option string.
Variable game_version : option string.

Local Abbreviation assert_on_chain' :=
  (assert_on_chain path_exists dest game_version).
Local Abbreviation next_visible' := (next_visible path_exists dest game_version).
Local Abbreviation build_step' :=
  (build_step path_exists uuid4 dest game_version).
Local Abbreviation advance' := (advance path_exists uuid4 root dest game_version).
Local Abbreviation go_back' := (go_back path_exists uuid4 root dest game_version).
Local Abbreviation go_forward' :=
  (go_forward path_exists uuid4 root dest game_version).
Local Abbreviation send' := (send path_exists uuid4 root dest game_version).
Local Abbreviation next' := (next path_exists uuid4 root dest game_version).
Local Abbreviation reachable' :=
  (reachable path_exists uuid4 root dest game_version).
Local Abbreviation buildable' := (buildable path_exists uuid4 dest game_version).
Local Abbreviation shown' := (shown path_exists uuid4 dest game_version).
Local Abbreviation skipped' := (skipped path_exists dest game_version).
Local Abbreviation trail' := (trail path_exists uuid4 dest game_version).
Local Abbreviation trail_ok' := (trail_ok path_exists uuid4 dest game_version).

(** The search, read both ways. *)
Lemma next_visible_skips flags rest : ∀ start i step,
  next_visible' flags rest start = Ok (Some (i, step)) →
  ∃ k, i = (start + Z.of_nat k)%Z
       ∧ rest !! k = Some step
       ∧ assert_on_chain' flags (find step "visible") = Ok ()
       ∧ skipped' rest flags 0 k.
Proof.
  induction rest as [|s rest IH]; intros start i step; [done|].
  cbn [next_visible].
  destruct (assert_on_chain' flags (find s "visible")) as [[]|e] eqn:Hvis.
  - intros [= <- <-]. exists 0. split_and!; [lia | done | done |].
    intros j ? Hj. lia.
  - destruct e as [ty ex ac| | | | | |]; try done. intros Hnext.
    destruct (IH _ _ _ Hnext) as (k & -> & Hk & Hok & Hskip).
    exists (S k). split_and!; [lia | done | done |].
    intros [|j] s' Hj Hs; simplify_eq/=; [eauto|].
    apply (Hskip j); [lia | done].
Qed.

Lemma next_visible_at flags k : ∀ rest start step,
  rest !! k = Some step →
  assert_on_chain' flags (find step "visible") = Ok () →
  skipped' rest flags 0 k →
  next_visible' flags rest start = Ok (Some ((start + Z.of_nat k)%Z, step)).
Proof.
  induction k as [|k IH]; intros [|s rest] start step Hk Hvis Hskip; try done.
  - injection Hk as ->. cbn [next_visible]. rewrite Hvis.
    by replace (start + Z.of_nat 0)%Z with start by lia.
  - cbn [next_visible].
    destruct (Hskip 0 s) as (ty & ex & ac & ->); [lia | done |].
    rewrite (IH rest (start + 1)%Z step Hk Hvis).
    + by replace (start + 1 + Z.of_nat k)%Z with (start + Z.of_nat (S k))%Z by lia.
    + intros j s' Hj Hs. apply (Hskip (S j)); [lia | done].
Qed.

Lemma skipped_drop steps flags start k :
  skipped' (drop start steps) flags 0 k ↔ skipped' steps flags start k.
Proof.
  unfold skipped. split; intros Hskip j s Hj Hs.
  - apply (Hskip j s Hj). by rewrite lookup_drop.
  - apply (Hskip j s Hj). by rewrite lookup_drop in Hs.
Qed.

(** Advancing to a step that can be shown hands it out. *)
Lemma advance_at self l k step :
  (-1 ≤ index l)%Z →
  step_list l !! (Z.to_nat (index l + 1) + k) = Some step →
  assert_on_chain' (_flag_states self) (find step "visible") = Ok () →
  skipped' (step_list l) (_flag_states self) (Z.to_nat (index l + 1)) k →
  buildable' (_flag_states self) step →
  ∃ sd id_dict n,
    advance' self l
    = (Ok (Some sd),
       set_gen (AtStep {| step_list := step_list l;
                          previous_index := previous_index l;
                          index := (index l + 1 + Z.of_nat k)%Z |} id_dict sd)
               (set_uuids n self))
    ∧ step_name sd = get step "name".
Proof.
  intros Hidx Hstep Hvis Hskip Hbuild. unfold advance.
  rewrite (next_visible_at (_flag_states self) k _ _ step);
    [|by rewrite lookup_drop | done | by apply skipped_drop].
  destruct (buildable_any path_exists uuid4 dest game_version
              (_flag_states self) step (uuids self) Hbuild)
    as (sd & idd & n & -> & Hname).
  by exists sd, idd, n.
Qed.

(** A step that advancing hands out was found by the search and built. *)
Lemma advance_found self l sd s' :
  advance' self l = (Ok (Some sd), s') →
  ∃ id_dict n step k,
    s' = set_gen (AtStep {| step_list := step_list l;
                            previous_index := previous_index l;
                            index := (index l + 1 + Z.of_nat k)%Z |} id_dict sd)
                 (set_uuids n self)
    ∧ step_list l !! (Z.to_nat (index l + 1) + k) = Some step
    ∧ assert_on_chain' (_flag_states self) (find step "visible") = Ok ()
    ∧ skipped' (step_list l) (_flag_states self) (Z.to_nat (index l + 1)) k
    ∧ buildable' (_flag_states self) step
    ∧ step_name sd = get step "name".
Proof.
  unfold advance.
  destruct (next_visible' _ _ _) as [[[i step]|]|e] eqn:Hnext.
  - apply next_visible_skips in Hnext as (k & -> & Hk & Hvis & Hskip).
    destruct (build_step' _ _ step) as [[[sd0 idd] n]|e] eqn:Hb; [|done].
    intros [= <- <-]. exists idd, n, step, k.
    split_and!; [done | by rewrite lookup_drop in Hk | done
                | by apply skipped_drop | by exists (uuids self), (sd0, idd, n)
                | by eapply build_step_name].
  - intros Hcond.
    destruct (conditional_installs_effect path_exists dest game_version
                (_explicit_list (find2 root "conditionalFileInstalls" "patterns"))
                self) as (extra & _ & Hok & _).
    by rewrite Hcond in Hok.
  - done.
Qed.

Lemma trail_head steps flags i rest :
  trail' steps flags (i :: rest) → shown' steps flags i.
Proof. by inversion 1. Qed.

Lemma trail_flags steps flags idxs : trail' steps flags idxs → flags ≠ [].
Proof. by inversion 1. Qed.

(** What the generator does with a request for the previous step, from a
    frame on a trail: it takes one layer from each chain when there is one
    over the base, goes back to the index recorded last, or to the start
    when no answer is recorded, and hands out the step found there. *)
Lemma go_back_outcome self l bottom idxs fl fi :
  _flag_states self = fl ++ [∅] →
  _collected_files self = fi ++ [required_layer root; ∅] →
  length fl = length fi →
  previous_index l = bottom ++ idxs →
  bottom = [0%Z] ∨ bottom = [] →
  trail' (step_list l) (_flag_states self) (index l :: reverse idxs) →
  ∃ sd' idd' n' l' step,
    go_back' self l
    = (Ok (Some sd'), set_gen (AtStep l' idd' sd') (set_uuids n' (pop_layers self)))
    ∧ step_list l' = step_list l
    ∧ step_list l !! Z.to_nat (index l') = Some step
    ∧ step_name sd' = get step "name"
    ∧ _flag_states (pop_layers self) = tail fl ++ [∅]
    ∧ _collected_files (pop_layers self) = tail fi ++ [required_layer root; ∅]
    ∧ ((fl = [] ∧ idxs = [] ∧ index l' = index l ∧ previous_index l' = []
        ∧ trail' (step_list l) (tail fl ++ [∅]) [index l'])
       ∨ (∃ idxs', fl ≠ [] ∧ idxs = idxs' ++ [index l']
                   ∧ previous_index l' = bottom ++ idxs'
                   ∧ (index l' < index l)%Z
                   ∧ trail' (step_list l) (tail fl ++ [∅])
                       (index l' :: reverse idxs'))).
Proof.
  intros Hfl Hfi Hlen Hprev Hbottom Htrail.
  destruct (pop_layers_shape root self fl fi Hfl Hfi Hlen) as [Hpfl Hpfi].
  destruct idxs as [|i idxs' _] using rev_ind.
  - (* no answer is recorded *)
    rewrite Hfl in Htrail. simpl in Htrail.
    inversion Htrail as [base i0 Hshown Hskip Hbase Hi|]; subst.
    destruct fl as [|x [|y fl]]; simplify_eq/=.
    destruct Hshown as (Hidx & step & Hstep & Hvis & Hbuild).
    rewrite app_nil_r in Hprev. unfold go_back.
    assert (∃ i rest,
              match list_pop (previous_index l) with
              | Some (i, rest) => ((i - 1)%Z, rest)
              | None => ((-1)%Z, previous_index l)
              end = (i, rest) ∧ i = (-1)%Z ∧ rest = []) as (i & rest & -> & -> & ->).
    { rewrite Hprev. destruct Hbottom as [-> | ->]; by eexists _, _. }
    destruct (advance_at (pop_layers self)
                {| step_list := step_list l; previous_index := [];
                   index := (-1)%Z |} (Z.to_nat (index l)) step)
      as (sd' & idd' & n' & -> & Hname); cbn [index step_list previous_index].
    + lia.
    + done.
    + by rewrite Hpfl.
    + by rewrite Hpfl.
    + by rewrite Hpfl.
    + eexists sd', idd', n', _, step.
      split_and!; [done | done | | done | done | done |].
      * cbn [index]. rewrite <- Hstep. f_equal. lia.
      * left. cbn [index previous_index]. split_and!; [done | done | lia | done |].
        replace (-1 + 1 + Z.of_nat (Z.to_nat (index l)))%Z with (index l) by lia.
        cbn [tail app]. constructor; [|done].
        split; [done|]. by exists step.
  - (* the last recorded index is [i] *)
    rewrite reverse_snoc, Hfl in Htrail.
    inversion Htrail as [|layer flags i0 i2 rest Hshown Hlt Htail Hflags Hi];
      subst.
    pose proof (trail_flags _ _ _ Htail) as Hne.
    destruct fl as [|x fl]; [by simplify_eq/=|]. simplify_eq/=.
    destruct (trail_head _ _ _ _ Htail) as (Hidx & step & Hstep & Hvis & Hbuild).
    unfold go_back. rewrite Hprev, app_assoc, list_pop_snoc.
    destruct (advance_at (pop_layers self)
                {| step_list := step_list l; previous_index := bottom ++ idxs';
                   index := (i - 1)%Z |} 0 step)
      as (sd' & idd' & n' & -> & Hname); cbn [index step_list previous_index].
    + lia.
    + rewrite <- Hstep. f_equal. lia.
    + by rewrite Hpfl.
    + intros j s Hj. lia.
    + by rewrite Hpfl.
    + eexists sd', idd', n', _, step.
      split_and!; [done | done | | done | done | done |].
      * cbn [index]. rewrite <- Hstep. f_equal. lia.
      * right. exists idxs'. cbn [index previous_index].
        replace (i - 1 + 1 + Z.of_nat 0)%Z with i by lia.
        split_and!; done.
Qed.

(** Advancing from a frame keeps the trail, when every step that the
    search can find extends the trail. *)
Lemma advance_trail self l bottom idxs :
  (-1 ≤ index l)%Z →
  previous_index l = bottom ++ idxs →
  bottom = [0%Z] ∨ bottom = [] →
  (∀ k, shown' (step_list l) (_flag_states self) (index l + 1 + Z.of_nat k) →
        skipped' (step_list l) (_flag_states self) (Z.to_nat (index l + 1)) k →
        trail' (step_list l) (_flag_states self)
          ((index l + 1 + Z.of_nat k)%Z :: reverse idxs)) →
  trail_ok' (advance' self l).2.
Proof.
  intros Hidx Hprev Hbottom Hext.
  destruct (advance' self l) as [[[sd|]|e] s'] eqn:Hadv.
  - apply advance_found in Hadv
      as (idd & n & step & k & -> & Hstep & Hvis & Hskip & Hbuild & Hname).
    unfold trail_ok. cbn. exists bottom, idxs. split_and!; [done | done |].
    destruct self. cbn in *. apply Hext; [|done].
    split; [lia|]. exists step. split_and!; [|done|done].
    rewrite <- Hstep. f_equal. lia.
  - destruct (advance_effect path_exists uuid4 root dest game_version self l)
      as [_ [(l' & idd & sd & _ & Hres & _)|(Hgen & _)]];
      rewrite Hadv in *; [done|]. unfold trail_ok. cbn [snd] in *. by rewrite Hgen.
  - destruct (advance_effect path_exists uuid4 root dest game_version self l)
      as [_ [(l' & idd & sd & _ & Hres & _)|(Hgen & _)]];
      rewrite Hadv in *; [done|]. unfold trail_ok. cbn [snd] in *. by rewrite Hgen.
Qed.

Lemma send_trail_ok self value :
  stores_ok root self → trail_ok' self → trail_ok' (send' self value).2.
Proof.
  intros Hstores Htrail. unfold send.
  unfold stores_ok in Hstores. unfold trail_ok in Htrail.
  destruct (gen self) as [| |l id_dict sd|l id_dict sd answer|] eqn:Hgen.
  - destruct Hstores as [Hfl _]. destruct value as [answer|].
    + cbn. unfold trail_ok. by rewrite Hgen.
    + destruct (_assert_dependencies _ _ _ _ _) as [[]|e]; cbn; [|done].
      unfold trail_ok. cbn. done.
  - apply (advance_trail self _ [0%Z] []); cbn [index step_list previous_index];
      [lia | done | by left |].
    intros k Hshown Hskip. rewrite Htrail in *. cbn [reverse].
    constructor; [done|].
    replace (Z.to_nat (-1 + 1 + Z.of_nat k)) with k by lia. exact Hskip.
  - unfold trail_ok. cbn. done.
  - destruct Hstores as (fl & fi & Hfl & Hfi & Hlen).
    destruct Htrail as (bottom & idxs & Hprev & Hbottom & Htrail).
    unfold process_answer. destruct answer as [answer|]; [|done].
    destruct (truthy _).
    + destruct (go_back_outcome self l bottom idxs fl fi Hfl Hfi Hlen Hprev
                  Hbottom Htrail)
        as (sd' & idd' & n' & l' & step & -> & Hsteps & _ & _ & Hpfl & _ & Hcur).
      unfold trail_ok. cbn [snd gen set_gen].
      assert (Hflags : _flag_states (set_gen (AtStep l' idd' sd')
                                      (set_uuids n' (pop_layers self)))
                       = tail fl ++ [∅]) by (rewrite <- Hpfl; by destruct (pop_layers self)).
      rewrite Hflags, Hsteps.
      destruct Hcur as [(_ & _ & _ & Hp & Ht)|(idxs' & _ & _ & Hp & _ & Ht)].
      * exists [], []. split_and!; [done | by right | done].
      * by exists bottom, idxs'.
    + unfold go_forward.
      destruct (answer_layers _ _ _) as [[file_layer flag_layer]|e]; [|done].
      pose proof (trail_head _ _ _ _ Htrail) as (Hidx & _).
      apply (advance_trail _ _ bottom (idxs ++ [index l]));
        cbn [index step_list previous_index].
      * lia.
      * by rewrite Hprev, app_assoc.
      * done.
      * intros k Hshown Hskip. rewrite reverse_snoc.
        destruct self. cbn in *. constructor; [done | lia | done].
  - cbn. unfold trail_ok. by rewrite Hgen.
Qed.

Lemma reachable_trail_ok self : reachable' self → trail_ok' self.
Proof.
  induction 1 as [|self value Hreach IH]; [done|].
  apply send_trail_ok; [|done].
  by destruct (reachable_ok path_exists uuid4 root dest game_version self Hreach).
Qed.

(** What a call does next does not depend on where the generator is said
    to be suspended: every path sets it anew. *)
Lemma conditional_installs_set_gen g pattern_list : ∀ self,
  conditional_installs path_exists dest game_version (set_gen g self) pattern_list
  = conditional_installs path_exists dest game_version self pattern_list.
Proof.
  induction pattern_list as [|pattern pattern_list IH]; intros self;
    cbn [conditional_installs]; [by destruct self|].
  replace (_flag_states (set_gen g self)) with (_flag_states self)
    by by destruct self.
  destruct (assert_on_chain' _ _) as [[]|e].
  - etrans; [|apply IH]. by destruct self.
  - destruct e; first [apply IH | by destruct self].
Qed.

Lemma advance_set_gen g self l : advance' (set_gen g self) l = advance' self l.
Proof.
  unfold advance.
  replace (_flag_states (set_gen g self)) with (_flag_states self)
    by by destruct self.
  replace (uuids (set_gen g self)) with (uuids self) by by destruct self.
  destruct (next_visible' _ _ _) as [[[i step]|]|e].
  - destruct (build_step' _ _ step) as [[[sd idd] n]|e]; by destruct self.
  - apply conditional_installs_set_gen.
  - by destruct self.
Qed.

Lemma go_back_set_gen g self l : go_back' (set_gen g self) l = go_back' self l.
Proof.
  unfold go_back.
  destruct (match list_pop (previous_index l) with
            | Some (i, rest) => ((i - 1)%Z, rest)
            | None => ((-1)%Z, previous_index l)
            end) as [i rest].
  rewrite <- (advance_set_gen g (pop_layers self)). f_equal.
  unfold pop_layers. destruct self. cbn. by repeat case_bool_decide.
Qed.

Lemma go_forward_set_gen g self l id_dict sd answer :
  go_forward' (set_gen g self) l id_dict sd answer
  = go_forward' self l id_dict sd answer.
Proof.
  unfold go_forward.
  destruct (answer_layers sd id_dict answer) as [[file_layer flag_layer]|e];
    [|by destruct self].
  rewrite <- (advance_set_gen g (set_flag_states _ (set_collected_files _ self))).
  by destruct self.
Qed.

(** The call that follows an answer sent at a step. *)
Lemma next_after_answer self l id_dict sd answer :
  gen self = AtStep l id_dict sd →
  next' (send' self (Some answer)).2
  = if truthy (default (VBool false) (answer !! "previous_step"))
    then go_back' self l
    else go_forward' self l id_dict sd (delete "previous_step" answer).
Proof.
  intros Hgen. unfold next, send at 2. rewrite Hgen. cbn [snd].
  unfold send. cbn [gen set_gen]. unfold process_answer.
  destruct (truthy _).
  - apply go_back_set_gen.
  - apply go_forward_set_gen.
Qed.

(** A request for the previous step, in a state a caller can obtain. *)
Lemma back_request_outcome self l sd :
  reachable' self →
  (∃ id_dict, gen self = AtStep l id_dict sd)
  ∨ (∃ id_dict answer, gen self = AtAnswer l id_dict sd answer) →
  ∃ fl fi sd' l' id_dict' step,
    _flag_states self = fl ++ [∅]
    ∧ _collected_files self = fi ++ [required_layer root; ∅]
    ∧ length fl = length fi
    ∧ (go_back' self l).1 = Ok (Some sd')
    ∧ gen (go_back' self l).2 = AtStep l' id_dict' sd'
    ∧ _flag_states (go_back' self l).2 = tail fl ++ [∅]
    ∧ _collected_files (go_back' self l).2 = tail fi ++ [required_layer root; ∅]
    ∧ step_list l' = step_list l
    ∧ step_list l !! Z.to_nat (index l') = Some step
    ∧ step_name sd' = get step "name"
    ∧ ((fl = [] ∧ index l' = index l ∧ step_name sd' = step_name sd
        ∧ previous_index l' = [])
       ∨ (fl ≠ [] ∧ previous_index l = previous_index l' ++ [index l']
          ∧ (index l' < index l)%Z)).
Proof.
  intros Hreach Hgen.
  destruct (reachable_ok path_exists uuid4 root dest game_version self Hreach)
    as [Hstores _].
  pose proof (reachable_trail_ok self Hreach) as Htrail.
  pose proof (reachable_frame_ok path_exists uuid4 root dest game_version
                self Hreach) as Hframe.
  unfold stores_ok in Hstores. unfold trail_ok in Htrail.
  unfold frame_ok in Hframe.
  assert (Hall :
    (∃ fl fi, _flag_states self = fl ++ [∅]
              ∧ _collected_files self = fi ++ [required_layer root; ∅]
              ∧ length fl = length fi)
    ∧ (∃ bottom idxs, previous_index l = bottom ++ idxs
                      ∧ (bottom = [0%Z] ∨ bottom = [])
                      ∧ trail' (step_list l) (_flag_states self)
                          (index l :: reverse idxs))
    ∧ ∃ step0, step_list l !! Z.to_nat (index l) = Some step0
               ∧ step_name sd = get step0 "name").
  { destruct Hgen as [[idd Hgen]|(idd & answer & Hgen)];
      rewrite Hgen in Hstores, Htrail, Hframe;
      destruct Hframe as (_ & _ & step0 & ? & _ & ? & _); eauto 10. }
  destruct Hall as ((fl & fi & Hfl & Hfi & Hlen)
                    & (bottom & idxs & Hprev & Hbottom & Ht)
                    & step0 & Hstep0 & Hname0).
  destruct (go_back_outcome self l bottom idxs fl fi Hfl Hfi Hlen Hprev
              Hbottom Ht)
    as (sd' & idd' & n' & l' & step & -> & Hsteps & Hstep & Hname & Hpfl & Hpfi
        & Hcur).
  exists fl, fi, sd', l', idd', step. cbn [fst snd].
  split_and!; [done | done | done | done | by destruct (pop_layers self)
              | rewrite <- Hpfl; by destruct (pop_layers self)
              | rewrite <- Hpfi; by destruct (pop_layers self)
              | done | done | done |].
  destruct Hcur as [(-> & _ & Hidx & Hp & _)|(idxs' & Hne & -> & Hp & Hlt & _)].
  - left. split_and!; [done | done | | done].
    rewrite Hname, Hname0. rewrite Hidx in Hstep. congruence.
  - right. split_and!; [done | | done].
    by rewrite Hprev, Hp, app_assoc.
Qed.

(** C6.  In every installer a caller can obtain, the flag chain ends with
    its initial dictionary and the file chain with its initial dictionary,
    preceded by the required-files layer once priming succeeded: the
    chains are never empty and these base layers are never removed.  A
    request for the previous step always hands out a step.  When there are
    layers over the base it takes exactly one from each chain, and the
    step handed out is the one at the index recorded last, which is below
    the current index and is taken off the recorded indices.  When there
    are none, before any answer went forward, both chains stay as they
    are, no index stays recorded, and the step handed out is the current
    one again. *)
Theorem base_layers_never_popped self :
  reachable' self →
  (∃ fl, _flag_states self = fl ++ [∅])
  ∧ (∃ fi, _collected_files self = fi ++ [∅])
  ∧ stores_ok root self
  ∧ ∀ l id_dict sd answer,
      gen self = AtAnswer l id_dict sd (Some answer) →
      truthy (default (VBool false) (answer !! "previous_step")) = true →
      ∃ fl fi sd' l' id_dict' step,
        _flag_states self = fl ++ [∅]
        ∧ _collected_files self = fi ++ [required_layer root; ∅]
        ∧ length fl = length fi
        ∧ (next' self).1 = Ok (Some sd')
        ∧ gen (next' self).2 = AtStep l' id_dict' sd'
        ∧ _flag_states (next' self).2 = tail fl ++ [∅]
        ∧ _collected_files (next' self).2
          = tail fi ++ [required_layer root; ∅]
        ∧ step_list l' = step_list l
        ∧ step_list l !! Z.to_nat (index l') = Some step
        ∧ step_name sd' = get step "name"
        ∧ ((fl = [] ∧ index l' = index l ∧ step_name sd' = step_name sd
            ∧ previous_index l' = [])
           ∨ (fl ≠ [] ∧ previous_index l = previous_index l' ++ [index l']
              ∧ (index l' < index l)%Z)).
Proof.
  intros Hreach.
  destruct (back_request_layers path_exists uuid4 root dest game_version
              self Hreach) as (Hfl & Hfi & Hstores & _).
  split_and!; [done | done | done |].
  intros l id_dict sd answer Hgen Htruthy.
  assert (next' self = go_back' self l) as ->.
  { unfold next, send. rewrite Hgen. unfold process_answer. by rewrite Htruthy. }
  apply (back_request_outcome self l sd Hreach). right. eauto.
Qed.

(** C9.  What the call after an answer does is decided by the value the
    answer binds to [previous_step], [False] when the key is absent.  With
    a falsy value the call does what it does for the same answer without
    the key: the answer without the key is validated, sorted and
    collected; an exception of these ends the generator and leaves both
    chains as they are; otherwise its two layers are pushed, and a step
    that is handed out stands after the current one, whose index is
    recorded.  With a truthy value the call goes back: it hands out a
    step, takes from each chain the layer over the base when there is one,
    and the step is the one at the index recorded last, or the current
    one again when no answer is recorded; nothing else in the answer is
    read, so that all answers with a truthy value have the same outcome. *)
Theorem previous_step_decides self l id_dict sd (answer : answer_dict) :
  reachable' self →
  gen self = AtStep l id_dict sd →
  (truthy (default (VBool false) (answer !! "previous_step")) = false →
     next' (send' self (Some answer)).2
     = next' (send' self (Some (delete "previous_step" answer))).2
     ∧ match answer_layers sd id_dict (delete "previous_step" answer) with
       | Raise e =>
           (next' (send' self (Some answer)).2).1 = Raise e
           ∧ gen (next' (send' self (Some answer)).2).2 = Finished
           ∧ _flag_states (next' (send' self (Some answer)).2).2
             = _flag_states self
           ∧ _collected_files (next' (send' self (Some answer)).2).2
             = _collected_files self
       | Ok (file_layer, flag_layer) =>
           _flag_states (next' (send' self (Some answer)).2).2
           = flag_layer :: _flag_states self
           ∧ (∃ extra, _collected_files (next' (send' self (Some answer)).2).2
                       = extra ++ file_layer :: _collected_files self)
           ∧ ∀ sd', (next' (send' self (Some answer)).2).1 = Ok (Some sd') →
               ∃ l' id_dict',
                 gen (next' (send' self (Some answer)).2).2
                 = AtStep l' id_dict' sd'
                 ∧ previous_index l' = previous_index l ++ [index l]
                 ∧ (index l < index l')%Z
       end)
  ∧ (truthy (default (VBool false) (answer !! "previous_step")) = true →
     (∃ fl fi sd' l' id_dict' step,
        _flag_states self = fl ++ [∅]
        ∧ _collected_files self = fi ++ [required_layer root; ∅]
        ∧ length fl = length fi
        ∧ (next' (send' self (Some answer)).2).1 = Ok (Some sd')
        ∧ gen (next' (send' self (Some answer)).2).2 = AtStep l' id_dict' sd'
        ∧ _flag_states (next' (send' self (Some answer)).2).2 = tail fl ++ [∅]
        ∧ _collected_files (next' (send' self (Some answer)).2).2
          = tail fi ++ [required_layer root; ∅]
        ∧ step_list l' = step_list l
        ∧ step_list l !! Z.to_nat (index l') = Some step
        ∧ step_name sd' = get step "name"
        ∧ ((fl = [] ∧ index l' = index l ∧ step_name sd' = step_name sd
            ∧ previous_index l' = [])
           ∨ (fl ≠ [] ∧ previous_index l = previous_index l' ++ [index l']
              ∧ (index l' < index l)%Z)))
     ∧ ∀ answer' : answer_dict,
         truthy (default (VBool false) (answer' !! "previous_step")) = true →
         next' (send' self (Some answer')).2
         = next' (send' self (Some answer)).2).
Proof.
  intros Hreach Hgen. split; intros Htruthy.
  - rewrite !(next_after_answer self l id_dict sd) by done.
    rewrite Htruthy, lookup_delete_eq. cbn [default truthy].
    rewrite delete_delete_eq. split; [done|].
    unfold go_forward.
    destruct (answer_layers sd id_dict (delete "previous_step" answer))
      as [[file_layer flag_layer]|e]; [|by destruct self].
    set (s1 := set_flag_states _ (set_collected_files _ self)).
    set (l1 := {| step_list := step_list l;
                  previous_index := previous_index l ++ [index l];
                  index := index l |}).
    destruct (advance_effect path_exists uuid4 root dest game_version s1 l1)
      as [Hflags Hcases].
    split_and!.
    + rewrite Hflags. by destruct self.
    + destruct Hcases as [(l' & idd & sd' & _ & _ & ->)|(_ & _ & extra & -> & _)];
        [exists [] | exists extra]; by destruct self.
    + intros sd' Hyield.
      destruct (advance' s1 l1) as [r s'] eqn:Hadv. cbn [fst] in Hyield.
      subst r. apply advance_found in Hadv as (idd & n & step & k & -> & _).
      eexists _, _. subst l1. cbn. split_and!; [done | done |]. cbn. lia.
  - rewrite (next_after_answer self l id_dict sd) by done. rewrite Htruthy.
    split.
    + apply (back_request_outcome self l sd Hreach). left. eauto.
    + intros answer' Htruthy'.
      rewrite (next_after_answer self l id_dict sd) by done.
      by rewrite Htruthy'.
Qed.
End back_facts.

Import Samples.

(** After the first of two steps was answered, a request for the previous
    step takes the layer of the answer from each chain and hands out a
    step; at the first step of the one-step configuration it leaves both
    chains as they are and hands out a step. *)
Lemma base_layers_never_popped_witness :
  (_flag_states BackSamples.asked_back_second = [∅; ∅]
   ∧ _flag_states (EngineSamples.send2 BackSamples.asked_back_second None).2 = [∅]
   ∧ _collected_files (EngineSamples.send2 BackSamples.asked_back_second None).2
     = [∅; ∅]
   ∧ ∃ sd', (EngineSamples.send2 BackSamples.asked_back_second None).1
            = Ok (Some sd'))
  ∧ (_flag_states (Scenario.send' Scenario.asked_back None).2
     = _flag_states Scenario.asked_back
     ∧ _collected_files (Scenario.send' Scenario.asked_back None).2
       = _collected_files Scenario.asked_back
     ∧ ∃ sd', (Scenario.send' Scenario.asked_back None).1 = Ok (Some sd')).
Proof.
  split.
  - assert (Hreach : reachable no_files Scenario.numbered EngineSamples.two_steps
                       None None BackSamples.asked_back_second).
    { unfold BackSamples.asked_back_second, EngineSamples.second_step,
        EngineSamples.first_answered, EngineSamples.first_step,
        EngineSamples.send2.
      do 5 apply reachable_send. apply reachable_init. }
    assert (Hgen : ∃ l id_dict sd,
               gen BackSamples.asked_back_second
               = AtAnswer l id_dict sd (Some Scenario.back))
      by (vm_compute; do 3 eexists; reflexivity).
    destruct Hgen as (l & id_dict & sd & Hgen).
    destruct (base_layers_never_popped no_files Scenario.numbered
                EngineSamples.two_steps None None
                BackSamples.asked_back_second Hreach) as (_ & _ & _ & Hback).
    destruct (Hback l id_dict sd Scenario.back Hgen eq_refl)
      as (fl & fi & sd' & l' & idd' & step & Hfl & Hfi & Hlen & Hyield & _
          & Hflags & Hfiles & _).
    unfold EngineSamples.send2.
    change (send ?a ?b ?c ?d ?e ?s None) with (next a b c d e s).
    rewrite Hflags, Hfiles, Hyield. clear Hback Hgen Hreach Hflags Hfiles Hyield Hfi.
    vm_compute in Hfl.
    destruct fl as [|x [|y fl]]; simpl in Hfl; [discriminate Hfl | | ].
    + destruct fi as [|z [|w fi]]; simpl in Hlen; [discriminate Hlen | | discriminate Hlen].
      clear. refine (conj _ (conj _ (conj _ _))).
      * vm_compute. reflexivity.
      * reflexivity.
      * vm_compute. reflexivity.
      * eexists. reflexivity.
    + injection Hfl as _ _ Hnil. destruct fl; discriminate Hnil.
  - assert (Hgen : ∃ l id_dict sd,
               gen Scenario.asked_back
               = AtAnswer l id_dict sd (Some Scenario.back))
      by (vm_compute; do 3 eexists; reflexivity).
    destruct Hgen as (l & id_dict & sd & Hgen).
    destruct (base_layers_never_popped no_files Scenario.numbered
                Scenario.config None None Scenario.asked_back
                asked_back_reachable) as (_ & _ & _ & Hback).
    destruct (Hback l id_dict sd Scenario.back Hgen eq_refl)
      as (fl & fi & sd' & l' & idd' & step & Hfl & Hfi & Hlen & Hyield & _
          & Hflags & Hfiles & _).
    unfold Scenario.send'.
    change (send ?a ?b ?c ?d ?e ?s None) with (next a b c d e s).
    rewrite Hflags, Hfiles, Hyield, Hfl, Hfi.
    clear Hback Hgen Hflags Hfiles Hyield Hfi.
    vm_compute in Hfl.
    destruct fl as [|x fl]; simpl in Hfl.
    + destruct fi as [|z fi]; simpl in Hlen; [|discriminate Hlen].
      clear. refine (conj _ (conj _ _)); [reflexivity | reflexivity |].
      eexists. reflexivity.
    + injection Hfl as _ Hnil. destruct fl; discriminate Hnil.
Defined.

Lemma at_step_reachable :
  reachable no_files Scenario.numbered Scenario.config None None Scenario.at_step.
Proof.
  unfold Scenario.at_step, Scenario.primed, Scenario.send'.
  do 2 apply reachable_send. apply reachable_init.
Defined.

(** At the step of the one-step configuration: the answer that selects B
    and binds [previous_step] to [False] is processed as the answer that
    selects B; the request for the previous step hands out a step, and so
    does, with the same outcome, the request that also selects B. *)
Lemma previous_step_decides_witness :
  Scenario.send' Scenario.answered_false None
  = Scenario.send' Scenario.answered None
  ∧ (∃ sd', (Scenario.send' Scenario.asked_back None).1 = Ok (Some sd'))
  ∧ Scenario.send' (Scenario.send' Scenario.at_step
                      (Some BackSamples.back_with_b)).2 None
    = Scenario.send' Scenario.asked_back None.
Proof.
  assert (Hgen : ∃ l id_dict sd, gen Scenario.at_step = AtStep l id_dict sd)
    by (vm_compute; do 3 eexists; reflexivity).
  destruct Hgen as (l & id_dict & sd & Hgen).
  unfold Scenario.answered_false, Scenario.answered, Scenario.asked_back,
    Scenario.send'.
  change (send ?a ?b ?c ?d ?e ?s None) with (next a b c d e s).
  split_and!.
  - destruct (previous_step_decides no_files Scenario.numbered Scenario.config
                None None Scenario.at_step l id_dict sd
                Scenario.select_b_false at_step_reachable Hgen)
      as [Hfalsy _].
    destruct (Hfalsy eq_refl) as [-> _].
    assert (delete "previous_step" Scenario.select_b_false = Scenario.select_b)
      as -> by (vm_compute; reflexivity).
    reflexivity.
  - destruct (previous_step_decides no_files Scenario.numbered Scenario.config
                None None Scenario.at_step l id_dict sd
                Scenario.back at_step_reachable Hgen)
      as [_ Htruthy].
    destruct (Htruthy eq_refl)
      as [(fl & fi & sd' & l' & idd' & step & _ & _ & _ & Hyield & _) _].
    exists sd'. exact Hyield.
  - destruct (previous_step_decides no_files Scenario.numbered Scenario.config
                None None Scenario.at_step l id_dict sd
                Scenario.back at_step_reachable Hgen)
      as [_ Htruthy].
    destruct (Htruthy eq_refl) as [_ Hsame].
    apply (Hsame BackSamples.back_with_b). reflexivity.
Defined.

(** ** Where the collected files come from *)

Lemma entries_from_weaken (P Q : Element → Prop) layer :
  (∀ item, P item → Q item) → entries_from P layer → entries_from Q layer.
Proof.
  intros Himpl Hfrom p bucket s d Hp Hs.
  destruct (Hfrom p bucket s d Hp Hs) as (item & ? & ?). eauto.
Qed.

Lemma entries_from_empty (P : Element → Prop) : entries_from P ∅.
Proof. by intros p b s d ?%lookup_empty_Some. Qed.

Lemma collect_file_dict_from file_list :
  entries_from (listed file_list) (collect_file_dict file_list).
Proof.
  destruct file_list as [fl|]; simpl; [|apply entries_from_empty].
  unfold findall_star.
  assert (Hgen : ∀ items (acc : file_dict),
            (∀ item, item ∈ items → item ∈ children fl) →
            entries_from (listed (Some fl)) acc →
            entries_from (listed (Some fl))
              (foldl (λ (file_dict : file_dict) item,
                 let source := get item "source" in
                 let dest := get_default item "destination" "" in
                 let prio := get_default item "priority" "0" in
                 let prio_dict := default ∅ (file_dict !! prio) in
                 <[prio := <[source := dest]> prio_dict]> file_dict) acc items)).
  { induction items as [|item items IH]; intros acc Hsub Hacc; simpl; [done|].
    apply IH; [intros i ?; apply Hsub; by right|].
    intros p b s d Hp Hs.
    destruct (decide (get_default item "priority" "0" = p)) as [<-|Hne].
    - rewrite lookup_insert_eq in Hp. injection Hp as <-.
      destruct (decide (get item "source" = s)) as [<-|Hns].
      + rewrite lookup_insert_eq in Hs. injection Hs as <-. exists item.
        split_and!; [|done..]. exists fl. split; [done|]. apply Hsub. left.
      + rewrite lookup_insert_ne in Hs by done.
        destruct (acc !! get_default item "priority" "0") as [b|] eqn:Hb;
          simpl in Hs.
        * by apply (Hacc _ b).
        * by apply lookup_empty_Some in Hs.
    - rewrite lookup_insert_ne in Hp by done. by apply (Hacc p b). }
  apply Hgen; [done | apply entries_from_empty].
Qed.

Lemma merged_chain_from (P : Element → Prop) (chain : list file_dict) :
  Forall (entries_from P) chain →
  entries_from P (dict_of (ChainMap_keys chain) (NestedChainMap_getitem chain)).
Proof.
  intros Hall p b s d Hp Hs. rewrite dict_of_lookup in Hp.
  destruct (decide _); [|done].
  destruct (merged_bucket_entry chain p b s d Hp Hs)
    as (layer & bucket & Hin & ? & ?).
  rewrite Forall_forall in Hall. by apply (Hall layer Hin p bucket).
Qed.

Lemma foldlM_invariant_in {A B} (P : B → Prop) (f : B → A → result B) l :
  ∀ b r,
  (∀ b a b', a ∈ l → P b → f b a = Ok b' → P b') →
  P b → foldlM f b l = Ok r → P r.
Proof.
  induction l as [|a l IH]; intros b r Hf Hb; simpl.
  - by intros [= <-].
  - destruct (f b a) as [b'|e] eqn:Hfa; simpl; [|done].
    apply IH; [|eapply Hf; [left | done | done]].
    intros b0 a0 b0' Hin. apply Hf. by right.
Qed.

Lemma collect_step_from id_dict answer step_file_chain step_flag_chain :
  collect_step id_dict answer = Ok (step_file_chain, step_flag_chain) →
  Forall (entries_from (plugin_files_of id_dict)) step_file_chain.
Proof.
  unfold collect_step.
  apply (foldlM_invariant
           (λ chains, Forall (entries_from (plugin_files_of id_dict)) chains.1)).
  - intros chains ids chains' Hchains.
    apply (foldlM_invariant
             (λ chains, Forall (entries_from (plugin_files_of id_dict)) chains.1));
      [|done].
    intros [fc gc] id_ [fc' gc'] Hfc. simpl.
    destruct (id_dict !! id_) as [plugin|] eqn:Hid; [|done]. intros [= <- <-].
    apply Forall_cons. split; [|done].
    eapply entries_from_weaken; [|apply collect_file_dict_from].
    intros item Hitem. by exists id_, plugin.
  - apply Forall_cons. split; [apply entries_from_empty | done].
Qed.

Lemma answer_layers_from sd id_dict answer file_layer flag_layer :
  answer_layers sd id_dict answer = Ok (file_layer, flag_layer) →
  entries_from (plugin_files_of id_dict) file_layer.
Proof.
  unfold answer_layers.
  destruct (validate sd answer) as [a1|]; simpl; [|done].
  destruct (normalize sd a1) as [a2|]; simpl; [|done].
  destruct (collect_step id_dict a2) as [[fc gc]|] eqn:Hc; simpl; [|done].
  intros [= <- <-]. apply merged_chain_from.
  by apply (collect_step_from id_dict a2 fc gc).
Qed.

Section file_facts.
Variable path_exists : string → string → bool.
Variable uuid4 : nat → string.
Variable root : Element.
Variable dest : option string.
Variable game_version : option string.

Local Abbreviation conditional_installs' :=
  (conditional_installs path_exists dest game_version).
Local Abbreviation build_step' :=
  (build_step path_exists uuid4 dest game_version).
Local Abbreviation advance' := (advance path_exists uuid4 root dest game_version).
Local Abbreviation send' := (send path_exists uuid4 root dest game_version).
Local Abbreviation reachable' :=
  (reachable path_exists uuid4 root dest game_version).

(** The identifier dictionary of a step holds plugins of its groups. *)
Lemma build_step_plugins flags n step sd id_dict n' :
  build_step' flags n step = Ok (sd, id_dict, n') →
  ∀ id_ plugin, id_dict !! id_ = Some plugin →
    ∃ group, group ∈ _ordered_list (find step "optionalFileGroups")
             ∧ plugin ∈ _ordered_list (find group "plugins").
Proof.
  unfold build_step.
  destruct (foldlM _ _ _) as [[[gs idd] k]|e] eqn:Hfold; [|done].
  simpl. intros [= <- <- <-].
  revert Hfold.
  apply (foldlM_invariant_in
           (λ acc : list group_dict * gmap string Element * nat,
              ∀ id_ plugin, acc.1.2 !! id_ = Some plugin →
                ∃ group, group ∈ _ordered_list (find step "optionalFileGroups")
                         ∧ plugin ∈ _ordered_list (find group "plugins"))).
  - intros [[gs0 idd0] n0] group [[gs1 idd1] n1] Hgroup Hacc. unfold build_group.
    destruct (foldlM _ _ (_ordered_list (find group "plugins")))
      as [[[pds idd2] k2]|e] eqn:Hplugins; [|done].
    simpl. intros [= <- <- <-]. revert Hplugins.
    apply (foldlM_invariant_in
             (λ acc : list plugin_dict * gmap string Element * nat,
                ∀ id_ plugin, acc.1.2 !! id_ = Some plugin →
                  ∃ group, group ∈ _ordered_list (find step "optionalFileGroups")
                           ∧ plugin ∈ _ordered_list (find group "plugins")));
      [|done].
    intros [[pds0 idd3] k3] pe [[pds1 idd4] k4] Hpe Hacc'.
    destruct (build_plugin _ _ _ _ _ _ _) as [pd|e]; [|done]. simpl.
    intros [= <- <- <-] id_ plugin. simpl.
    destruct (decide (plugin_id pd = id_)) as [<-|Hne].
    + rewrite lookup_insert_eq. intros [= <-]. eauto.
    + rewrite lookup_insert_ne by done. apply Hacc'.
  - intros id_ plugin Hid. cbn in Hid. by apply lookup_empty_Some in Hid.
Qed.

(** The final loop adds layers of items of its patterns only. *)
Lemma conditional_installs_from pattern_list : ∀ self,
  ∃ extra,
    gen (conditional_installs' self pattern_list).2 = Finished
    ∧ _collected_files (conditional_installs' self pattern_list).2
      = extra ++ _collected_files self
    ∧ Forall (entries_from
                (λ item, ∃ pattern, pattern ∈ pattern_list
                                    ∧ listed (find pattern "files") item))
             extra.
Proof.
  induction pattern_list as [|pattern pattern_list IH]; intros self; simpl.
  - by exists [].
  - assert (Hweak : ∀ extra,
              Forall (entries_from
                        (λ item, ∃ p, p ∈ pattern_list
                                      ∧ listed (find p "files") item)) extra →
              Forall (entries_from
                        (λ item, ∃ p, p ∈ pattern :: pattern_list
                                      ∧ listed (find p "files") item)) extra).
    { intros extra Hextra. eapply Forall_impl; [exact Hextra|]. intros layer.
      apply entries_from_weaken. intros item (p & Hp & Hitem).
      exists p. split; [by right | done]. }
    destruct (assert_on_chain _ _ _ _ _) as [[]|e].
    + destruct (IH (set_collected_files
                      (_collect_files (find pattern "files") (_collected_files self))
                      self)) as (extra & Hgen & Hfi & Hall).
      exists (extra ++ [collect_file_dict (find pattern "files")]).
      split_and!; [done | |].
      * rewrite Hfi. simpl. unfold _collect_files. by rewrite <- app_assoc.
      * apply Forall_app. split; [by apply Hweak|].
        apply Forall_cons. split; [|done].
        eapply entries_from_weaken; [|apply collect_file_dict_from].
        intros item Hitem. exists pattern. split; [left | done].
    + destruct e; try by exists [].
      destruct (IH self) as (extra & Hgen & Hfi & Hall).
      exists extra. split_and!; [done | done | by apply Hweak].
Qed.

(** Advancing keeps the files of the configuration. *)
Lemma advance_files_ok self l :
  Forall (entries_from (config_item root)) (_collected_files self) →
  step_list l = _ordered_list (find root "installSteps") →
  files_ok root (advance' self l).2.
Proof.
  intros Hall Hsteps. unfold advance.
  destruct (next_visible _ _ _ _ _ _) as [[[i step]|]|e] eqn:Hnext.
  - destruct (build_step' _ _ step) as [[[sd idd] n]|e] eqn:Hb.
    + split; [by destruct self|]. cbn. split; [done|].
      intros id_ plugin Hid.
      destruct (build_step_plugins _ _ _ _ _ _ Hb id_ plugin Hid)
        as (group & Hgroup & Hplugin).
      exists step, group. split_and!; [|done|done].
      apply next_visible_found in Hnext as (k & _ & Hk & _).
      rewrite <- Hsteps. apply list_elem_of_lookup_2 in Hk.
      by eapply (subseteq_drop _ (step_list l)).
    + split; [by destruct self | done].
  - destruct (conditional_installs_from
                (_explicit_list (find2 root "conditionalFileInstalls" "patterns"))
                self) as (extra & Hgen & Hfi & Hextra).
    split; [|by rewrite Hgen]. rewrite Hfi. apply Forall_app. split; [|done].
    eapply Forall_impl; [exact Hextra|]. intros layer.
    apply entries_from_weaken. intros item Hitem. right. by right.
  - split; [by destruct self | done].
Qed.

Lemma pop_layers_files (self : Installer) (P : file_dict → Prop) :
  Forall P (_collected_files self) → Forall P (_collected_files (pop_layers self)).
Proof.
  intros Hall. unfold pop_layers.
  repeat case_bool_decide; destruct self; cbn in *; try done;
    by apply Forall_tail.
Qed.

Lemma send_files_ok self value :
  files_ok root self → files_ok root (send' self value).2.
Proof.
  intros [Hall Hframe]. unfold send.
  destruct (gen self) as [| |l id_dict sd|l id_dict sd answer|] eqn:Hgen.
  - destruct value as [answer|].
    + cbn. split; [done | by rewrite Hgen].
    + destruct (_assert_dependencies _ _ _ _ _) as [[]|e]; cbn.
      * split; [|done]. cbn. apply Forall_cons. split; [|done].
        eapply entries_from_weaken; [|apply collect_file_dict_from].
        intros item Hitem. by left.
      * split; [by destruct self | done].
  - by apply advance_files_ok.
  - cbn. split; [by destruct self | done].
  - destruct Hframe as [Hsteps Hids].
    unfold process_answer. destruct answer as [answer|].
    + destruct (truthy _).
      * unfold go_back.
        destruct (list_pop (previous_index l)) as [[i rest]|];
          (apply advance_files_ok; [by apply pop_layers_files | done]).
      * unfold go_forward.
        destruct (answer_layers _ _ _) as [[file_layer flag_layer]|e] eqn:Ha.
        -- apply advance_files_ok; [|done]. destruct self. cbn in *.
           apply Forall_cons. split; [|done].
           eapply entries_from_weaken; [|by eapply answer_layers_from].
           intros item (id_ & plugin & Hid & Hitem). right. left.
           exists plugin. split; [by eapply Hids | done].
        -- split; [by destruct self | done].
    + split; [by destruct self | done].
  - cbn. split; [done | by rewrite Hgen].
Qed.

Lemma reachable_files_ok self : reachable' self → files_ok root self.
Proof.
  induction 1 as [|self value _ IH]; [|by apply send_files_ok].
  split; [|done]. apply Forall_cons. split; [apply entries_from_empty | done].
Qed.
End file_facts.

Import Scenario.

(** C1 as the code has it.  The dictionary read through [collected_files]
    is keyed by source: in every installer a caller can obtain, each of its
    entries sends the source of a file item of the configuration (an item
    of the required files, of a plugin of a step or of a pattern of the
    conditional installs) to the destination of that item.  For the
    configuration with one step and one [SelectExactlyOne] group of the
    plugins A and B, the answer that selects B ends the generator with the
    dictionary that sends b.txt to data/b.txt and holds nothing else. *)
Theorem collected_files_source_to_destination :
  (∀ path_exists uuid4 root dest game_version self source destination,
     reachable path_exists uuid4 root dest game_version self →
     (collected_files self).1 !! source = Some destination →
     ∃ item, config_item root item
             ∧ get item "source" = source
             ∧ get_default item "destination" "" = destination)
  ∧ (∀ path_exists dest game_version,
       let send' := send path_exists numbered config dest game_version in
       let at_step := (send' (send' Installer_init None).2 None).2 in
       let final := send' (send' at_step (Some select_b)).2 None in
       final.1 = Raise StopIteration
       ∧ (collected_files final.2).1 = {[ Some "b.txt" := "data/b.txt" ]}).
Proof.
  split.
  - intros path_exists uuid4 root dest game_version self source destination
      Hreach Hentry.
    destruct (reachable_files_ok _ _ _ _ _ _ Hreach) as [Hall _].
    apply flatten_files_entry in Hentry as (layer & p & bucket & Hin & Hp & Hs).
    rewrite Forall_forall in Hall.
    destruct (Hall layer Hin p bucket source destination Hp Hs)
      as (item & ? & ? & ? & _).
    eauto.
  - intros path_exists dest game_version. by vm_compute.
Qed.

(** The entry of the final dictionary comes from a file item of the
    configuration. *)
Lemma collected_files_source_to_destination_witness :
  ∃ item, config_item config item
          ∧ get item "source" = Some "b.txt"
          ∧ get_default item "destination" "" = "data/b.txt".
Proof.
  apply (proj1 collected_files_source_to_destination
           no_files numbered config None None final (Some "b.txt") "data/b.txt").
  - exact final_reachable.
  - by vm_compute.
Defined.

(** ** Reading [collected_files] writes nothing that was there *)

Example store_sample_run :
  ∃ new, h_collected_files 0 StoreSamples.two_layers
         = Ok (length StoreSamples.two_layers + 5, StoreSamples.two_layers ++ new)
         ∧ (StoreSamples.two_layers ++ new) !! (length StoreSamples.two_layers + 5)
           = Some (ODict {[ Some "a.txt" := VStr "data/five" ]}).
Proof. vm_compute. eexists. split; reflexivity. Qed.

(** *** The store only grows *)

Lemma prefix_insert_fresh (h h' : heap) a o :
  h `prefix_of` h' → length h ≤ a → h `prefix_of` <[a := o]> h'.
Proof.
  intros [k ->] Hle. exists (<[a - length h := o]> k).
  by apply insert_app_r_alt.
Qed.

Lemma prefix_snoc (h h' : heap) o : h `prefix_of` h' → h `prefix_of` h' ++ [o].
Proof. intros ?. by apply prefix_app_r. Qed.

Lemma lookup_snoc_new (h : heap) o : (h ++ [o]) !! length h = Some o.
Proof. by rewrite lookup_app_r, Nat.sub_diag by lia. Qed.

Lemma insert_snoc_new (h : heap) o o' k :
  <[length h := o']> (h ++ o :: k) = h ++ o' :: k.
Proof. rewrite insert_app_r_alt by lia. by rewrite Nat.sub_diag. Qed.

Lemma read_dict_prefix (h h' : heap) v d :
  h `prefix_of` h' → read_dict v h = Ok d → read_dict v h' = Ok d.
Proof.
  intros Hpre. unfold read_dict. destruct v as [s|a]; [done|].
  destruct (h !! a) as [o|] eqn:Ha; [|done].
  by rewrite (prefix_lookup_Some _ _ _ _ Ha Hpre).
Qed.

Lemma read_dict_old (h : heap) v d :
  read_dict v h = Ok d → ∃ a, v = VRef a ∧ h !! a = Some (ODict d) ∧ a < length h.
Proof.
  unfold read_dict. destruct v as [s|a]; [done|].
  destruct (h !! a) as [[d'|l]|] eqn:Ha; try done. intros [= <-].
  exists a. split_and!; [done | done | by eapply lookup_lt_Some].
Qed.

Lemma bucket_at_prefix (h h' : heap) v b :
  h `prefix_of` h' → bucket_at h v b → bucket_at h' v b.
Proof.
  intros Hpre (a & -> & Ha). exists a. split; [done|].
  by eapply prefix_lookup_Some.
Qed.

Lemma layer_at_prefix (h h' : heap) v layer :
  h `prefix_of` h' → layer_at h v layer → layer_at h' v layer.
Proof.
  intros Hpre (a & d & -> & Ha & Hnone & Hbuckets). exists a, d.
  split_and!; [done | by eapply prefix_lookup_Some | done |].
  intros p. specialize (Hbuckets p).
  destruct Hbuckets as [v b Hb|]; constructor. by eapply bucket_at_prefix.
Qed.

Lemma chain_at_prefix (h h' : heap) maps layers :
  h `prefix_of` h' → chain_at h maps layers → chain_at h' maps layers.
Proof.
  intros Hpre (ms & Hms & Hall). exists ms.
  split; [by eapply prefix_lookup_Some|].
  eapply Forall2_impl; [exact Hall|]. intros v layer.
  by apply layer_at_prefix.
Qed.

(** *** Reading a chain map *)

Lemma reads_prefix (h h' : heap) ms ds :
  h `prefix_of` h' → reads h ms ds → reads h' ms ds.
Proof.
  intros Hpre Hreads. eapply Forall2_impl; [exact Hreads|].
  intros v d. by apply read_dict_prefix.
Qed.

Lemma lookup_middle_new (h : heap) o k : (h ++ o :: k) !! length h = Some o.
Proof. by rewrite lookup_app_r, Nat.sub_diag by lia. Qed.

(** An update of the object created last but [k], from an older object. *)
Lemma dict_update_new (h : heap) v d acc k :
  read_dict v h = Ok d →
  dict_update (length h) v (h ++ ODict acc :: k)
  = Ok (h ++ ODict (d ∪ acc) :: k).
Proof.
  intros Hv. unfold dict_update.
  rewrite (read_dict_prefix h (h ++ ODict acc :: k) v d)
    by (by apply prefix_app_r || done).
  cbn [mbind result_bind]. unfold read_dict. rewrite lookup_middle_new.
  cbn [mbind result_bind]. by rewrite insert_snoc_new.
Qed.

Lemma update_loop (h : heap) rs rds : ∀ acc,
  reads h rs rds →
  foldlM (λ h' mapping, dict_update (length h) mapping h')
         (h ++ [ODict acc]) rs
  = Ok (h ++ [ODict (foldl (λ d mapping, mapping ∪ d) acc rds)]).
Proof.
  intros acc Hreads. revert acc.
  induction Hreads as [|v d rs rds Hv _ IH]; intros acc; [done|].
  cbn [foldlM foldl]. rewrite (dict_update_new h v d acc []) by done.
  cbn [mbind result_bind]. apply IH.
Qed.

Lemma h_iter_spec (h : heap) maps ms ds :
  h !! maps = Some (OList ms) → reads h ms ds →
  h_iter maps h = Ok (length h, h ++ [ODict (ChainMap_iter ds)]).
Proof.
  intros Hms Hreads. unfold h_iter, read_list. rewrite Hms.
  cbn [mbind result_bind alloc].
  rewrite (update_loop h (reverse ms) (reverse ds));
    [done | by apply Forall2_reverse].
Qed.

Lemma h_keys_spec (h : heap) maps ms ds :
  h !! maps = Some (OList ms) → reads h ms ds →
  h_keys maps h = Ok (ChainMap_keys ds, h ++ [ODict (ChainMap_iter ds)]).
Proof.
  intros Hms Hreads. unfold h_keys. rewrite (h_iter_spec h maps ms ds) by done.
  cbn [mbind result_bind]. unfold read_dict. by rewrite lookup_snoc_new.
Qed.

Lemma h_first_spec (h : heap) ms ds key :
  reads h ms ds →
  h_first ms key h = match ChainMap_getitem ds key with
                     | Some v => Ok v
                     | None => Raise KeyError
                     end.
Proof.
  induction 1 as [|v d ms ds Hv _ IH]; [done|].
  cbn [h_first ChainMap_getitem]. rewrite Hv. cbn [mbind result_bind].
  by destruct (d !! key).
Qed.

Lemma h_values_spec (h : heap) ms ds key :
  reads h ms ds →
  h_values ms key h = Ok (omap (λ d : gmap (option string) value, d !! key) ds).
Proof.
  induction 1 as [|v d ms ds Hv _ IH]; [done|].
  cbn [h_values]. rewrite Hv, IH. cbn [mbind result_bind omap list_omap].
  by destruct (d !! key).
Qed.

(** *** The layers in the store *)

Lemma chain_at_reads (h : heap) maps layers :
  chain_at h maps layers →
  ∃ ms ds, h !! maps = Some (OList ms)
           ∧ reads h ms ds
           ∧ Forall2 (dict_layer h) ds layers.
Proof.
  intros (ms & Hms & Hall). exists ms.
  assert (∃ ds, reads h ms ds ∧ Forall2 (dict_layer h) ds layers)
    as (ds & ? & ?); [|by exists ds].
  clear Hms. induction Hall as [|v layer ms layers Hv _ (ds & Hreads & Hds)].
  - exists []. split; constructor.
  - destruct Hv as (a & d & -> & Ha & Hnone & Hbuckets).
    exists (d :: ds). split; constructor; try done.
    unfold read_dict. by rewrite Ha.
Qed.

Lemma dict_layer_prefix (h h' : heap) d layer :
  h `prefix_of` h' → dict_layer h d layer → dict_layer h' d layer.
Proof.
  intros Hpre [Hnone Hbuckets]. split; [done|]. intros p.
  destruct (Hbuckets p) as [v b Hb|]; constructor.
  by eapply bucket_at_prefix.
Qed.

Lemma layers_getitem_is_Some (h : heap) ds layers :
  Forall2 (dict_layer h) ds layers →
  ∀ k, is_Some (ChainMap_getitem ds k)
       ↔ ∃ p, k = Some p ∧ is_Some (ChainMap_getitem layers p).
Proof.
  induction 1 as [|d layer ds layers [Hnone Hbuckets] _ IH]; intros k.
  - simpl. split; [by intros [??] | by intros (p & _ & [??])].
  - cbn [ChainMap_getitem]. destruct k as [p|].
    + pose proof (Hbuckets p) as Hp.
      inversion Hp as [v b Hb Hd Hl | Hd Hl].
      * split; [|eauto]. intros _. exists p. split; [done|].
        rewrite <- Hl. eauto.
      * rewrite IH. split.
        -- intros (p' & [= <-] & Hp'). exists p. by rewrite <- Hl.
        -- intros (p' & [= <-] & Hp'). exists p. by rewrite <- Hl in Hp'.
    + rewrite Hnone, IH. split; intros (p & ? & ?); [done | done].
Qed.

Lemma layers_keys (h : heap) ds layers :
  Forall2 (dict_layer h) ds layers →
  ChainMap_keys ds ≡ₚ Some <$> ChainMap_keys layers.
Proof.
  intros Hds. apply NoDup_Permutation.
  - apply NoDup_ChainMap_keys.
  - apply (NoDup_fmap_2 _), NoDup_ChainMap_keys.
  - intros k. rewrite elem_of_ChainMap_keys, (layers_getitem_is_Some h ds layers Hds).
    rewrite list_elem_of_fmap. split.
    + intros (p & -> & Hp). exists p. split; [done|].
      by apply elem_of_ChainMap_keys.
    + intros (p & -> & Hp). exists p. split; [done|].
      by apply elem_of_ChainMap_keys.
Qed.

Lemma layers_values (h : heap) ds layers p :
  Forall2 (dict_layer h) ds layers →
  Forall2 (bucket_at h)
    (omap (λ d : gmap (option string) value, d !! Some p) ds)
    (omap (λ layer : file_dict, layer !! p) layers).
Proof.
  induction 1 as [|d layer ds layers [Hnone Hbuckets] _ IH]; [constructor|].
  cbn [omap list_omap]. pose proof (Hbuckets p) as Hp.
  inversion Hp as [v b Hb Hd Hl | Hd Hl]; [|done].
  by constructor.
Qed.

Lemma is_dict_bucket (h h' : heap) v b :
  h `prefix_of` h' → bucket_at h v b → is_dict v h' = true.
Proof.
  intros Hpre (a & -> & Ha). unfold is_dict.
  by rewrite (prefix_lookup_Some _ _ _ _ Ha Hpre).
Qed.

Lemma read_bucket (h : heap) v b :
  bucket_at h v b → read_dict v h = Ok (VStr <$> b).
Proof. intros (a & -> & Ha). unfold read_dict. by rewrite Ha. Qed.

Lemma merge_loop (h : heap) vs bs : ∀ acc : prio_dict,
  Forall2 (bucket_at h) vs bs →
  foldlM (λ h' v, if is_dict v h' then dict_update (length h) v h' else Ok h')
         (h ++ [ODict (VStr <$> acc)]) vs
  = Ok (h ++ [ODict (VStr <$> foldl (λ result b, b ∪ result) acc bs)]).
Proof.
  intros acc Hall. revert acc.
  induction Hall as [|v b vs bs Hv _ IH]; intros acc; [done|].
  cbn [foldlM foldl].
  rewrite (is_dict_bucket h _ v b) by (by apply prefix_app_r || done).
  rewrite (dict_update_new h v (VStr <$> b) (VStr <$> acc) [])
    by by apply read_bucket.
  cbn [mbind result_bind]. rewrite <- map_fmap_union. apply IH.
Qed.

(** The merged bucket of a priority is a new object; nothing else is
    written. *)
Lemma h_nested_getitem_spec (h : heap) maps ms ds layers p b :
  h !! maps = Some (OList ms) → reads h ms ds →
  Forall2 (dict_layer h) ds layers →
  NestedChainMap_getitem layers p = Some b →
  h_nested_getitem maps (Some p) h
  = Ok (VRef (length h), h ++ [ODict (VStr <$> b)]).
Proof.
  intros Hms Hreads Hds Hb. unfold h_nested_getitem, read_list. rewrite Hms.
  cbn [mbind result_bind]. rewrite (h_values_spec h ms ds) by done.
  cbn [mbind result_bind].
  pose proof (layers_values h ds layers p Hds) as Hvalues.
  unfold NestedChainMap_getitem in Hb.
  destruct Hvalues as [|v0 b0 vs bs Hv0 Hvs]; [done|].
  injection Hb as <-.
  rewrite (is_dict_bucket h h v0 b0) by done. cbn [alloc].
  rewrite <- (fmap_empty VStr).
  rewrite (merge_loop h (reverse (v0 :: vs)) (reverse (b0 :: bs)) ∅);
    [done|]. apply Forall2_reverse. by constructor.
Qed.

(** *** Sorting the keys *)

Lemma sorted_fmap {A B} (f : A → B) (before : A → A → bool)
    (before' : B → B → bool) (l : list A) :
  (∀ a b, before' (f a) (f b) = before a b) →
  sorted before' (f <$> l) = f <$> sorted before l.
Proof.
  intros Hf. induction l as [|x l IH]; [done|].
  rewrite fmap_cons. cbn [sorted foldr].
  fold (sorted before' (f <$> l)). fold (sorted before l). rewrite IH.
  generalize (sorted before l). intros k.
  induction k as [|y k IHk]; [done|].
  rewrite fmap_cons. cbn [insert_sorted]. rewrite Hf.
  destruct (before y x); [|done]. by rewrite IHk, fmap_cons.
Qed.

Lemma sorted_of_perm {A} (before : A → A → bool) (l1 l2 : list A) :
  (∀ a b, before a b = true → before b a = false) →
  (∀ a b c, may_precede before a b → may_precede before b c →
            may_precede before a c) →
  (∀ a b, before a b = false → before b a = false → a = b) →
  l1 ≡ₚ l2 → sorted before l1 = sorted before l2.
Proof.
  intros Hasym Htrans Htotal Hperm.
  apply (StronglySorted_unique_strong (may_precede before)).
  - intros a b _ _ Hab Hba. by apply Htotal.
  - by apply sorted_sorted.
  - by apply sorted_sorted.
  - by rewrite !sorted_perm.
Qed.

Lemma ostr_lt_total a b :
  ostr_lt a b = false → ostr_lt b a = false → a = b.
Proof.
  destruct a as [x|], b as [y|]; simpl; try done.
  intros Hxy Hyx. f_equal. destruct (decide (x = y)) as [|Hne]; [done|].
  by rewrite (str_lt_total x y Hxy Hne) in Hyx.
Qed.

(** The keys read from the store, sorted, are the priorities of the
    layers, sorted. *)
Lemma sorted_store_keys (h : heap) ds layers :
  Forall2 (dict_layer h) ds layers →
  sorted (λ x y, ostr_lt y x) (ChainMap_keys ds)
  = Some <$> sorted_reverse (ChainMap_keys layers).
Proof.
  intros Hds. unfold sorted_reverse.
  rewrite <- (sorted_fmap Some (λ x y, str_lt y x) (λ x y, ostr_lt y x)) by done.
  apply sorted_of_perm.
  - intros a b. apply ostr_lt_asym.
  - intros a b c. unfold may_precede. apply ostr_ge_trans.
  - intros a b Hab Hba. by apply ostr_lt_total.
  - by eapply layers_keys.
Qed.

(** *** The loops of the property *)

Lemma reads_fresh (pre post : heap) (Ds : list (gmap (option string) value)) :
  reads (pre ++ (ODict <$> Ds) ++ post)
        (VRef <$> seq (length pre) (length Ds)) Ds.
Proof.
  revert pre. induction Ds as [|d Ds IH]; intros pre; [constructor|].
  cbn [length seq]. rewrite !fmap_cons, <- app_comm_cons. constructor.
  - unfold read_dict. by rewrite lookup_middle_new.
  - specialize (IH (pre ++ [ODict d])).
    rewrite length_app, <- app_assoc in IH. cbn [length app] in IH.
    by replace (length pre + 1) with (S (length pre)) in IH by lia.
Qed.

Lemma ChainMap_getitem_fmap {A B} (f : A → B)
    (maps : list (gmap (option string) A)) k :
  ChainMap_getitem (fmap (M := gmap (option string)) f <$> maps) k = f <$> ChainMap_getitem maps k.
Proof.
  induction maps as [|m maps IH]; [done|].
  rewrite fmap_cons. cbn [ChainMap_getitem]. rewrite lookup_fmap.
  by destruct (m !! k).
Qed.

Section property.
Variables (h0 : heap) (maps : nat) (ms : list value).
Variables (ds : list (gmap (option string) value)) (layers : list file_dict).
Hypothesis Hmaps : h0 !! maps = Some (OList ms).
Hypothesis Hreads : reads h0 ms ds.
Hypothesis Hlayers : Forall2 (dict_layer h0) ds layers.

Lemma nested_getitem_later (h : heap) p b :
  h0 `prefix_of` h → NestedChainMap_getitem layers p = Some b →
  h_nested_getitem maps (Some p) h
  = Ok (VRef (length h), h ++ [ODict (VStr <$> b)]).
Proof.
  intros Hpre Hb. eapply h_nested_getitem_spec.
  - by eapply prefix_lookup_Some.
  - by eapply reads_prefix.
  - eapply Forall2_impl; [exact Hlayers|]. intros ??. by apply dict_layer_prefix.
  - done.
Qed.

(** The loop of [append]s: each round creates one bucket at the end of the
    store and extends the list of the new chain map. *)
Lemma append_loop (g : heap) ps : ∀ l (bs0 : list prio_dict),
  h0 `prefix_of` g →
  Forall (λ p, is_Some (NestedChainMap_getitem layers p)) ps →
  foldlM (λ h key, '(v, h) ← h_nested_getitem maps key h;
                   list_append (length g) v h)
         (g ++ OList l :: (ODict <$> (fmap (M := gmap (option string)) VStr <$> bs0))) (Some <$> ps)
  = Ok (g ++ OList (l ++ (VRef <$> seq (length g + 1 + length bs0)
                            (length (omap (NestedChainMap_getitem layers) ps))))
          :: (ODict <$> (fmap (M := gmap (option string)) VStr
                <$> (bs0 ++ omap (NestedChainMap_getitem layers) ps)))).
Proof.
  induction ps as [|p ps IH]; intros l bs0 Hpre Hps.
  - simpl. by rewrite !app_nil_r.
  - apply Forall_cons in Hps as [[b Hb] Hps].
    rewrite fmap_cons. cbn [foldlM omap list_omap]. rewrite Hb.
    rewrite (nested_getitem_later _ p b);
      [|by trans g; [|apply prefix_app_r] | done].
    cbn [mbind result_bind]. unfold list_append, read_list.
    rewrite <- app_assoc, <- app_comm_cons, lookup_middle_new.
    cbn [mbind result_bind]. rewrite insert_snoc_new.
    replace ((ODict <$> (fmap (M := gmap (option string)) VStr <$> bs0)) ++ [ODict (VStr <$> b)])
      with (ODict <$> (fmap (M := gmap (option string)) VStr <$> (bs0 ++ [b])))
      by by rewrite !fmap_app.
    rewrite (IH _ (bs0 ++ [b])) by done.
    rewrite !length_app. cbn [length seq]. rewrite !length_fmap.
    rewrite fmap_cons, <- !app_assoc. cbn [app].
    replace (length g + S (length bs0)) with (length g + 1 + length bs0) by lia.
    by replace (length g + 1 + (length bs0 + 1))
      with (S (length g + 1 + length bs0)) by lia.
Qed.
End property.

Lemma final_reads (g : heap) (e : nat) (L : list value) (bs : list prio_dict)
    (post : heap) :
  g !! e = Some (ODict ∅) →
  reads (g ++ OList L
           :: (ODict <$> (fmap (M := gmap (option string)) VStr <$> bs)) ++ post)
        (VRef e :: (VRef <$> seq (length g + 1) (length bs)))
        (∅ :: (fmap (M := gmap (option string)) VStr <$> bs)).
Proof.
  intros He. constructor.
  - unfold read_dict. by rewrite (lookup_app_l_Some _ _ _ _ He).
  - pose proof (reads_fresh (g ++ [OList L]) post
                  (fmap (M := gmap (option string)) VStr <$> bs)) as Hr.
    rewrite length_app, length_fmap, <- app_assoc in Hr. exact Hr.
Qed.

(** The loop of [dict]: every key is read through the chain map and written
    into the new dictionary. *)
Lemma setitem_loop (g : heap) (final : nat) (L : list value)
    (Ds : list (gmap (option string) value)) D2 ks : ∀ acc,
  g !! final = Some (OList L) → reads g L Ds →
  Forall (λ k, is_Some (ChainMap_getitem Ds k)) ks →
  foldlM (λ h k, v ← h_getitem final k h; dict_setitem (length g) k v h)
         (g ++ [ODict acc; ODict D2]) ks
  = Ok (g ++ [ODict (foldl (λ acc k, match ChainMap_getitem Ds k with
                                     | Some v => <[k := v]> acc
                                     | None => acc
                                     end) acc ks);
              ODict D2]).
Proof.
  intros acc Hfinal Hreads Hks. revert acc.
  induction Hks as [|k ks [v Hv] _ IH]; intros acc; [done|].
  cbn [foldlM foldl]. unfold h_getitem, read_list.
  rewrite (lookup_app_l_Some _ _ _ _ Hfinal). cbn [mbind result_bind].
  rewrite (h_first_spec _ L Ds k)
    by (eapply reads_prefix; [|done]; by apply prefix_app_r).
  rewrite Hv. cbn [mbind result_bind]. unfold dict_setitem, read_dict.
  rewrite lookup_middle_new. cbn [mbind result_bind].
  rewrite insert_snoc_new. apply IH.
Qed.

Lemma setitem_fold_lookup {V} (Ds : list (gmap (option string) V)) ks k' :
  ∀ acc : gmap (option string) V,
  foldl (λ (acc : gmap (option string) V) k, match ChainMap_getitem Ds k with
                  | Some v => <[k := v]> acc
                  | None => acc
                  end) acc ks !! k'
  = match (if decide (k' ∈ ks) then ChainMap_getitem Ds k' else None) with
    | Some v => Some v
    | None => acc !! k'
    end.
Proof.
  induction ks as [|k ks IH]; intros acc.
  - cbn [foldl]. by rewrite decide_False by by intros ?%elem_of_nil.
  - cbn [foldl]. rewrite IH. destruct (decide (k' ∈ ks)) as [Hin|Hin].
    + rewrite decide_True by by right.
      destruct (ChainMap_getitem Ds k') as [v'|] eqn:Hv'; [done|].
      destruct (decide (k' = k)) as [->|Hne]; [by rewrite Hv'|].
      destruct (ChainMap_getitem Ds k); [|done].
      by rewrite lookup_insert_ne.
    + destruct (decide (k' = k)) as [->|Hne].
      * rewrite decide_True by by left.
        destruct (ChainMap_getitem Ds k) as [v|]; [|done].
        by rewrite lookup_insert_eq.
      * rewrite decide_False by by intros [?|?]%elem_of_cons.
        destruct (ChainMap_getitem Ds k); [|done].
        by rewrite lookup_insert_ne.
Qed.

Lemma setitem_fold_keys {V} (Ds : list (gmap (option string) V)) k :
  foldl (λ (acc : gmap (option string) V) k, match ChainMap_getitem Ds k with
                  | Some v => <[k := v]> acc
                  | None => acc
                  end) ∅ (ChainMap_keys Ds) !! k
  = ChainMap_getitem Ds k.
Proof.
  rewrite setitem_fold_lookup, lookup_empty.
  destruct (decide (k ∈ ChainMap_keys Ds)) as [Hin|Hin].
  - by destruct (ChainMap_getitem Ds k).
  - rewrite elem_of_ChainMap_keys in Hin. symmetry.
    by apply eq_None_not_Some.
Qed.

(** The property on the store: the result is a new dictionary, it holds the
    flattened view of the layers, and the objects that were in the store
    are as they were. *)
Lemma h_collected_files_spec (h : heap) maps layers :
  chain_at h maps layers →
  ∃ r new, h_collected_files maps h = Ok (r, h ++ new)
           ∧ (h ++ new) !! r = Some (ODict (VStr <$> flatten_files layers)).
Proof.
  intros Hchain.
  destruct (chain_at_reads h maps layers Hchain) as (ms & ds & Hms & Hreads & Hds).
  assert (∃ g R D2, h_collected_files maps h = Ok (length g, g ++ [ODict R; ODict D2])
                    ∧ h `prefix_of` g
                    ∧ R = VStr <$> flatten_files layers)
    as (g & R & D2 & Hrun & [k ->] & ->).
  2:{ exists (length (h ++ k)), (k ++ [ODict (VStr <$> flatten_files layers); ODict D2]).
      rewrite app_assoc. split; [done|]. by rewrite lookup_middle_new. }
  unfold h_collected_files. rewrite (h_keys_spec h maps ms ds) by done.
  cbn [mbind result_bind alloc]. rewrite (sorted_store_keys h ds layers Hds).
  remember (h ++ [ODict (ChainMap_iter ds)]) as h1 eqn:Hh1.
  remember (h1 ++ [ODict ∅]) as g eqn:Hg.
  assert (h `prefix_of` g) as Hpre.
  { subst g h1. rewrite <- app_assoc. by apply prefix_app_r. }
  assert (g !! length h1 = Some (ODict ∅)) as He.
  { subst g. apply lookup_snoc_new. }
  remember (omap (NestedChainMap_getitem layers)
              (sorted_reverse (ChainMap_keys layers))) as bs eqn:Hbs.
  change (g ++ [OList [VRef (length h1)]])
    with (g ++ OList [VRef (length h1)]
            :: (ODict <$> (fmap (M := gmap (option string)) VStr <$> []))).
  rewrite (append_loop h maps ms ds layers Hms Hreads Hds g
             (sorted_reverse (ChainMap_keys layers)) [VRef (length h1)] []);
    [|done|].
  2:{ apply Forall_forall. intros p Hp. unfold sorted_reverse in Hp.
      rewrite sorted_perm in Hp. apply NestedChainMap_getitem_is_Some.
      by apply elem_of_ChainMap_keys. }
  rewrite <- Hbs. cbn [mbind result_bind alloc app length].
  rewrite Nat.add_0_r.
  remember (VRef (length h1) :: (VRef <$> seq (length g + 1) (length bs)))
    as L eqn:HL.
  remember (fmap (M := gmap (option string)) VStr <$> bs) as Ds' eqn:HDs.
  remember (g ++ OList L :: (ODict <$> Ds')) as hh eqn:Hhh.
  assert (hh !! length g = Some (OList L)) as Hfinal.
  { subst hh. apply lookup_middle_new. }
  assert (reads hh L (∅ :: Ds')) as HL_reads.
  { pose proof (final_reads g (length h1) L bs [] He) as Hr.
    rewrite app_nil_r in Hr. by subst. }
  rewrite (h_keys_spec (hh ++ [ODict ∅]) (length g) L (∅ :: Ds')).
  2:{ by apply lookup_app_l_Some. }
  2:{ eapply reads_prefix; [|done]. by apply prefix_app_r. }
  cbn [mbind result_bind]. rewrite <- app_assoc. cbn [app].
  rewrite (setitem_loop hh (length g) L (∅ :: Ds')); [|done|done|].
  2:{ apply Forall_forall. intros k Hk. by apply elem_of_ChainMap_keys. }
  cbn [mbind result_bind]. eexists hh, _, _. split; [done|]. split.
  { subst hh. trans g; [done|]. by apply prefix_app_r. }
  apply map_eq. intros k.
  rewrite setitem_fold_keys, lookup_fmap, flatten_files_lookup.
  cbn [ChainMap_getitem]. rewrite lookup_empty. subst Ds' bs.
  apply ChainMap_getitem_fmap.
Qed.

(** C8. For every layer sequence held in the store, a read of the flattened
    file view only creates objects: it returns a new dictionary that holds
    the flattened view of the layers, every object that was in the store is
    as it was, and the store still holds the same layer sequence.  A second
    read right after the first returns a dictionary with the same contents
    and leaves the first one as it was; and a read in any other store that
    holds the same layer sequence returns the same contents. *)
Theorem collected_files_read_only (h : heap) (self_maps : nat)
    (layers : list file_dict) :
  chain_at h self_maps layers →
  ∃ r new,
    h_collected_files self_maps h = Ok (r, h ++ new)
    ∧ (h ++ new) !! r = Some (ODict (VStr <$> flatten_files layers))
    ∧ chain_at (h ++ new) self_maps layers
    ∧ (∃ r2 new2,
         h_collected_files self_maps (h ++ new) = Ok (r2, (h ++ new) ++ new2)
         ∧ ((h ++ new) ++ new2) !! r2 = (h ++ new) !! r
         ∧ ((h ++ new) ++ new2) !! r = (h ++ new) !! r
         ∧ chain_at ((h ++ new) ++ new2) self_maps layers)
    ∧ ∀ (h' : heap) (maps' : nat),
        chain_at h' maps' layers →
        ∃ r' new',
          h_collected_files maps' h' = Ok (r', h' ++ new')
          ∧ (h' ++ new') !! r' = (h ++ new) !! r.
Proof.
  intros Hchain.
  destruct (h_collected_files_spec h self_maps layers Hchain)
    as (r & new & Hrun & Hr).
  assert (chain_at (h ++ new) self_maps layers) as Hchain2.
  { eapply chain_at_prefix; [|done]. by apply prefix_app_r. }
  destruct (h_collected_files_spec (h ++ new) self_maps layers Hchain2)
    as (r2 & new2 & Hrun2 & Hr2).
  exists r, new. split_and!; [done | done | done | |].
  - exists r2, new2. split_and!; [done | | |].
    + by rewrite Hr, Hr2.
    + rewrite Hr. by apply lookup_app_l_Some.
    + eapply chain_at_prefix; [|exact Hchain2]. by apply prefix_app_r.
  - intros h' maps' Hchain'.
    destruct (h_collected_files_spec h' maps' layers Hchain')
      as (r' & new' & Hrun' & Hr').
    exists r', new'. split; [done|]. by rewrite Hr, Hr'.
Qed.

Import StoreSamples.

Lemma two_layers_chain : chain_at two_layers 0 two_layer_files.
Proof.
  exists [VRef 1; VRef 3]. split; [done|].
  repeat constructor.
  - exists 1, {[ Some "5" := VRef 2 ]}. split_and!; [done | done | done |].
    intros p. unfold two_layer_files.
    destruct (decide (p = "5"%string)) as [->|Hne].
    + rewrite !lookup_singleton_eq. constructor.
      exists 2. split; [done|]. by rewrite map_fmap_singleton.
    + rewrite !lookup_singleton_ne by congruence. constructor.
  - exists 3, {[ Some "10" := VRef 4 ]}. split_and!; [done | done | done |].
    intros p.
    destruct (decide (p = "10"%string)) as [->|Hne].
    + rewrite !lookup_singleton_eq. constructor.
      exists 4. split; [done|]. by rewrite map_fmap_singleton.
    + rewrite !lookup_singleton_ne by congruence. constructor.
Defined.

Lemma collected_files_read_only_witness :
  chain_at two_layers 0 two_layer_files
  ∧ flatten_files two_layer_files = {[ Some "a.txt" := "data/five" ]}
  ∧ ∃ r new,
      h_collected_files 0 two_layers = Ok (r, two_layers ++ new)
      ∧ (two_layers ++ new) !! r
        = Some (ODict (VStr <$> flatten_files two_layer_files))
      ∧ chain_at (two_layers ++ new) 0 two_layer_files
      ∧ (∃ r2 new2,
           h_collected_files 0 (two_layers ++ new)
           = Ok (r2, (two_layers ++ new) ++ new2)
           ∧ ((two_layers ++ new) ++ new2) !! r2 = (two_layers ++ new) !! r
           ∧ ((two_layers ++ new) ++ new2) !! r = (two_layers ++ new) !! r
           ∧ chain_at ((two_layers ++ new) ++ new2) 0 two_layer_files)
      ∧ ∀ (h' : heap) (maps' : nat),
          chain_at h' maps' two_layer_files →
          ∃ r' new',
            h_collected_files maps' h' = Ok (r', h' ++ new')
            ∧ (h' ++ new') !! r' = (two_layers ++ new) !! r.
Proof.
  split; [exact two_layers_chain|]. split; [vm_compute; reflexivity|].
  exact (collected_files_read_only two_layers 0 two_layer_files two_layers_chain).
Defined.
